(** * Capture-the-flag server: a shallow embedding of [Source/server.py]

    The development follows the server module function by function:
    the [Player], [Flag] and [Game_State] dataclasses, the [Server]
    object, the tick functions ([process_inputs], [update_flags],
    [check_score], [serialize], [broadcast]), the two arbiter entry points
    ([attempt_pickup], [attempt_steal]), [remove_player] and the
    per-connection receive loop [client_listener].

    Modelling decisions.
    - Python dictionaries keep insertion order and several loops of the
      server depend on it, so a dictionary is an association list with the
      operations of module [Dict].
    - Coordinates are integers.  Spawn points (50, 120, 300, ...), the
      step 6.0 and the clamping bounds are all integral, hence every
      coordinate the server can hold is an integer of small magnitude, on
      which double precision arithmetic is exact.
    - Mutation of a dataclass instance held in a dictionary is an in-place
      [Dict.set] at the key the instance was fetched from.
    - A raised Python exception is the [Raise] constructor of [result].
    - Sockets, locks and thread handles carry no game data; what the
      server writes with [broadcast] is recorded in the [broadcasts] log.
    - Threads interleave at the granularity of one call of a server
      method; see the [step] relation. *)

From Stdlib Require Import ZArith List String Ascii Bool Lia QArith.
Import ListNotations.

Local Open Scope string_scope.
Local Open Scope Z_scope.

(** ** Keys of dictionaries *)

Class KeyEqb (K : Type) := {
  keqb : K -> K -> bool;
  keqb_eq : forall a b, keqb a b = true <-> a = b
}.

#[export] Instance KeyEqb_Z : KeyEqb Z :=
  {| keqb := Z.eqb; keqb_eq := Z.eqb_eq |}.

#[export] Instance KeyEqb_string : KeyEqb string :=
  {| keqb := String.eqb; keqb_eq := String.eqb_eq |}.

Lemma keqb_refl {K} `{KeyEqb K} (k : K) : keqb k k = true.
Proof. now apply keqb_eq. Qed.

Lemma keqb_neq {K} `{KeyEqb K} (a b : K) : keqb a b = false <-> a <> b.
Proof.
  split.
  - intros E Hab. apply keqb_eq in Hab. congruence.
  - intros N. destruct (keqb a b) eqn:E; [apply keqb_eq in E; contradiction | reflexivity].
Qed.

(** ** Insertion-ordered dictionaries *)

Module Dict.
Section Ops.
Context {K V : Type} `{KeyEqb K}.

(** [d.get(k)] *)
Fixpoint get (k : K) (d : list (K * V)) : option V :=
  match d with
  | [] => None
  | (k', v) :: r => if keqb k k' then Some v else get k r
  end.

(** [d[k] = v]: an existing key keeps its place, a new key goes last. *)
Fixpoint set (k : K) (v : V) (d : list (K * V)) : list (K * V) :=
  match d with
  | [] => [(k, v)]
  | (k', v') :: r => if keqb k k' then (k', v) :: r else (k', v') :: set k v r
  end.

(** [d.pop(k, None)], the dictionary part. *)
Definition pop (k : K) (d : list (K * V)) : list (K * V) :=
  filter (fun kv => negb (keqb k (fst kv))) d.

Definition keys (d : list (K * V)) : list K := map fst d.
Definition values (d : list (K * V)) : list V := map snd d.
End Ops.
End Dict.

(** ** Exceptions *)

Inductive exn := KeyError | AttributeError | TypeError | JSONDecodeError.

Inductive result (A : Type) :=
| Ok (a : A)
| Raise (e : exn).
Arguments Ok {A} a.
Arguments Raise {A} e.

Definition bind {A B} (r : result A) (k : A -> result B) : result B :=
  match r with
  | Ok a => k a
  | Raise e => Raise e
  end.

Notation "x <- r ;; k" := (bind r (fun x => k))
  (at level 61, r at next level, right associativity).

(** [d[k]], which raises [KeyError] on a missing key. *)
Definition subscript {K V} `{KeyEqb K} (k : K) (d : list (K * V)) : result V :=
  match Dict.get k d with
  | Some v => Ok v
  | None => Raise KeyError
  end.

(** ** Decoded JSON values

    What [json.loads] returns.  Numbers are the integral ones; an object
    is the Python [dict] built from it. *)

#[local] Unset Elimination Schemes.
Inductive Json :=
| JNull
| JBool (b : bool)
| JInt (z : Z)
| JStr (s : string)
| JArr (l : list Json)
| JObj (o : list (string * Json)).
#[local] Set Elimination Schemes.

Definition JDict := list (string * Json).

(** Truth value of [d.get(k)]; a missing key gives Python's [None]. *)
Definition truthy (v : option Json) : bool :=
  match v with
  | None | Some JNull => false
  | Some (JBool b) => b
  | Some (JInt z) => negb (z =? 0)
  | Some (JStr s) => negb (String.eqb s "")
  | Some (JArr l) => match l with [] => false | _ => true end
  | Some (JObj o) => match o with [] => false | _ => true end
  end.

(** [v == s] for a string literal [s]. *)
Definition is_str (s : string) (v : option Json) : bool :=
  match v with
  | Some (JStr s') => String.eqb s' s
  | _ => false
  end.

(** ** Server constants *)

Definition SCORE_TO_WIN : Z := 5.
Definition PICKUP_RADIUS : Z := 30.
(** The literal [0.35] is the double nearest to 35/100, which is
    3152519739159347 / 2^53 and lies below it.  [random.random()] returns a
    double as well, and two doubles compare as the rationals they are. *)
Definition STEAL_CHANCE : Q := 3152519739159347 # 9007199254740992.
Definition BASE_RADIUS : Z := 50.
Definition MAP_WIDTH : Z := 1000.
Definition MAP_HEIGHT : Z := 600.

(** ** Dataclasses *)

Module Player.
Record t := mk {
  pid : Z;
  x : Z;
  y : Z;
  team : string;
  red : bool;
  blue : bool
}.
Definition set_x (v : Z) (p : t) : t := mk (pid p) v (y p) (team p) (red p) (blue p).
Definition set_y (v : Z) (p : t) : t := mk (pid p) (x p) v (team p) (red p) (blue p).
Definition set_red (b : bool) (p : t) : t := mk (pid p) (x p) (y p) (team p) b (blue p).
Definition set_blue (b : bool) (p : t) : t := mk (pid p) (x p) (y p) (team p) (red p) b.
End Player.

Module Flag.
Record t := mk {
  team : string;
  spawn_x : Z;
  spawn_y : Z;
  x : Z;
  y : Z;
  carrier : option Z
}.
(** The dataclass constructor followed by [__post_init__]. *)
Definition new (team : string) (spawn_x spawn_y : Z) : t :=
  mk team spawn_x spawn_y spawn_x spawn_y None.
Definition set_x (v : Z) (f : t) : t :=
  mk (team f) (spawn_x f) (spawn_y f) v (y f) (carrier f).
Definition set_y (v : Z) (f : t) : t :=
  mk (team f) (spawn_x f) (spawn_y f) (x f) v (carrier f).
Definition set_carrier (c : option Z) (f : t) : t :=
  mk (team f) (spawn_x f) (spawn_y f) (x f) (y f) c.
(** [f.carrier = None; f.x = f.spawn_x; f.y = f.spawn_y].  The
    assignment [f.locked = False] that accompanies it in the source
    creates an attribute nothing reads. *)
Definition reset (f : t) : t :=
  mk (team f) (spawn_x f) (spawn_y f) (spawn_x f) (spawn_y f) None.
End Flag.

Record Game_State := mkGame {
  players : list (Z * Player.t);
  flags : list (string * Flag.t);
  scores : list (string * Z);
  map_width : Z;
  map_height : Z
}.

Definition set_players (ps : list (Z * Player.t)) (g : Game_State) : Game_State :=
  mkGame ps (flags g) (scores g) (map_width g) (map_height g).
Definition set_flags (fs : list (string * Flag.t)) (g : Game_State) : Game_State :=
  mkGame (players g) fs (scores g) (map_width g) (map_height g).
Definition set_scores (sc : list (string * Z)) (g : Game_State) : Game_State :=
  mkGame (players g) (flags g) sc (map_width g) (map_height g).

(** [Game_State()] followed by [_init_flags__]. *)
Definition init_game : Game_State :=
  let left_x := 50 in
  let right_x := MAP_WIDTH - 50 in
  let mid_y := MAP_HEIGHT / 2 in
  mkGame []
         [("red", Flag.new "red" left_x mid_y); ("blue", Flag.new "blue" right_x mid_y)]
         [("red", 0); ("blue", 0)]
         MAP_WIDTH MAP_HEIGHT.

(** ** Movement: [handle_inputs] *)

Definition speed : Z := 6.

Definition clamp (hi v : Z) : Z := Z.max 0 (Z.min hi v).

Definition move_player (g : Game_State) (UP DOWN LEFT RIGHT : bool) (player : Player.t)
  : Player.t :=
  let player := if UP && negb DOWN
                then Player.set_y (Player.y player - speed) player else player in
  let player := if DOWN && negb UP
                then Player.set_y (Player.y player + speed) player else player in
  let player := if LEFT && negb RIGHT
                then Player.set_x (Player.x player - speed) player else player in
  let player := if RIGHT && negb LEFT
                then Player.set_x (Player.x player + speed) player else player in
  let player := Player.set_x (clamp (map_width g) (Player.x player)) player in
  Player.set_y (clamp (map_height g) (Player.y player)) player.

(** [message.get(k, {})] *)
Definition get_or_empty (k : string) (message : JDict) : Json :=
  match Dict.get k message with
  | Some v => v
  | None => JObj []
  end.

(** Reading [move.get] on a value that is not an object raises; the caller
    [process_inputs] prints the exception and goes on. *)
Definition handle_inputs (pid : Z) (message : JDict) (g : Game_State)
  : result Game_State :=
  match Dict.get pid (players g) with
  | None => Ok g
  | Some player =>
      if is_str "input" (Dict.get "type" message) then
        match get_or_empty "move" message with
        | JObj move =>
            let UP := truthy (Dict.get "up" move) in
            let DOWN := truthy (Dict.get "down" move) in
            let LEFT := truthy (Dict.get "left" move) in
            let RIGHT := truthy (Dict.get "right" move) in
            Ok (set_players
                  (Dict.set pid (move_player g UP DOWN LEFT RIGHT player) (players g)) g)
        | _ => Raise AttributeError
        end
      else Ok g
  end.

(** ** Arbiter: [attempt_pickup] *)

Definition dist2 (x1 y1 x2 y2 : Z) : Z :=
  let dx := x1 - x2 in
  let dy := y1 - y2 in
  dx * dx + dy * dy.

(** One iteration of the loop over [self.game.flags.values()]: the
    requester's object and the flag object, before and after. *)
Definition pickup_flag (pid : Z) (player : Player.t) (flag : Flag.t)
  : Player.t * Flag.t :=
  if String.eqb (Flag.team flag) (Player.team player) then (player, flag)
  else
    match Flag.carrier flag with
    | Some _ => (player, flag)
    | None =>
        if dist2 (Player.x player) (Player.y player) (Flag.x flag) (Flag.y flag)
           <=? PICKUP_RADIUS * PICKUP_RADIUS
        then
          let player := Player.set_red false player in
          let player := Player.set_blue false player in
          let flag := Flag.set_carrier (Some pid) flag in
          let player := if String.eqb (Flag.team flag) "red"
                        then Player.set_red true player
                        else Player.set_blue true player in
          (player, flag)
        else (player, flag)
    end.

Fixpoint pickup_loop (pid : Z) (player : Player.t) (fs : list (string * Flag.t))
  : Player.t * list (string * Flag.t) :=
  match fs with
  | [] => (player, [])
  | (k, flag) :: rest =>
      let '(player, flag) := pickup_flag pid player flag in
      let '(player, rest) := pickup_loop pid player rest in
      (player, (k, flag) :: rest)
  end.

Definition attempt_pickup (pid : Z) (g : Game_State) : Game_State :=
  match Dict.get pid (players g) with
  | None => g
  | Some player =>
      let '(player, fs) := pickup_loop pid player (flags g) in
      set_flags fs (set_players (Dict.set pid player (players g)) g)
  end.

(** ** Tick: [update_flags] *)

Definition update_flag (ps : list (Z * Player.t)) (flag : Flag.t) : Flag.t :=
  match Flag.carrier flag with
  | None => flag
  | Some c =>
      match Dict.get c ps with
      | None => Flag.reset flag
      | Some carrier =>
          Flag.set_y (Player.y carrier) (Flag.set_x (Player.x carrier) flag)
      end
  end.

Definition update_flags (g : Game_State) : Game_State :=
  set_flags (map (fun kf => (fst kf, update_flag (players g) (snd kf))) (flags g)) g.

(** ** Arbiter: [attempt_steal]

    [draw] is the value [random.random()] returns when the call is
    reached. *)

Definition attempt_steal (draw : Q) (attacker_pid defender_pid : Z) (flag_team : string)
           (g : Game_State) : Game_State :=
  match Dict.get flag_team (flags g) with
  | None => g
  | Some flag =>
      match Dict.get attacker_pid (players g), Dict.get defender_pid (players g) with
      | Some attacker, Some defender =>
          if (String.eqb flag_team "red" && negb (Player.red defender))
             || (String.eqb flag_team "blue" && negb (Player.blue defender))
          then g
          else if String.eqb (Player.team attacker) (Player.team defender) then g
          else if Qle_bool STEAL_CHANCE draw then g
          else
            let defender := Player.set_blue false (Player.set_red false defender) in
            let ps := Dict.set defender_pid defender (players g) in
            let attacker' :=
              Player.set_blue (String.eqb flag_team "blue")
                (Player.set_red (String.eqb flag_team "red") attacker) in
            let ps := Dict.set attacker_pid attacker' ps in
            let flag :=
              Flag.set_y (Player.y attacker')
                (Flag.set_x (Player.x attacker')
                   (Flag.set_carrier (Some (Player.pid attacker')) flag)) in
            set_flags (Dict.set flag_team flag (flags g)) (set_players ps g)
      | _, _ => g
      end
  end.

(** ** The server object *)

Module FlagView.
Record t := mk { team : string; x : Z; y : Z; carrier : option Z }.
End FlagView.

(** Messages [broadcast] writes; the [connect] reply of [accept] goes to
    the new socket only and is not logged. *)
Inductive Out :=
| MsgOver (winner : string)
| MsgUpdate (ps : list Player.t) (fs : list FlagView.t) (sc : list (string * Z)).

(** Local state of one [client_listener] thread. *)
Record Thread := mkThread {
  buffer : string;
  alive : bool
}.

(** [client_sockets] keeps the keys only.  [broadcasts] logs every call of
    [broadcast] with the clients it wrote to. *)
Record Server := mkServer {
  game : Game_State;
  next_player_id : Z;
  client_sockets : list (Z * unit);
  input_queues : list (Z * list JDict);
  client_threads : list (Z * Thread);
  running : bool;
  broadcasts : list (list Z * Out)
}.

Definition set_game (g : Game_State) (s : Server) : Server :=
  mkServer g (next_player_id s) (client_sockets s) (input_queues s)
           (client_threads s) (running s) (broadcasts s).
Definition set_input_queues (q : list (Z * list JDict)) (s : Server) : Server :=
  mkServer (game s) (next_player_id s) (client_sockets s) q
           (client_threads s) (running s) (broadcasts s).
Definition set_client_threads (t : list (Z * Thread)) (s : Server) : Server :=
  mkServer (game s) (next_player_id s) (client_sockets s) (input_queues s)
           t (running s) (broadcasts s).
Definition set_running (b : bool) (s : Server) : Server :=
  mkServer (game s) (next_player_id s) (client_sockets s) (input_queues s)
           (client_threads s) b (broadcasts s).

(** [Server.__init__] *)
Definition init_server : Server :=
  mkServer init_game 1 [] [] [] true [].

(** [broadcast]: [send_json] swallows every exception, so the handler that
    would call [remove_player] never runs. *)
Definition broadcast (obj : Out) (s : Server) : Server :=
  mkServer (game s) (next_player_id s) (client_sockets s) (input_queues s)
           (client_threads s) (running s)
           (broadcasts s ++ [(Dict.keys (client_sockets s), obj)]).

(** The body of [accept] once a connection has arrived.  A zero modulus
    raises after the identifier was taken; the handler of the loop only
    prints. *)
Definition accept (s : Server) : Server :=
  let pid := next_player_id s in
  let s1 := mkServer (game s) (pid + 1) (client_sockets s) (input_queues s)
                     (client_threads s) (running s) (broadcasts s) in
  let g := game s in
  let team := if pid mod 2 =? 1 then "red" else "blue" in
  let spawn_x := if String.eqb team "red" then 120 else map_width g - 120 in
  if map_height g - 200 =? 0 then s1
  else
    let spawn_y := 100 + (pid * 37) mod (map_height g - 200) in
    let player := Player.mk pid spawn_x spawn_y team false false in
    mkServer (set_players (Dict.set pid player (players g)) g)
             (pid + 1)
             (Dict.set pid tt (client_sockets s))
             (Dict.set pid [] (input_queues s))
             (Dict.set pid (mkThread "" true) (client_threads s))
             (running s) (broadcasts s).

(** ** Tick: [process_inputs] *)

(** The inner [while True] loop: every queued message is handled, an
    exception of [handle_inputs] is printed and the loop goes on. *)
Definition drain (pid : Z) (q : list JDict) (g : Game_State) : Game_State :=
  fold_left (fun g msg => match handle_inputs pid msg g with
                          | Ok g' => g'
                          | Raise _ => g
                          end) q g.

Definition process_queue (s : Server) (pid : Z) : Server :=
  match Dict.get pid (input_queues s) with
  | None => s
  | Some q =>
      set_input_queues (Dict.set pid [] (input_queues s))
                       (set_game (drain pid q (game s)) s)
  end.

Definition process_inputs (s : Server) : Server :=
  fold_left process_queue (Dict.keys (input_queues s)) s.

(** ** Tick: [check_score] *)

Definition carried_flags (player : Player.t) : list string :=
  (if Player.red player && negb (String.eqb (Player.team player) "red")
   then ["red"] else [])
  ++ (if Player.blue player && negb (String.eqb (Player.team player) "blue")
      then ["blue"] else []).

Definition clear_carry (p : Player.t) : Player.t :=
  Player.set_blue false (Player.set_red false p).

Definition reset_all_flags (fs : list (string * Flag.t)) : list (string * Flag.t) :=
  map (fun kf => (fst kf, Flag.reset (snd kf))) fs.

Definition clear_all_players (ps : list (Z * Player.t)) : list (Z * Player.t) :=
  map (fun kp => (fst kp, clear_carry (snd kp))) ps.

(** The body guarded by the base-radius test, up to its [return]. *)
Definition score_event (player : Player.t) (s : Server) : result Server :=
  let g := game s in
  let scoring_team := Player.team player in
  sc <- subscript scoring_team (scores g) ;;
  let total := sc + Z.of_nat (List.length (carried_flags player)) in
  let g := set_scores (Dict.set scoring_team total (scores g)) g in
  let g := set_flags (reset_all_flags (flags g)) g in
  let g := set_players (clear_all_players (players g)) g in
  let s := set_game g s in
  if SCORE_TO_WIN <=? total
  then Ok (set_running false (broadcast (MsgOver scoring_team) s))
  else Ok s.

Definition in_base (player : Player.t) (base : Flag.t) : bool :=
  dist2 (Player.x player) (Player.y player) (Flag.spawn_x base) (Flag.spawn_y base)
  <=? BASE_RADIUS * BASE_RADIUS.

Definition base_flag (player : Player.t) : string :=
  if String.eqb (Player.team player) "red" then "red" else "blue".

(** The loop over [list(self.game.players.items())].  Nothing is written
    before the iteration that scores, so the copied items are the live
    ones. *)
Fixpoint check_score_loop (items : list (Z * Player.t)) (s : Server) : result Server :=
  match items with
  | [] => Ok s
  | (_, player) :: rest =>
      match carried_flags player with
      | [] => check_score_loop rest s
      | _ :: _ =>
          base <- subscript (base_flag player) (flags (game s)) ;;
          if in_base player base then score_event player s
          else check_score_loop rest s
      end
  end.

Definition check_score (s : Server) : result Server :=
  check_score_loop (players (game s)) s.

(** ** Tick: [serialize], and one iteration of [game_loop] *)

Definition serialize (s : Server) : Out :=
  let g := game s in
  MsgUpdate
    (map (fun kp => let p := snd kp in
                    Player.mk (fst kp) (Player.x p) (Player.y p) (Player.team p)
                              (Player.red p) (Player.blue p)) (players g))
    (map (fun kf => let f := snd kf in
                    FlagView.mk (Flag.team f) (Flag.x f) (Flag.y f) (Flag.carrier f))
         (flags g))
    (scores g).

Definition tick (s : Server) : result Server :=
  let s := process_inputs s in
  let s := set_game (update_flags (game s)) s in
  s <- check_score s ;;
  Ok (broadcast (serialize s) s).

(** [game_loop] with no other thread running, cut off after [fuel]
    iterations: the loop goes on while [running] holds. *)
Fixpoint game_loop (fuel : nat) (s : Server) : result Server :=
  match fuel with
  | O => Ok s
  | S fuel =>
      if running s then
        s <- tick s ;;
        game_loop fuel s
      else Ok s
  end.

(** ** [remove_player] *)

Definition release (flag_team : string) (fs : list (string * Flag.t))
  : list (string * Flag.t) :=
  match Dict.get flag_team fs with
  | Some f => Dict.set flag_team (Flag.reset f) fs
  | None => fs
  end.

Definition remove_player (pid : Z) (s : Server) : Server :=
  let g := game s in
  let popped := Dict.get pid (players g) in
  let s := mkServer (set_players (Dict.pop pid (players g)) g)
                    (next_player_id s)
                    (Dict.pop pid (client_sockets s))
                    (Dict.pop pid (input_queues s))
                    (Dict.pop pid (client_threads s))
                    (running s) (broadcasts s) in
  match popped with
  | None => s
  | Some player =>
      let fs := flags (game s) in
      let fs := if Player.red player then release "red" fs else fs in
      let fs := if Player.blue player then release "blue" fs else fs in
      set_game (set_flags fs (game s)) s
  end.

(** ** The receive path: [client_listener] *)

Definition newline : ascii := "010"%char.

(** All complete lines of the buffer, and what follows the last newline:
    the result of repeating [line, buffer = buffer.split(newline, 1)] while
    a newline is left. *)
Fixpoint split_lines (b : string) : list string * string :=
  match b with
  | EmptyString => ([], EmptyString)
  | String c r =>
      let '(ls, rem) := split_lines r in
      if Ascii.eqb c newline then (EmptyString :: ls, rem)
      else match ls with
           | [] => ([], String c rem)
           | l :: ls' => (String c l :: ls', rem)
           end
  end.

(** What [sock.recv] gave: an exception, bytes that do not decode, or
    text; the empty text is the end of the stream. *)
Inductive recv_result :=
| RecvError
| RecvUndecodable
| RecvData (data : string).

Definition disconnect_msg : JDict := [("type", JStr "disconnect")].

(** [q.put(msg)] on the queue the thread was started with.  Once
    [remove_player] dropped the queue from [input_queues] nothing reads
    it any more. *)
Definition put (pid : Z) (msg : JDict) (s : Server) : Server :=
  match Dict.get pid (input_queues s) with
  | Some q => set_input_queues (Dict.set pid (q ++ [msg])%list (input_queues s)) s
  | None => s
  end.

(** A decoded value used as a key of [players]: [True] and [False] hash
    and compare as 1 and 0, lists and objects are unhashable. *)
Definition pid_key (v : option Json) : result (option Z) :=
  match v with
  | Some (JInt z) => Ok (Some z)
  | Some (JBool b) => Ok (Some (Z.b2z b))
  | Some (JArr _) | Some (JObj _) => Raise TypeError
  | _ => Ok None
  end.

Definition team_key (v : option Json) : result (option string) :=
  match v with
  | Some (JStr s) => Ok (Some s)
  | Some (JArr _) | Some (JObj _) => Raise TypeError
  | _ => Ok None
  end.

(** [attempt_steal] on the raw fields of a [steal] message. *)
Definition steal_request (draw : Q) (pid : Z) (target flag : option Json)
           (g : Game_State) : result Game_State :=
  ft <- team_key flag ;;
  match ft with
  | None => Ok g
  | Some flag_team =>
      match Dict.get flag_team (flags g) with
      | None => Ok g
      | Some _ =>
          dk <- pid_key target ;;
          match dk with
          | None => Ok g
          | Some defender_pid => Ok (attempt_steal draw pid defender_pid flag_team g)
          end
      end
  end.

Section Listener.
(** [json.loads]; a line that is not JSON raises. *)
Variable json_loads : string -> result Json.

(** One iteration of the loop over the lines of the buffer. *)
Definition handle_line (draw : Q) (pid : Z) (line : string) (s : Server)
  : result Server :=
  msg <- json_loads line ;;
  match msg with
  | JObj o =>
      let mtype := Dict.get "type" o in
      if is_str "pickup" mtype then Ok (set_game (attempt_pickup pid (game s)) s)
      else if is_str "steal" mtype then
        g <- steal_request draw pid (Dict.get "target" o) (Dict.get "flag" o) (game s) ;;
        Ok (set_game g s)
      else Ok (put pid o s)
  | _ => Raise AttributeError
  end.

(** The lines of one read, in order, up to the first exception;
    [draws n] is the random draw available to line [n]. *)
Fixpoint handle_lines (draws : nat -> Q) (pid : Z) (lines : list string) (s : Server)
  : Server * option exn :=
  match lines with
  | [] => (s, None)
  | line :: rest =>
      match handle_line (draws O) pid line s with
      | Ok s' => handle_lines (fun n => draws (S n)) pid rest s'
      | Raise e => (s, Some e)
      end
  end.

Definition stopped (th : Thread) : Thread := mkThread (buffer th) false.

(** One iteration of [while self.running] from the return of
    [sock.recv] on. *)
Definition listener_recv (draws : nat -> Q) (pid : Z) (r : recv_result)
           (th : Thread) (s : Server) : Thread * Server :=
  match r with
  | RecvError | RecvUndecodable => (stopped th, put pid disconnect_msg s)
  | RecvData data =>
      if String.eqb data "" then (stopped th, put pid disconnect_msg s)
      else
        let '(lines, rem) := split_lines (buffer th ++ data)%string in
        match handle_lines draws pid lines s with
        | (s', None) => (mkThread rem true, s')
        | (s', Some _) => (stopped th, put pid disconnect_msg s')
        end
  end.

(** The whole loop run against a list of reads with no other thread
    interfering; when the reads are used up the thread is blocked in
    [recv]. *)
Fixpoint client_listener (pid : Z) (reads : list (recv_result * (nat -> Q)))
         (th : Thread) (s : Server) : Thread * Server :=
  match reads with
  | [] => (th, s)
  | (r, draws) :: rest =>
      if running s && alive th then
        let '(th', s') := listener_recv draws pid r th s in
        client_listener pid rest th' s'
      else (stopped th, s)
  end.

(** ** Interleavings

    One step is one iteration of the simulation loop (enabled while
    [running] holds), one accepted connection, one read handled by a
    live listener thread, or one call of [remove_player].  The accept
    loop and the listeners test [running] before they block, so an
    iteration may still complete after the flag fell; the steps for them
    carry no such guard, which only adds interleavings.  The keyboard
    interrupt that [start] turns into a shutdown is not a step. *)
Inductive step : Server -> Server -> Prop :=
| step_tick s s' :
    running s = true -> tick s = Ok s' -> step s s'
| step_accept s :
    step s (accept s)
| step_recv s pid th draws r th' s' :
    Dict.get pid (client_threads s) = Some th ->
    alive th = true ->
    listener_recv draws pid r th s = (th', s') ->
    step s (set_client_threads (Dict.set pid th' (client_threads s')) s')
| step_remove s pid :
    step s (remove_player pid s).

Inductive reachable : Server -> Prop :=
| reach_init : reachable init_server
| reach_step s s' : reachable s -> step s s' -> reachable s'.
End Listener.

(** ** [shutdown] and the interrupt handler of [start] *)

(** Every socket is closed and the three connection tables are cleared;
    the players of the game are not touched. *)
Definition shutdown (s : Server) : Server :=
  mkServer (game s) (next_player_id s) [] [] [] (running s) (broadcasts s).

(** [except KeyboardInterrupt: self.running = False; self.shutdown()] *)
Definition interrupt (s : Server) : Server := shutdown (set_running false s).

(** * Specification vocabulary *)

(** Per axis: opposite directions cancel, a single direction moves by
    the step.  Written after the description of the tick, to be compared
    with what [handle_inputs] computes. *)
Definition axis_delta (negative positive : bool) : Z :=
  match negative, positive with
  | true, true => 0
  | true, false => - speed
  | false, true => speed
  | false, false => 0
  end.

Definition in_bounds (g : Game_State) (p : Player.t) : Prop :=
  0 <= Player.x p <= map_width g /\ 0 <= Player.y p <= map_height g.

(** The carried-flag indicator of a player for the flag of a team. *)
Definition carries (p : Player.t) (flag_team : string) : bool :=
  if String.eqb flag_team "red" then Player.red p
  else if String.eqb flag_team "blue" then Player.blue p
  else false.

Definition opposing (team : string) : string :=
  if String.eqb team "red" then "blue" else "red".

(** The flag table as [_init_flags__] builds it; no method adds or
    removes a flag or changes a flag's team. *)
Definition wf_flags (g : Game_State) : Prop :=
  exists fr fb,
    flags g = [("red", fr); ("blue", fb)]
    /\ Flag.team fr = "red" /\ Flag.team fb = "blue".

Definition wf_team (p : Player.t) : Prop :=
  Player.team p = "red" \/ Player.team p = "blue".

(** Keys and teams of a flag table. *)
Definition flag_shape (fs : list (string * Flag.t)) : list (string * string) :=
  map (fun kf => (fst kf, Flag.team (snd kf))) fs.

(** The score table as [Game_State] creates it. *)
Definition wf_scores (g : Game_State) : Prop :=
  Dict.keys (scores g) = ["red"; "blue"].

Definition wf_teams (g : Game_State) : Prop :=
  Forall (fun kp => wf_team (snd kp)) (players g).

Definition wf_game (g : Game_State) : Prop :=
  wf_flags g /\ wf_scores g /\ wf_teams g.

(** Every player object sits under its own identifier, as [accept]
    stores it. *)
Definition wf_pids (g : Game_State) : Prop :=
  forall k p, Dict.get k (players g) = Some p -> Player.pid p = k.

Definition wf_pidsb (g : Game_State) : bool :=
  forallb (fun kp => fst kp =? Player.pid (snd kp)) (players g).

(** The two tests [attempt_pickup] makes on the opposing flag. *)
Definition pickup_ok (player : Player.t) (flag : Flag.t) : bool :=
  match Flag.carrier flag with
  | None =>
      dist2 (Player.x player) (Player.y player) (Flag.x flag) (Flag.y flag)
      <=? PICKUP_RADIUS * PICKUP_RADIUS
  | Some _ => false
  end.

(** A player whose only indicator is the one of [flag_team]. *)
Definition carry_only (flag_team : string) (p : Player.t) : Player.t :=
  Player.mk (Player.pid p) (Player.x p) (Player.y p) (Player.team p)
            (String.eqb flag_team "red") (negb (String.eqb flag_team "red")).

(** The conditions of a steal that the server tests, once the flag and
    both players are found. *)
Definition steal_conditions (draw : Q) (attacker_pid defender_pid : Z)
           (flag_team : string) (g : Game_State) : Prop :=
  exists attacker defender flag,
    Dict.get flag_team (flags g) = Some flag
    /\ Dict.get attacker_pid (players g) = Some attacker
    /\ Dict.get defender_pid (players g) = Some defender
    /\ carries defender flag_team = true
    /\ Player.team attacker <> Player.team defender
    /\ (draw < STEAL_CHANCE)%Q.

(** Carrier consistency: a flag names a carrier exactly when that
    identifier is a player whose indicator for the flag is set. *)
Definition carrier_consistent (g : Game_State) : Prop :=
  forall t f, In (t, f) (flags g) ->
  forall pid,
    Flag.carrier f = Some pid
    <-> exists p, Dict.get pid (players g) = Some p /\ carries p (Flag.team f) = true.

(** Carrier consistency as a test that runs on a given state. *)
Definition carrier_consistentb (g : Game_State) : bool :=
  forallb
    (fun tf =>
       let f := snd tf in
       match Flag.carrier f with
       | None => true
       | Some c => match Dict.get c (players g) with
                   | Some p => carries p (Flag.team f)
                   | None => false
                   end
       end
       && forallb
            (fun k =>
               match Dict.get k (players g) with
               | Some p => implb (carries p (Flag.team f))
                                 (match Flag.carrier f with
                                  | Some c => c =? k
                                  | None => false
                                  end)
               | None => true
               end)
            (Dict.keys (players g)))
    (flags g).

(** A player meets the scoring conditions: it carries at least one flag
    of another team and stands within the base radius of the spawn point
    of its own team's flag. *)
Definition eligible (g : Game_State) (player : Player.t) : bool :=
  match carried_flags player with
  | [] => false
  | _ :: _ =>
      match Dict.get (base_flag player) (flags g) with
      | Some base => in_base player base
      | None => false
      end
  end.

(** The game state a scoring event of [player] leaves. *)
Definition scored (player : Player.t) (sc : Z) (g : Game_State) : Game_State :=
  mkGame (clear_all_players (players g))
         (reset_all_flags (flags g))
         (Dict.set (Player.team player)
                   (sc + Z.of_nat (List.length (carried_flags player))) (scores g))
         (map_width g) (map_height g).

Definition all_flags_home (g : Game_State) : Prop :=
  forall t f, In (t, f) (flags g) ->
    Flag.carrier f = None /\ Flag.x f = Flag.spawn_x f /\ Flag.y f = Flag.spawn_y f.

Definition nobody_carries (g : Game_State) : Prop :=
  forall k p, In (k, p) (players g) -> Player.red p = false /\ Player.blue p = false.

(** Requests that reach the arbiter between two ticks. *)
Inductive arbiter_op :=
| OpPickup (pid : Z)
| OpSteal (draw : Q) (attacker_pid defender_pid : Z) (flag_team : string).

Definition run_op (g : Game_State) (op : arbiter_op) : Game_State :=
  match op with
  | OpPickup pid => attempt_pickup pid g
  | OpSteal draw a d t => attempt_steal draw a d t g
  end.

Definition run_ops (ops : list arbiter_op) (g : Game_State) : Game_State :=
  fold_left run_op ops g.

(** The carriers a snapshot shows. *)
Definition snapshot_carriers (o : Out) : list (option Z) :=
  match o with
  | MsgUpdate _ fs _ => map FlagView.carrier fs
  | MsgOver _ => []
  end.

(** The winners named by the game-over messages of a broadcast log, in
    the order they were sent. *)
Definition over_winners (log : list (list Z * Out)) : list string :=
  flat_map (fun e => match snd e with
                     | MsgOver w => [w]
                     | MsgUpdate _ _ _ => []
                     end) log.

Definition scores_nonneg (g : Game_State) : Prop :=
  forall t v, In (t, v) (scores g) -> 0 <= v.

Definition scores_below_win (g : Game_State) : Prop :=
  forall t v, In (t, v) (scores g) -> v < SCORE_TO_WIN.

(** A step that leaves the scores and the running flag alone, sends no
    game-over message and keeps the game well formed. *)
Definition quiet (s s' : Server) : Prop :=
  scores (game s') = scores (game s)
  /\ running s' = running s
  /\ over_winners (broadcasts s') = over_winners (broadcasts s)
  /\ (wf_game (game s) -> wf_game (game s')).

(** What the server maintains about scores and the end of the round. *)
Definition win_inv (s : Server) : Prop :=
  wf_game (game s)
  /\ scores_nonneg (game s)
  /\ if running s
     then scores_below_win (game s) /\ over_winners (broadcasts s) = []
     else exists w v,
         Dict.get w (scores (game s)) = Some v
         /\ SCORE_TO_WIN <= v
         /\ over_winners (broadcasts s) = [w]
         /\ forall t v', In (t, v') (scores (game s)) -> SCORE_TO_WIN <= v' -> t = w.

(** Any number of steps. *)
Inductive steps (json_loads : string -> result Json) : Server -> Server -> Prop :=
| steps_refl s : steps json_loads s s
| steps_step s s' s'' :
    steps json_loads s s' -> step json_loads s' s'' -> steps json_loads s s''.

(** * Scripts: a driver for the step relation *)

Inductive action :=
| ActAccept
| ActRecv (pid : Z) (data : string)
| ActTick.

Definition no_draws : nat -> Q := fun _ => 0%Q.

Section Scripts.
Variable json_loads : string -> result Json.

(** One step chosen by [a], when it is enabled; every steal draws 0. *)
Definition do_action (s : Server) (a : action) : option Server :=
  match a with
  | ActAccept => Some (accept s)
  | ActRecv pid data =>
      match Dict.get pid (client_threads s) with
      | Some th =>
          if alive th then
            let '(th', s') := listener_recv json_loads no_draws pid (RecvData data) th s in
            Some (set_client_threads (Dict.set pid th' (client_threads s')) s')
          else None
      | None => None
      end
  | ActTick =>
      if running s then
        match tick s with
        | Ok s' => Some s'
        | Raise _ => None
        end
      else None
  end.

Fixpoint run_script (acts : list action) (s : Server) : option Server :=
  match acts with
  | [] => Some s
  | a :: rest =>
      match do_action s a with
      | Some s' => run_script rest s'
      | None => None
      end
  end.
End Scripts.

(** ** Frames *)

Definition input_msg (up down left right : bool) : JDict :=
  [("type", JStr "input");
   ("move", JObj [("up", JBool up); ("down", JBool down);
                  ("left", JBool left); ("right", JBool right)])].

Definition go_up := input_msg true false false false.
Definition go_down := input_msg false true false false.
Definition go_left := input_msg false false true false.
Definition go_right := input_msg false false false true.

Definition dq : string := String "034"%char EmptyString.

Definition quoted (s : string) : string := (dq ++ s ++ dq)%string.

Definition json_bool (b : bool) : string := if b then "true" else "false".

(** The frames a client writes for a pickup, a steal and a movement
    input. *)
Definition frame_pickup : string :=
  ("{" ++ quoted "type" ++ ": " ++ quoted "pickup" ++ "}")%string.

Definition frame_steal (target flag : string) : string :=
  ("{" ++ quoted "type" ++ ": " ++ quoted "steal" ++ ", "
       ++ quoted "target" ++ ": " ++ target ++ ", "
       ++ quoted "flag" ++ ": " ++ quoted flag ++ "}")%string.

Definition frame_input (up down left right : bool) : string :=
  ("{" ++ quoted "type" ++ ": " ++ quoted "input" ++ ", " ++ quoted "move" ++ ": {"
       ++ quoted "up" ++ ": " ++ json_bool up ++ ", "
       ++ quoted "down" ++ ": " ++ json_bool down ++ ", "
       ++ quoted "left" ++ ": " ++ json_bool left ++ ", "
       ++ quoted "right" ++ ": " ++ json_bool right ++ "}}")%string.

Definition steal_msg (target : Z) (flag : string) : JDict :=
  [("type", JStr "steal"); ("target", JInt target); ("flag", JStr flag)].

(** A decoder that agrees with [json.loads] on the lines the scenarios
    use: the empty object, the pickup frame, two steal frames and the four
    single-direction input frames decode; the bare word [oops], like every
    other line the scenarios do not use, is rejected. *)
Definition loads_frames (line : string) : result Json :=
  if String.eqb line "{}" then Ok (JObj [])
  else if String.eqb line frame_pickup then Ok (JObj [("type", JStr "pickup")])
  else if String.eqb line (frame_steal "2" "red") then Ok (JObj (steal_msg 2 "red"))
  else if String.eqb line (frame_steal "1" "blue") then Ok (JObj (steal_msg 1 "blue"))
  else if String.eqb line (frame_input true false false false) then Ok (JObj go_up)
  else if String.eqb line (frame_input false true false false) then Ok (JObj go_down)
  else if String.eqb line (frame_input false false true false) then Ok (JObj go_left)
  else if String.eqb line (frame_input false false false true) then Ok (JObj go_right)
  else Raise JSONDecodeError.

Definition with_newline (line : string) : string :=
  (line ++ String newline EmptyString)%string.

(** [n] copies of one frame, each ended by a newline. *)
Fixpoint frames (n : nat) (frame : string) : string :=
  match n with
  | O => EmptyString
  | S n => (with_newline frame ++ frames n frame)%string
  end.

Definition frames_down (n : nat) : string := frames n (frame_input false true false false).
Definition frames_left (n : nat) : string := frames n (frame_input false false true false).
Definition frames_right (n : nat) : string := frames n (frame_input false false false true).

(** The state a script leads to from the initial server. *)
Definition played (acts : list action) : Server :=
  match run_script loads_frames acts init_server with
  | Some s => s
  | None => init_server
  end.

(** [n] copies of one movement message handled for [pid]. *)
Definition walk (pid : Z) (n : nat) (m : JDict) (g : Game_State) : Game_State :=
  drain pid (repeat m n) g.

(** ** Scenarios

    States reached by play, each given by the script that leads to it
    and stored as the value the script computes. *)

(** Two connections accepted: player 1 is red and spawns at (120, 137),
    player 2 is blue and spawns at (880, 174). *)
Definition two_players_script : list action := [ActAccept; ActAccept].

Definition two_players : Server := Eval vm_compute in played two_players_script.

(** Player 2 walks to the red flag, to (52, 300), and picks it up;
    player 1 is still at its spawn. *)
Definition blue_has_red_flag_script : list action :=
  (two_players_script
   ++ [ActRecv 2 (frames_left 138 ++ frames_down 21)%string;
       ActTick;
       ActRecv 2 (with_newline frame_pickup)])%list.

Definition blue_has_red_flag_server : Server :=
  Eval vm_compute in played blue_has_red_flag_script.

Definition blue_has_red_flag : Game_State :=
  Eval vm_compute in game blue_has_red_flag_server.

(** Player 1 then steals the red flag, its own team's, and walks to the
    blue flag, to (948, 299). *)
Definition red_holds_own_flag_script : list action :=
  (blue_has_red_flag_script
   ++ [ActRecv 1 (with_newline (frame_steal "2" "red"));
       ActRecv 1 (frames_right 138 ++ frames_down 27)%string;
       ActTick])%list.

Definition red_holds_own_flag_server : Server :=
  Eval vm_compute in played red_holds_own_flag_script.

Definition red_holds_own_flag : Game_State :=
  Eval vm_compute in game red_holds_own_flag_server.

(** The state the pickup of player 1 leaves in [red_holds_own_flag]: both
    flags name player 1, whose red indicator is clear. *)
Definition red_flag_orphaned : Game_State :=
  Eval vm_compute in attempt_pickup 1 red_holds_own_flag.

(** Instead, player 1 walks to the blue flag and picks it up: both
    players carry the other team's flag, player 2 the red one at
    (52, 300), player 1 the blue one at (948, 299). *)
Definition both_carry_script : list action :=
  (blue_has_red_flag_script
   ++ [ActRecv 1 (frames_right 138 ++ frames_down 27)%string;
       ActTick;
       ActRecv 1 (with_newline frame_pickup)])%list.

Definition both_carry_server : Server := Eval vm_compute in played both_carry_script.

Definition both_carry : Game_State := Eval vm_compute in game both_carry_server.

(** Both carriers have sent the inputs that take them home; the inputs
    wait in the queues for the next tick. *)
Definition both_head_home_script : list action :=
  (both_carry_script
   ++ [ActRecv 1 (frames_left 150); ActRecv 2 (frames_right 150)])%list.

Definition both_head_home : Server := Eval vm_compute in played both_head_home_script.

(** The state on which that tick calls [check_score]: the queues are
    drained, the flags follow their carriers, player 1 stands at (48, 299)
    and player 2 at (952, 300), each inside its own base. *)
Definition both_in_base : Server := Eval vm_compute in
  let s := process_inputs both_head_home in
  set_game (update_flags (game s)) s.

(** Player 1 fetches the blue flag and carries it home: from [start]
    steps to the right it walks to the flag, picks it up, walks back and
    scores in the tick that follows. *)
Definition capture_round (start : nat) : list action :=
  [ActRecv 1 (frames_right start);
   ActTick;
   ActRecv 1 (with_newline frame_pickup);
   ActRecv 1 (frames_left 150);
   ActTick].

(** One connection, five captures by player 1. *)
Definition winning_script : list action :=
  ([ActAccept; ActRecv 1 (frames_down 27)]
   ++ capture_round 138 ++ capture_round 150 ++ capture_round 150
   ++ capture_round 150 ++ capture_round 150)%list.

Definition won : Server := Eval vm_compute in played winning_script.

(** ** States written down directly *)

(** A requester standing exactly one pickup radius from the free red
    flag. *)
Definition on_pickup_boundary : Game_State :=
  mkGame [(2, Player.mk 2 80 300 "blue" false false)]
         (flags init_game) (scores init_game) MAP_WIDTH MAP_HEIGHT.

(** A player of a third team, for which both flags are opposing ones: it
    carries the blue flag and stands next to the free red flag.  [accept]
    never creates such a player. *)
Definition third_team_carrier : Game_State :=
  mkGame [(3, Player.mk 3 52 300 "green" false true)]
         [("red", Flag.mk "red" 50 300 50 300 None);
          ("blue", Flag.mk "blue" 950 300 52 300 (Some 3))]
         (scores init_game) MAP_WIDTH MAP_HEIGHT.

(** A player of a third team that carries both flags inside the blue
    base, in a game whose score table knows that team.  [accept] never
    creates such a player; the state shows what a scoring event does with
    two carried flags. *)
Definition third_team_two_flags : Server :=
  set_game
    (mkGame [(3, Player.mk 3 940 300 "green" true true)]
            [("red", Flag.mk "red" 50 300 940 300 (Some 3));
             ("blue", Flag.mk "blue" 950 300 940 300 (Some 3))]
            [("red", 0); ("blue", 0); ("green", 0)]
            MAP_WIDTH MAP_HEIGHT)
    init_server.

(** ** Vocabulary of the further properties *)

(** Who is in the game: key, identifier field and team of every player, in
    table order. *)
Definition roster (ps : list (Z * Player.t)) : list (Z * Z * string) :=
  map (fun kp => (fst kp, Player.pid (snd kp), Player.team (snd kp))) ps.

(** The team [accept] derives from an identifier. *)
Definition team_of_pid (pid : Z) : string :=
  if pid mod 2 =? 1 then "red" else "blue".

(** The four per-connection tables list the same identifiers, each once,
    all handed out already; every player sits under its own identifier and
    has the team of that identifier's parity. *)
Definition roster_inv (s : Server) : Prop :=
  let ks := Dict.keys (players (game s)) in
  NoDup ks
  /\ Dict.keys (client_sockets s) = ks
  /\ Dict.keys (input_queues s) = ks
  /\ Dict.keys (client_threads s) = ks
  /\ 1 <= next_player_id s
  /\ (forall k, In k ks -> 1 <= k < next_player_id s)
  /\ Forall (fun e => snd (fst e) = fst (fst e) /\ snd e = team_of_pid (fst (fst e)))
            (roster (players (game s))).

(** A step that neither adds nor removes a connection. *)
Definition same_tables (s s' : Server) : Prop :=
  roster (players (game s')) = roster (players (game s))
  /\ Dict.keys (client_sockets s') = Dict.keys (client_sockets s)
  /\ Dict.keys (input_queues s') = Dict.keys (input_queues s)
  /\ Dict.keys (client_threads s') = Dict.keys (client_threads s)
  /\ next_player_id s' = next_player_id s.

(** Every queue handled once, in table order: what [process_inputs]
    computes when no identifier has two queues. *)
Definition drain_all (qs : list (Z * list JDict)) (g : Game_State) : Game_State :=
  fold_left (fun g kq => drain (fst kq) (snd kq) g) qs g.

Definition emptied (qs : list (Z * list JDict)) : list (Z * list JDict) :=
  map (fun kq => (fst kq, [])) qs.

(** A carried flag is where its carrier is, and the carrier is a listed
    player. *)
Definition flag_follows (ps : list (Z * Player.t)) (f : Flag.t) : Prop :=
  match Flag.carrier f with
  | None => True
  | Some c => exists p, Dict.get c ps = Some p
                        /\ Flag.x f = Player.x p /\ Flag.y f = Player.y p
  end.

Definition flags_follow (g : Game_State) : Prop :=
  forall t f, In (t, f) (flags g) -> flag_follows (players g) f.



(** The text of a list of lines, each followed by the delimiter. *)
Fixpoint join_lines (ls : list string) : string :=
  match ls with
  | [] => EmptyString
  | l :: ls => (l ++ String newline (join_lines ls))%string
  end.

Fixpoint has_newline (b : string) : bool :=
  match b with
  | EmptyString => false
  | String c r => Ascii.eqb c newline || has_newline r
  end.

(** [sock.recv(BUFFER_SIZE)] returns at most this many bytes. *)
Definition BUFFER_SIZE : nat := 4096.

(** Text of ASCII characters only.  Such text is its own UTF-8 encoding,
    byte for byte, so every piece of it decodes, to itself, wherever the
    stream is cut.  [json.dumps], which the client writes its requests
    with, produces nothing else: it escapes every other character. *)
Fixpoint is_ascii_text (b : string) : bool :=
  match b with
  | EmptyString => true
  | String c r => (N_of_ascii c <? 128)%N && is_ascii_text r
  end.

(** A pickup frame and an empty object, cut in the middle of the first
    frame. *)
Definition cut_head : string := ("{" ++ quoted "type")%string.
Definition cut_tail : string :=
  (": " ++ quoted "pickup" ++ "}" ++ String newline ("{}" ++ String newline "{"))%string.

(** Player 2 stands next to the free red flag, at (52, 300). *)
Definition blue_at_red_flag : Server := Eval vm_compute in
  played (two_players_script
          ++ [ActRecv 2 (frames_left 138 ++ frames_down 21)%string; ActTick]).

(** A position inside the map the server is started with. *)
Definition on_map (x y : Z) : Prop := 0 <= x <= MAP_WIDTH /\ 0 <= y <= MAP_HEIGHT.

Definition on_the_map (g : Game_State) : Prop :=
  map_width g = MAP_WIDTH /\ map_height g = MAP_HEIGHT
  /\ (forall k p, In (k, p) (players g) -> on_map (Player.x p) (Player.y p))
  /\ (forall t f, In (t, f) (flags g) ->
        on_map (Flag.x f) (Flag.y f) /\ on_map (Flag.spawn_x f) (Flag.spawn_y f)).

(** A line that decodes to an object the listener passes on to the
    queue: its type is neither [pickup] nor [steal]. *)
Definition queued_as (json_loads : string -> result Json) (line : string) (o : JDict)
  : Prop :=
  json_loads line = Ok (JObj o)
  /\ is_str "pickup" (Dict.get "type" o) = false
  /\ is_str "steal" (Dict.get "type" o) = false.







(** * The client ([client.py])

    The client as it runs against this server.  The messages it handles
    are the ones the server writes: [connect] from [accept], [update] from
    [serialize], [over] from [check_score]; every player and flag object of
    an update has the fields [serialize] gives it, so the tests for a
    missing coordinate in [try_auto_pickup] and [try_steal] never fire and
    [f.get("team", ...)] finds the team.  What the client writes to the
    socket is recorded as a list of requests.  [now] is the value
    [time.time()] returns, taken as an exact number.  [InOther] is an
    object whose type is none of the four [handle] knows. *)

Definition AUTO_PICKUP_RADIUS : Z := 40.
Definition AUTO_PICKUP_COOLDOWN : Q := 6 # 10.

(** A message read from the server. *)
Inductive Incoming :=
| InConnect (pid : Z) (team : string)
| InDisconnect
| InOut (o : Out)
| InOther.

(** A message written to the server. *)
Inductive Request :=
| ReqInput (up down left right : bool)
| ReqPickup
| ReqSteal (target : Z) (flag : string)
| ReqDisconnect (pid : option Z).

Module Client.
Record t := mk {
  pid : option Z;
  team : option string;
  players : list (Z * Player.t);
  flags : list FlagView.t;
  score : list (string * Z);
  over : bool;
  winner : option string;
  last_auto_pickup : list (string * Q)
}.
(** The fields as [__init__] sets them. *)
Definition new : t := mk None None [] [] [("red", 0); ("blue", 0)] false None [].
Definition set_last_auto_pickup (l : list (string * Q)) (c : t) : t :=
  mk (pid c) (team c) (players c) (flags c) (score c) (over c) (winner c) l.
End Client.

(** [handle] *)
Definition handle (msg : Incoming) (c : Client.t) : Client.t :=
  match msg with
  | InConnect pid team =>
      Client.mk (Some pid) (Some team) (Client.players c) (Client.flags c)
                (Client.score c) (Client.over c) (Client.winner c)
                (Client.last_auto_pickup c)
  | InDisconnect =>
      Client.mk (Client.pid c) (Client.team c) (Client.players c) (Client.flags c)
                (Client.score c) true (Client.winner c) (Client.last_auto_pickup c)
  | InOut (MsgUpdate ps fs sc) =>
      let new_players := fold_left (fun d p => Dict.set (Player.pid p) p d) ps [] in
      Client.mk (Client.pid c) (Client.team c) new_players fs sc
                (Client.over c) (Client.winner c) (Client.last_auto_pickup c)
  | InOut (MsgOver w) =>
      Client.mk (Client.pid c) (Client.team c) (Client.players c) (Client.flags c)
                (Client.score c) true (Some w) (Client.last_auto_pickup c)
  | InOther => c
  end.

(** The loop of [try_auto_pickup] over the flags: the cooldown table
    after a request was sent, [None] when the loop ends without one. *)
Fixpoint auto_pickup_loop (now : Q) (team : string) (px py : Z)
         (fs : list FlagView.t) (last : list (string * Q)) : option (list (string * Q)) :=
  match fs with
  | [] => None
  | f :: rest =>
      if String.eqb (FlagView.team f) team then auto_pickup_loop now team px py rest last
      else
        match FlagView.carrier f with
        | Some _ => auto_pickup_loop now team px py rest last
        | None =>
            if dist2 px py (FlagView.x f) (FlagView.y f)
               <=? AUTO_PICKUP_RADIUS * AUTO_PICKUP_RADIUS
            then
              let key := FlagView.team f in
              let l := match Dict.get key last with Some v => v | None => 0%Q end in
              if Qle_bool AUTO_PICKUP_COOLDOWN (now - l)
              then Some (Dict.set key now last)
              else auto_pickup_loop now team px py rest last
            else auto_pickup_loop now team px py rest last
        end
  end.

Definition try_auto_pickup (now : Q) (c : Client.t) : Client.t * list Request :=
  match Client.pid c, Client.team c with
  | Some pid, Some team =>
      match Dict.get pid (Client.players c) with
      | None => (c, [])
      | Some our_player =>
          match auto_pickup_loop now team (Player.x our_player) (Player.y our_player)
                                 (Client.flags c) (Client.last_auto_pickup c) with
          | Some last => (Client.set_last_auto_pickup last c, [ReqPickup])
          | None => (c, [])
          end
      end
  | _, _ => (c, [])
  end.

(** The loop of [try_steal] over [self.players.values()]. *)
Fixpoint steal_loop (pid : Z) (team : string) (px py : Z) (ps : list Player.t)
  : list Request :=
  match ps with
  | [] => []
  | p :: rest =>
      if Player.pid p =? pid then steal_loop pid team px py rest
      else if String.eqb (Player.team p) team then steal_loop pid team px py rest
      else if negb (Player.red p || Player.blue p) then steal_loop pid team px py rest
      else if dist2 px py (Player.x p) (Player.y p)
              <=? AUTO_PICKUP_RADIUS * AUTO_PICKUP_RADIUS
      then [ReqSteal (Player.pid p) (if Player.red p then "red" else "blue")]
      else steal_loop pid team px py rest
  end.

Definition try_steal (c : Client.t) : list Request :=
  match Client.pid c, Client.team c with
  | Some pid, Some team =>
      match Dict.get pid (Client.players c) with
      | None => []
      | Some our_player =>
          steal_loop pid team (Player.x our_player) (Player.y our_player)
                     (Dict.values (Client.players c))
      end
  | _, _ => []
  end.

Definition set_over (c : Client.t) : Client.t :=
  Client.mk (Client.pid c) (Client.team c) (Client.players c) (Client.flags c)
            (Client.score c) true (Client.winner c) (Client.last_auto_pickup c).

Section Listen.
(** [json.loads(line)] read as a message of the server: [Raise
    JSONDecodeError] when the line is not JSON, another exception when what
    it decodes to makes [handle] raise, which [handle] does before it writes
    anything. *)
Variable loads_incoming : string -> result Incoming.
(** [not line.strip()] *)
Variable is_blank : string -> bool.

(** One iteration of the loop over the lines of the buffer in [listen]. *)
Definition listen_line (line : string) (c : Client.t) : result Client.t :=
  if is_blank line then Ok c
  else match loads_incoming line with
       | Ok msg => Ok (handle msg c)
       | Raise JSONDecodeError => Ok c
       | Raise e => Raise e
       end.

Fixpoint listen_lines (lines : list string) (c : Client.t) : Client.t * option exn :=
  match lines with
  | [] => (c, None)
  | line :: rest =>
      match listen_line line c with
      | Ok c' => listen_lines rest c'
      | Raise e => (c, Some e)
      end
  end.

(** One iteration of [while not self.over] from the return of
    [sock.recv] on: the buffer and the client afterwards. *)
Definition listen_recv (r : recv_result) (buffer : string) (c : Client.t)
  : string * Client.t :=
  match r with
  | RecvError | RecvUndecodable => (buffer, set_over c)
  | RecvData data =>
      if String.eqb data "" then (buffer, set_over c)
      else
        let '(lines, rem) := split_lines (buffer ++ data)%string in
        match listen_lines lines c with
        | (c', None) => (rem, c')
        | (c', Some _) => (buffer, set_over c')
        end
  end.

Fixpoint listen (reads : list recv_result) (buffer : string) (c : Client.t)
  : string * Client.t :=
  match reads with
  | [] => (buffer, c)
  | r :: rest =>
      if Client.over c then (buffer, c)
      else let '(buffer', c') := listen_recv r buffer c in listen rest buffer' c'
  end.
End Listen.

(** The object each request is written from, as the server decodes it. *)
Definition request_json (r : Request) : JDict :=
  match r with
  | ReqInput u d l r => input_msg u d l r
  | ReqPickup => [("type", JStr "pickup")]
  | ReqSteal target flag => steal_msg target flag
  | ReqDisconnect pid =>
      [("type", JStr "disconnect");
       ("pid", match pid with Some p => JInt p | None => JNull end)]
  end.

(** The [connect] message [accept] sends to the connection it gave the
    identifier [pid]. *)
Definition connect_msg (pid : Z) : Incoming :=
  InConnect pid (if pid mod 2 =? 1 then "red" else "blue").

(** A client that was given the identifier [pid] and has handled the
    snapshot of the state [s]. *)
Definition joined (pid : Z) (s : Server) (c : Client.t) : Client.t :=
  handle (InOut (serialize s)) (handle (connect_msg pid) c).

(** Player 1 has walked to player 2, who carries the red flag next to
    the red base: player 1 stands at (54, 299), player 2 at (52, 300). *)
Definition red_meets_carrier_script : list action :=
  (blue_has_red_flag_script
   ++ [ActRecv 1 (frames_left 11 ++ frames_down 27)%string; ActTick])%list.

Definition red_meets_carrier : Server := Eval vm_compute in played red_meets_carrier_script.







(** A decoder for the lines of the client scenarios: the [over] frame
    naming red and the empty object decode, the number [3] decodes to
    something [handle] cannot call [get] on, everything else is not
    JSON. *)
Definition frame_over_red : string :=
  ("{" ++ quoted "type" ++ ": " ++ quoted "over" ++ ", "
       ++ quoted "winner" ++ ": " ++ quoted "red" ++ "}")%string.

Definition loads_incoming_frames (line : string) : result Incoming :=
  if String.eqb line frame_over_red then Ok (InOut (MsgOver "red"))
  else if String.eqb line "{}" then Ok InOther
  else if String.eqb line "3" then Raise AttributeError
  else Raise JSONDecodeError.

Definition is_empty_line (line : string) : bool := String.eqb line "".





(** The play that leads to [red_flag_orphaned]: holding the red flag it
    stole, player 1 picks the blue flag up. *)
Definition red_flag_orphaned_script : list action :=
  (red_holds_own_flag_script ++ [ActRecv 1 (with_newline frame_pickup)])%list.

Definition red_flag_orphaned_server : Server :=
  Eval vm_compute in played red_flag_orphaned_script.

(** * Properties *)

(** ** Dictionary lemmas *)

Section DictLemmas.
Context {K V : Type} `{KeyEqb K}.
Implicit Types (k : K) (v : V) (d : list (K * V)).

Lemma get_set_eq k v d : Dict.get k (Dict.set k v d) = Some v.
Proof.
  induction d as [|[k' v'] r IH]; simpl.
  - now rewrite keqb_refl.
  - destruct (keqb k k') eqn:E; simpl; rewrite E; auto.
Qed.

Lemma get_set_neq k k' v d : k <> k' -> Dict.get k' (Dict.set k v d) = Dict.get k' d.
Proof.
  intros N. induction d as [|[k0 v0] r IH]; simpl.
  - assert (keqb k' k = false) as -> by (apply keqb_neq; congruence). reflexivity.
  - destruct (keqb k k0) eqn:E; simpl.
    + apply keqb_eq in E. subst k0.
      assert (keqb k' k = false) as -> by (apply keqb_neq; congruence). reflexivity.
    + now rewrite IH.
Qed.

Lemma set_get_id k v d : Dict.get k d = Some v -> Dict.set k v d = d.
Proof.
  induction d as [|[k' v'] r IH]; simpl; [discriminate|].
  destruct (keqb k k') eqn:E.
  - now intros [= ->].
  - intros G. now rewrite IH.
Qed.

Lemma keys_set_present k v d :
  Dict.get k d <> None -> Dict.keys (Dict.set k v d) = Dict.keys d.
Proof.
  induction d as [|[k' v'] r IH]; simpl; [congruence|].
  destruct (keqb k k') eqn:E; simpl; [reflexivity|].
  intros G. f_equal. now apply IH.
Qed.

Lemma get_pop_eq k d : Dict.get k (Dict.pop k d) = None.
Proof.
  induction d as [|[k' v'] r IH]; simpl; [reflexivity|].
  destruct (keqb k k') eqn:E; simpl; [assumption|]. now rewrite E.
Qed.

Lemma get_pop_neq k k' d : k <> k' -> Dict.get k' (Dict.pop k d) = Dict.get k' d.
Proof.
  intros N. induction d as [|[k0 v0] r IH]; simpl; [reflexivity|].
  destruct (keqb k k0) eqn:E; simpl.
  - apply keqb_eq in E. subst k0.
    assert (keqb k' k = false) as -> by (apply keqb_neq; congruence). assumption.
  - now rewrite IH.
Qed.

Lemma get_In k v d : Dict.get k d = Some v -> In (k, v) d.
Proof.
  induction d as [|[k' v'] r IH]; simpl; [discriminate|].
  destruct (keqb k k') eqn:E.
  - apply keqb_eq in E. intros [= ->]. left. now subst.
  - intros G. right. now apply IH.
Qed.

Lemma In_get k v d : In (k, v) d -> Dict.get k d <> None.
Proof.
  induction d as [|[k' v'] r IH]; simpl; [tauto|].
  intros [[= -> ->]|I].
  - now rewrite keqb_refl.
  - destruct (keqb k k'); [discriminate | now apply IH].
Qed.

Lemma In_get_nodup k v d :
  NoDup (Dict.keys d) -> In (k, v) d -> Dict.get k d = Some v.
Proof.
  induction d as [|[k' v'] r IH]; simpl; [tauto|].
  intros ND [[= -> ->]|I].
  - now rewrite keqb_refl.
  - inversion ND as [|? ? NI ND']; subst.
    destruct (keqb k k') eqn:E.
    + apply keqb_eq in E. subst k'. exfalso. apply NI.
      change k with (fst (k, v)). now apply in_map.
    + now apply IH.
Qed.

Lemma get_map_values (f : V -> V) k d :
  Dict.get k (map (fun kv => (fst kv, f (snd kv))) d) = option_map f (Dict.get k d).
Proof.
  induction d as [|[k' v'] r IH]; simpl; [reflexivity|].
  destruct (keqb k k'); [reflexivity | assumption].
Qed.

Lemma keys_map_values (f : V -> V) d :
  Dict.keys (map (fun kv => (fst kv, f (snd kv))) d) = Dict.keys d.
Proof.
  unfold Dict.keys. rewrite map_map. now apply map_ext.
Qed.
End DictLemmas.

(** ** Movement *)

Lemma clamp_bounds hi v : 0 <= hi -> 0 <= clamp hi v <= hi.
Proof. unfold clamp. lia. Qed.

Lemma move_player_spec g u d l r p :
  let p' := move_player g u d l r p in
  Player.x p' = clamp (map_width g) (Player.x p + axis_delta l r)
  /\ Player.y p' = clamp (map_height g) (Player.y p + axis_delta u d)
  /\ Player.pid p' = Player.pid p /\ Player.team p' = Player.team p
  /\ Player.red p' = Player.red p /\ Player.blue p' = Player.blue p.
Proof.
  destruct u, d, l, r; cbn; repeat split; f_equal; unfold speed; lia.
Qed.

Lemma handle_inputs_cases pid message g :
  match Dict.get pid (players g) with
  | None => handle_inputs pid message g = Ok g
  | Some p =>
      handle_inputs pid message g = Ok g
      \/ (exists e, handle_inputs pid message g = Raise e)
      \/ exists u d l r,
          handle_inputs pid message g
          = Ok (set_players (Dict.set pid (move_player g u d l r p) (players g)) g)
  end.
Proof.
  unfold handle_inputs. destruct (Dict.get pid (players g)) as [p|]; [|reflexivity].
  destruct (is_str "input" _); [|now left].
  destruct (get_or_empty "move" message);
    try (right; left; eexists; reflexivity).
  right; right. do 4 eexists. reflexivity.
Qed.

Lemma drain_in_bounds pid msgs : forall g p,
  0 <= map_width g -> 0 <= map_height g ->
  Dict.get pid (players g) = Some p -> in_bounds g p ->
  exists p', Dict.get pid (players (drain pid msgs g)) = Some p'
             /\ in_bounds g p'
             /\ map_width (drain pid msgs g) = map_width g
             /\ map_height (drain pid msgs g) = map_height g.
Proof.
  unfold drain. induction msgs as [|m ms IH]; intros g p W Hh G B; simpl.
  - eauto.
  - pose proof (handle_inputs_cases pid m g) as C. rewrite G in C.
    destruct C as [E|[[e E]|(u & d & l & r & E)]]; rewrite E; eauto.
    set (p1 := move_player g u d l r p).
    set (g1 := set_players _ g).
    destruct (IH g1 p1) as (p' & G' & B' & W' & H'); auto.
    + subst g1; simpl. apply get_set_eq.
    + destruct (move_player_spec g u d l r p) as (X & Y & _).
      subst p1 g1. unfold in_bounds, set_players. cbn [map_width map_height].
      rewrite X, Y. split; apply clamp_bounds; assumption.
    + exists p'. auto.
Qed.

(** C8. Movement is applied per axis, opposite directions on one axis
    cancel, a direction that applies moves the player by the step, and the
    position is then clamped into the map; a message of another type moves
    nobody; after any sequence of queued messages a player that was inside
    the map is still inside [0, map_width] x [0, map_height]. *)
Theorem handle_inputs_moves_and_clamps (g : Game_State) (pid : Z) (player : Player.t) :
  0 <= map_width g -> 0 <= map_height g ->
  Dict.get pid (players g) = Some player ->
  (forall message move,
      Dict.get "type" message = Some (JStr "input") ->
      get_or_empty "move" message = JObj move ->
      let UP := truthy (Dict.get "up" move) in
      let DOWN := truthy (Dict.get "down" move) in
      let LEFT := truthy (Dict.get "left" move) in
      let RIGHT := truthy (Dict.get "right" move) in
      exists g' p',
        handle_inputs pid message g = Ok g'
        /\ Dict.get pid (players g') = Some p'
        /\ Player.x p' = clamp (map_width g) (Player.x player + axis_delta LEFT RIGHT)
        /\ Player.y p' = clamp (map_height g) (Player.y player + axis_delta UP DOWN)
        /\ in_bounds g p')
  /\ (forall message,
         is_str "input" (Dict.get "type" message) = false ->
         handle_inputs pid message g = Ok g)
  /\ (forall msgs,
         in_bounds g player ->
         exists p', Dict.get pid (players (drain pid msgs g)) = Some p' /\ in_bounds g p').
Proof.
  intros W Hh G. split; [|split].
  - intros message move T M UP DOWN LEFT RIGHT.
    unfold handle_inputs. rewrite G, T, M. simpl.
    do 2 eexists. split; [reflexivity|]. simpl. rewrite get_set_eq.
    split; [reflexivity|].
    destruct (move_player_spec g UP DOWN LEFT RIGHT player) as (X & Y & _).
    fold UP DOWN LEFT RIGHT. rewrite X, Y. repeat split; try apply clamp_bounds; auto.
  - intros message T. unfold handle_inputs. now rewrite G, T.
  - intros msgs B. destruct (drain_in_bounds pid msgs g player W Hh G B) as (p' & ? & ? & _).
    eauto.
Qed.

(** ** Scripts *)

Lemma do_action_step json_loads s a s' :
  do_action json_loads s a = Some s' -> step json_loads s s'.
Proof.
  destruct a as [|pid data|]; unfold do_action.
  - intros [= <-]. apply step_accept.
  - destruct (Dict.get pid (client_threads s)) as [th|] eqn:G; [|discriminate].
    destruct (alive th) eqn:A; [|discriminate].
    destruct (listener_recv json_loads no_draws pid (RecvData data) th s)
      as [th' s1] eqn:L.
    intros [= <-]. eapply step_recv; eassumption.
  - destruct (running s) eqn:R; [|discriminate].
    destruct (tick s) as [s1|] eqn:T; [|discriminate].
    intros [= <-]. now apply step_tick.
Qed.

Lemma steps_cons json_loads s s1 s' :
  step json_loads s s1 -> steps json_loads s1 s' -> steps json_loads s s'.
Proof.
  intros St Sts. induction Sts as [s1 | s1 s2 s3 _ IH St'].
  - econstructor; [constructor | exact St].
  - econstructor; [exact (IH St) | exact St'].
Qed.

Lemma run_script_steps json_loads acts : forall s s',
  run_script json_loads acts s = Some s' -> steps json_loads s s'.
Proof.
  induction acts as [|a acts IH]; simpl; intros s s'.
  - intros [= <-]. constructor.
  - destruct (do_action json_loads s a) as [s1|] eqn:D; [|discriminate].
    intros R. apply (steps_cons json_loads s s1 s').
    + now apply do_action_step with (a := a).
    + now apply IH.
Qed.

Lemma steps_reachable json_loads s s' :
  reachable json_loads s -> steps json_loads s s' -> reachable json_loads s'.
Proof.
  intros R Sts. induction Sts as [|? ? ? _ IH St]; [assumption|].
  econstructor; [exact (IH R) | exact St].
Qed.

Lemma played_reachable acts s :
  run_script loads_frames acts init_server = Some s -> reachable loads_frames s.
Proof.
  intros R. apply (steps_reachable loads_frames init_server); [constructor|].
  now apply (run_script_steps loads_frames acts).
Qed.

(** ** Scenario checks *)

Example two_players_spawn :
  players (game two_players)
  = [(1, Player.mk 1 120 137 "red" false false);
     (2, Player.mk 2 880 174 "blue" false false)].
Proof. reflexivity. Qed.

Example blue_has_red_flag_state :
  players blue_has_red_flag
  = [(1, Player.mk 1 120 137 "red" false false);
     (2, Player.mk 2 52 300 "blue" true false)]
  /\ flags blue_has_red_flag
     = [("red", Flag.mk "red" 50 300 50 300 (Some 2));
        ("blue", Flag.mk "blue" 950 300 950 300 None)].
Proof. split; vm_compute; reflexivity. Qed.

Example red_holds_own_flag_state :
  players red_holds_own_flag
  = [(1, Player.mk 1 948 299 "red" true false);
     (2, Player.mk 2 52 300 "blue" false false)]
  /\ flags red_holds_own_flag
     = [("red", Flag.mk "red" 50 300 948 299 (Some 1));
        ("blue", Flag.mk "blue" 950 300 950 300 None)].
Proof. split; vm_compute; reflexivity. Qed.

Example both_carry_state :
  players both_carry
  = [(1, Player.mk 1 948 299 "red" false true);
     (2, Player.mk 2 52 300 "blue" true false)]
  /\ flags both_carry
     = [("red", Flag.mk "red" 50 300 52 300 (Some 2));
        ("blue", Flag.mk "blue" 950 300 950 300 (Some 1))].
Proof. split; vm_compute; reflexivity. Qed.

Lemma blue_has_red_flag_reachable : reachable loads_frames blue_has_red_flag_server.
Proof. apply (played_reachable blue_has_red_flag_script). vm_compute. reflexivity. Qed.

Lemma red_holds_own_flag_reachable : reachable loads_frames red_holds_own_flag_server.
Proof. apply (played_reachable red_holds_own_flag_script). vm_compute. reflexivity. Qed.

Lemma both_carry_reachable : reachable loads_frames both_carry_server.
Proof. apply (played_reachable both_carry_script). vm_compute. reflexivity. Qed.

Lemma both_head_home_reachable : reachable loads_frames both_head_home.
Proof. apply (played_reachable both_head_home_script). vm_compute. reflexivity. Qed.

Example tick_checks_score_on_both_in_base :
  tick both_head_home
  = bind (check_score both_in_base) (fun s => Ok (broadcast (serialize s) s)).
Proof. vm_compute. reflexivity. Qed.

Example both_in_base_state :
  players (game both_in_base)
  = [(1, Player.mk 1 48 299 "red" false true);
     (2, Player.mk 2 952 300 "blue" true false)]
  /\ flags (game both_in_base)
     = [("red", Flag.mk "red" 50 300 952 300 (Some 2));
        ("blue", Flag.mk "blue" 950 300 48 299 (Some 1))].
Proof. split; vm_compute; reflexivity. Qed.

(** ** Pickup *)

Lemma game_eta g :
  mkGame (players g) (flags g) (scores g) (map_width g) (map_height g) = g.
Proof. now destruct g. Qed.

Lemma wf_team_cases p :
  wf_team p ->
  (Player.team p = "red" /\ opposing (Player.team p) = "blue")
  \/ (Player.team p = "blue" /\ opposing (Player.team p) = "red").
Proof. intros [E|E]; rewrite E; [left|right]; split; reflexivity. Qed.

Lemma pickup_flag_own pid player flag :
  Flag.team flag = Player.team player ->
  pickup_flag pid player flag = (player, flag).
Proof. intros E. unfold pickup_flag. rewrite E, String.eqb_refl. reflexivity. Qed.

Lemma pickup_flag_other pid player flag :
  Flag.team flag <> Player.team player ->
  pickup_flag pid player flag
  = if pickup_ok player flag
    then (carry_only (Flag.team flag) player, Flag.set_carrier (Some pid) flag)
    else (player, flag).
Proof.
  intros N. unfold pickup_flag, pickup_ok.
  apply String.eqb_neq in N. rewrite N.
  destruct (Flag.carrier flag); [reflexivity|].
  destruct (dist2 _ _ _ _ <=? _); [|reflexivity].
  unfold carry_only. simpl. destruct (String.eqb (Flag.team flag) "red"); reflexivity.
Qed.

(** On the initial flag table the loop of [attempt_pickup] touches the
    opposing flag only, and only when both tests pass. *)
Lemma attempt_pickup_eq g pid player flag :
  wf_flags g -> wf_team player ->
  Dict.get pid (players g) = Some player ->
  Dict.get (opposing (Player.team player)) (flags g) = Some flag ->
  attempt_pickup pid g
  = if pickup_ok player flag
    then set_flags (Dict.set (opposing (Player.team player))
                             (Flag.set_carrier (Some pid) flag) (flags g))
           (set_players (Dict.set pid (carry_only (opposing (Player.team player)) player)
                                  (players g)) g)
    else g.
Proof.
  intros (fr & fb & Fs & Tr & Tb) WT G GF.
  unfold attempt_pickup. rewrite G, Fs. rewrite Fs in GF.
  assert (Unchanged : set_flags [("red", fr); ("blue", fb)]
                        (set_players (Dict.set pid player (players g)) g) = g).
  { rewrite (set_get_id _ _ _ G). unfold set_flags, set_players; simpl.
    rewrite <- Fs. apply game_eta. }
  destruct (wf_team_cases player WT) as [[T O]|[T O]]; rewrite O in *;
    simpl in GF; injection GF as <-; cbn [pickup_loop].
  - rewrite (pickup_flag_own pid player fr) by congruence.
    rewrite (pickup_flag_other pid player fb) by congruence.
    destruct (pickup_ok player fb); [|exact Unchanged].
    rewrite Tb. reflexivity.
  - rewrite (pickup_flag_other pid player fr) by congruence.
    destruct (pickup_ok player fr).
    + rewrite (pickup_flag_own pid _ fb) by (simpl; congruence).
      rewrite Tr. reflexivity.
    + rewrite (pickup_flag_own pid player fb) by congruence. exact Unchanged.
Qed.

Lemma wf_flags_get g t :
  wf_flags g -> t = "red" \/ t = "blue" ->
  exists f, Dict.get t (flags g) = Some f /\ Flag.team f = t.
Proof.
  intros (fr & fb & Fs & Tr & Tb) [-> | ->]; rewrite Fs; simpl; eauto.
Qed.

(** C3. For a connected requester the pickup of the opposing flag goes
    through exactly when the flag has no carrier and the squared distance
    between requester and flag is at most the squared pickup radius, the
    bound included; then the flag names the requester and the requester's
    indicator for that flag is set.  In every other case the game state is
    the one before, and the call returns without raising. *)
Theorem attempt_pickup_succeeds_iff (g : Game_State) (pid : Z)
        (player : Player.t) (flag : Flag.t) :
  wf_flags g -> wf_team player ->
  Dict.get pid (players g) = Some player ->
  Dict.get (opposing (Player.team player)) (flags g) = Some flag ->
  let near :=
    dist2 (Player.x player) (Player.y player) (Flag.x flag) (Flag.y flag)
    <= PICKUP_RADIUS * PICKUP_RADIUS in
  let g' := attempt_pickup pid g in
  (Flag.carrier flag = None /\ near ->
   exists player' flag',
     Dict.get pid (players g') = Some player'
     /\ Dict.get (opposing (Player.team player)) (flags g') = Some flag'
     /\ Flag.carrier flag' = Some pid
     /\ carries player' (opposing (Player.team player)) = true
     /\ Flag.x flag' = Flag.x flag /\ Flag.y flag' = Flag.y flag)
  /\ (~ (Flag.carrier flag = None /\ near) -> g' = g).
Proof.
  intros WF WT G GF near g'. subst g'.
  rewrite (attempt_pickup_eq g pid player flag WF WT G GF).
  unfold pickup_ok. split.
  - intros [C N]. rewrite C.
    apply Z.leb_le in N. unfold near in N. rewrite N.
    exists (carry_only (opposing (Player.team player)) player).
    exists (Flag.set_carrier (Some pid) flag). simpl.
    rewrite !get_set_eq. repeat split.
    destruct (wf_team_cases player WT) as [[_ ->]|[_ ->]]; reflexivity.
  - intros NK. destruct (Flag.carrier flag) eqn:C; [reflexivity|].
    destruct (dist2 _ _ _ _ <=? _) eqn:L; [|reflexivity].
    exfalso. apply NK. split; [reflexivity|]. now apply Z.leb_le.
Qed.

(** At squared distance exactly 900 the pickup goes through. *)
Lemma attempt_pickup_succeeds_iff_witness :
  let g := on_pickup_boundary in
  let player := Player.mk 2 80 300 "blue" false false in
  let flag := Flag.mk "red" 50 300 50 300 None in
  dist2 80 300 50 300 = PICKUP_RADIUS * PICKUP_RADIUS
  /\ ((Flag.carrier flag = None
       /\ dist2 (Player.x player) (Player.y player) (Flag.x flag) (Flag.y flag)
          <= PICKUP_RADIUS * PICKUP_RADIUS ->
       exists player' flag',
         Dict.get 2 (players (attempt_pickup 2 g)) = Some player'
         /\ Dict.get (opposing (Player.team player)) (flags (attempt_pickup 2 g))
            = Some flag'
         /\ Flag.carrier flag' = Some 2
         /\ carries player' (opposing (Player.team player)) = true
         /\ Flag.x flag' = Flag.x flag /\ Flag.y flag' = Flag.y flag)
      /\ (~ (Flag.carrier flag = None
             /\ dist2 (Player.x player) (Player.y player) (Flag.x flag) (Flag.y flag)
                <= PICKUP_RADIUS * PICKUP_RADIUS) ->
          attempt_pickup 2 g = g)).
Proof.
  split; [reflexivity|].
  apply (attempt_pickup_succeeds_iff on_pickup_boundary 2
           (Player.mk 2 80 300 "blue" false false)
           (Flag.mk "red" 50 300 50 300 None)).
  - exists (Flag.mk "red" 50 300 50 300 None), (Flag.mk "blue" 950 300 950 300 None).
    repeat split; reflexivity.
  - right; reflexivity.
  - reflexivity.
  - reflexivity.
Defined.

Example pickup_on_boundary_runs :
  attempt_pickup 2 on_pickup_boundary
  = mkGame [(2, Player.mk 2 80 300 "blue" true false)]
           [("red", Flag.mk "red" 50 300 50 300 (Some 2));
            ("blue", Flag.mk "blue" 950 300 950 300 None)]
           [("red", 0); ("blue", 0)] 1000 600.
Proof. reflexivity. Qed.

Example pickup_beyond_boundary_fails :
  let g := mkGame [(2, Player.mk 2 81 300 "blue" false false)]
                  (flags init_game) (scores init_game) MAP_WIDTH MAP_HEIGHT in
  attempt_pickup 2 g = g.
Proof. reflexivity. Qed.

(** A pickup first clears both indicators of the requester.  With a
    player of a third team, which [accept] never creates and which is the
    only kind of player that has two opposing flags, the blue indicator set
    before is gone after the red flag is picked up, while the blue flag
    still names the player.  On the state reached by play, player 1 holds
    the red flag after a steal and loses that indicator when it picks the
    blue flag up. *)
Example pickup_clears_earlier_indicator :
  (Dict.get 3 (players third_team_carrier) = Some (Player.mk 3 52 300 "green" false true)
   /\ pickup_loop 3 (Player.mk 3 52 300 "green" false true) (flags third_team_carrier)
      = (Player.mk 3 52 300 "green" true false,
         [("red", Flag.mk "red" 50 300 50 300 (Some 3));
          ("blue", Flag.mk "blue" 950 300 52 300 (Some 3))])
   /\ Dict.get 3 (players (attempt_pickup 3 third_team_carrier))
      = Some (Player.mk 3 52 300 "green" true false))
  /\ (reachable loads_frames red_holds_own_flag_server
      /\ game red_holds_own_flag_server = red_holds_own_flag
      /\ Dict.get 1 (players red_holds_own_flag)
         = Some (Player.mk 1 948 299 "red" true false)
      /\ Dict.get 1 (players (attempt_pickup 1 red_holds_own_flag))
         = Some (Player.mk 1 948 299 "red" false true)
      /\ Dict.get "blue" (flags (attempt_pickup 1 red_holds_own_flag))
         = Some (Flag.mk "blue" 950 300 950 300 (Some 1))).
Proof.
  split; [repeat split; vm_compute; reflexivity|].
  split; [exact red_holds_own_flag_reachable|].
  repeat split; vm_compute; reflexivity.
Qed.

(** The indicators after a successful pickup, as the code leaves them:
    the one for the flag just picked up is set and the one for every other
    flag is clear, whatever it was before. *)
Lemma attempt_pickup_carries_only_new (g : Game_State) (pid : Z)
        (player : Player.t) (flag : Flag.t) :
  wf_flags g -> wf_team player ->
  Dict.get pid (players g) = Some player ->
  Dict.get (opposing (Player.team player)) (flags g) = Some flag ->
  pickup_ok player flag = true ->
  exists player',
    Dict.get pid (players (attempt_pickup pid g)) = Some player'
    /\ carries player' (opposing (Player.team player)) = true
    /\ forall t, t <> opposing (Player.team player) -> carries player' t = false.
Proof.
  intros WF WT G GF OK.
  rewrite (attempt_pickup_eq g pid player flag WF WT G GF), OK. simpl.
  rewrite get_set_eq. eexists; split; [reflexivity|].
  destruct (wf_team_cases player WT) as [[_ ->]|[_ ->]]; split; try reflexivity;
    intros t N; unfold carries, carry_only; simpl;
    destruct (String.eqb t "red") eqn:R; try reflexivity;
    destruct (String.eqb t "blue") eqn:B; try reflexivity;
    try (apply String.eqb_eq in R); try (apply String.eqb_eq in B); congruence.
Qed.

(** Player 1, holding the red flag, picks the blue one up. *)
Lemma attempt_pickup_carries_only_new_witness :
  exists player',
    Dict.get 1 (players (attempt_pickup 1 red_holds_own_flag)) = Some player'
    /\ carries player' (opposing "red") = true
    /\ forall t, t <> opposing "red" -> carries player' t = false.
Proof.
  apply (attempt_pickup_carries_only_new red_holds_own_flag 1
           (Player.mk 1 948 299 "red" true false)
           (Flag.mk "blue" 950 300 950 300 None)).
  - exists (Flag.mk "red" 50 300 948 299 (Some 1)), (Flag.mk "blue" 950 300 950 300 None).
    repeat split; vm_compute; reflexivity.
  - left; reflexivity.
  - vm_compute; reflexivity.
  - vm_compute; reflexivity.
  - vm_compute; reflexivity.
Defined.

(** ** Steal *)

Lemma wf_flags_key g t f :
  wf_flags g -> Dict.get t (flags g) = Some f -> t = "red" \/ t = "blue".
Proof.
  intros (fr & fb & Fs & _) G. rewrite Fs in G. simpl in G.
  destruct (String.eqb t "red") eqn:R; [left; now apply String.eqb_eq|].
  destruct (String.eqb t "blue") eqn:B; [right; now apply String.eqb_eq|].
  discriminate.
Qed.

Lemma steal_guard_carries t defender :
  t = "red" \/ t = "blue" ->
  (String.eqb t "red" && negb (Player.red defender))
  || (String.eqb t "blue" && negb (Player.blue defender))
  = negb (carries defender t).
Proof.
  intros [-> | ->]; unfold carries; simpl.
  - now rewrite orb_false_r.
  - reflexivity.
Qed.

Lemma draw_below_threshold draw :
  Qle_bool STEAL_CHANCE draw = false <-> (draw < STEAL_CHANCE)%Q.
Proof.
  split.
  - intros E. apply Qnot_le_lt. intros L. apply Qle_bool_iff in L. congruence.
  - intros L. destruct (Qle_bool STEAL_CHANCE draw) eqn:E; [|reflexivity].
    apply Qle_bool_iff in E. exfalso. exact (Qlt_not_le _ _ L E).
Qed.

(** What [attempt_steal] computes once the flag and both players are
    found. *)
Lemma attempt_steal_eq g draw a d t attacker defender flag :
  wf_flags g ->
  Dict.get t (flags g) = Some flag ->
  Dict.get a (players g) = Some attacker ->
  Dict.get d (players g) = Some defender ->
  attempt_steal draw a d t g
  = if negb (carries defender t) then g
    else if String.eqb (Player.team attacker) (Player.team defender) then g
    else if Qle_bool STEAL_CHANCE draw then g
    else
      let attacker' :=
        Player.mk (Player.pid attacker) (Player.x attacker) (Player.y attacker)
                  (Player.team attacker) (String.eqb t "red") (String.eqb t "blue") in
      set_flags
        (Dict.set t (Flag.mk (Flag.team flag) (Flag.spawn_x flag) (Flag.spawn_y flag)
                             (Player.x attacker) (Player.y attacker)
                             (Some (Player.pid attacker))) (flags g))
        (set_players (Dict.set a attacker' (Dict.set d (clear_carry defender) (players g)))
                     g).
Proof.
  intros WF GF GA GD. unfold attempt_steal. rewrite GF, GA, GD.
  rewrite (steal_guard_carries t defender (wf_flags_key g t flag WF GF)).
  reflexivity.
Qed.

(** C2, as stated, fails: the server makes no distance test on a steal.
    Player 1 stands at its spawn (120, 137), player 2 carries the red flag
    at (52, 300), far beyond the pickup radius, and the steal goes
    through. *)
Lemma steal_ignores_distance :
  reachable loads_frames blue_has_red_flag_server
  /\ game blue_has_red_flag_server = blue_has_red_flag
  /\ Dict.get 1 (players blue_has_red_flag) = Some (Player.mk 1 120 137 "red" false false)
  /\ Dict.get 2 (players blue_has_red_flag) = Some (Player.mk 2 52 300 "blue" true false)
  /\ PICKUP_RADIUS * PICKUP_RADIUS < dist2 120 137 52 300
  /\ players (attempt_steal 0 1 2 "red" blue_has_red_flag)
     = [(1, Player.mk 1 120 137 "red" true false);
        (2, Player.mk 2 52 300 "blue" false false)]
  /\ flags (attempt_steal 0 1 2 "red" blue_has_red_flag)
     = [("red", Flag.mk "red" 50 300 120 137 (Some 1));
        ("blue", Flag.mk "blue" 950 300 950 300 None)].
Proof.
  split; [exact blue_has_red_flag_reachable|].
  repeat split; vm_compute; reflexivity.
Qed.

(** C2, amended.  A steal goes through exactly when the named flag exists,
    attacker and defender are connected, the defender's indicator for the
    flag is set, the two teams differ and the draw is below the threshold;
    the distance between the two players plays no part.  Then the
    attacker's indicator for the flag is set, the defender's is clear, the
    flag names the attacker and lies at the attacker's position.  In every
    other case the game state is the one before. *)
Theorem attempt_steal_succeeds_iff (g : Game_State) (draw : Q)
        (attacker_pid defender_pid : Z) (flag_team : string) :
  wf_flags g -> wf_pids g ->
  let g' := attempt_steal draw attacker_pid defender_pid flag_team g in
  (steal_conditions draw attacker_pid defender_pid flag_team g ->
   exists attacker attacker' defender' flag',
     Dict.get attacker_pid (players g) = Some attacker
     /\ Dict.get attacker_pid (players g') = Some attacker'
     /\ Dict.get defender_pid (players g') = Some defender'
     /\ Dict.get flag_team (flags g') = Some flag'
     /\ carries attacker' flag_team = true
     /\ carries defender' flag_team = false
     /\ Flag.carrier flag' = Some attacker_pid
     /\ Flag.x flag' = Player.x attacker /\ Flag.y flag' = Player.y attacker)
  /\ (~ steal_conditions draw attacker_pid defender_pid flag_team g -> g' = g).
Proof.
  intros WF WP g'. subst g'. split.
  - intros (attacker & defender & flag & GF & GA & GD & C & T & D).
    rewrite (attempt_steal_eq g draw _ _ _ attacker defender flag WF GF GA GD).
    rewrite C. simpl negb. cbv iota.
    apply String.eqb_neq in T. rewrite T.
    apply draw_below_threshold in D. rewrite D.
    assert (attacker_pid <> defender_pid) as NE.
    { intros ->. rewrite GA in GD. injection GD as ->.
      now rewrite String.eqb_refl in T. }
    exists attacker. do 3 eexists. cbn [players flags set_flags set_players].
    rewrite get_set_eq, (get_set_neq attacker_pid defender_pid) by assumption.
    rewrite !get_set_eq.
    split; [assumption|]. do 3 (split; [reflexivity|]).
    rewrite (WP _ _ GA).
    destruct (wf_flags_key g flag_team flag WF GF) as [-> | ->];
      unfold carries, clear_carry; simpl; repeat split; reflexivity.
  - intros NC. unfold attempt_steal.
    destruct (Dict.get flag_team (flags g)) as [flag|] eqn:GF; [|reflexivity].
    destruct (Dict.get attacker_pid (players g)) as [attacker|] eqn:GA; [|reflexivity].
    destruct (Dict.get defender_pid (players g)) as [defender|] eqn:GD; [|reflexivity].
    rewrite (steal_guard_carries flag_team defender (wf_flags_key g flag_team flag WF GF)).
    destruct (carries defender flag_team) eqn:C; [|reflexivity]. simpl.
    destruct (String.eqb (Player.team attacker) (Player.team defender)) eqn:T;
      [reflexivity|].
    destruct (Qle_bool STEAL_CHANCE draw) eqn:D; [reflexivity|].
    exfalso. apply NC. exists attacker, defender, flag.
    repeat split; try assumption.
    + now apply String.eqb_neq.
    + now apply draw_below_threshold.
Qed.

(** ** Carrier consistency *)

Lemma carrier_consistentb_spec g :
  carrier_consistentb g = true <-> carrier_consistent g.
Proof.
  unfold carrier_consistentb, carrier_consistent. rewrite forallb_forall. split.
  - intros Hb t f I pid. specialize (Hb (t, f) I). simpl in Hb.
    apply andb_true_iff in Hb as [H1 H2]. rewrite forallb_forall in H2. split.
    + intros C. rewrite C in H1.
      destruct (Dict.get pid (players g)) as [p|]; [eauto | discriminate].
    + intros (p & G & C).
      assert (In pid (Dict.keys (players g))) as K.
      { change pid with (fst (pid, p)). apply in_map. now apply get_In. }
      specialize (H2 pid K). rewrite G, C in H2. simpl in H2.
      destruct (Flag.carrier f) as [c|]; [|discriminate].
      apply Z.eqb_eq in H2. now subst.
  - intros Hc [t f] I. simpl. specialize (Hc t f I).
    apply andb_true_iff. split.
    + destruct (Flag.carrier f) as [c|] eqn:C; [|reflexivity].
      destruct (proj1 (Hc c) eq_refl) as (p & G & Cp). now rewrite G.
    + apply forallb_forall. intros k _.
      destruct (Dict.get k (players g)) as [p|] eqn:G; [|reflexivity].
      destruct (carries p (Flag.team f)) eqn:Cp; [|reflexivity]. simpl.
      rewrite (proj2 (Hc k)) by eauto. apply Z.eqb_refl.
Qed.

Lemma wf_pidsb_sound g : wf_pidsb g = true -> wf_pids g.
Proof.
  unfold wf_pidsb, wf_pids. rewrite forallb_forall. intros Hb k p G.
  apply get_In in G. specialize (Hb _ G). simpl in Hb.
  apply Z.eqb_eq in Hb. auto.
Qed.

(** C1, at the failing inputs.  Both states below are carrier consistent.
    In the first, player 1 holds the red flag it stole and stands at the free
    blue flag: its pickup clears the red indicator and leaves the red flag
    naming player 1.  In the second, player 2 carries the red flag and
    player 1 the blue one: when player 2 steals the blue flag its red
    indicator is cleared and the red flag still names player 2. *)
Theorem pickup_and_steal_break_carrier_consistency :
  (reachable loads_frames red_holds_own_flag_server
   /\ game red_holds_own_flag_server = red_holds_own_flag
   /\ carrier_consistent red_holds_own_flag
   /\ ~ carrier_consistent (attempt_pickup 1 red_holds_own_flag)
   /\ players (attempt_pickup 1 red_holds_own_flag)
      = [(1, Player.mk 1 948 299 "red" false true);
         (2, Player.mk 2 52 300 "blue" false false)]
   /\ flags (attempt_pickup 1 red_holds_own_flag)
      = [("red", Flag.mk "red" 50 300 948 299 (Some 1));
         ("blue", Flag.mk "blue" 950 300 950 300 (Some 1))])
  /\ (reachable loads_frames both_carry_server
      /\ game both_carry_server = both_carry
      /\ carrier_consistent both_carry
      /\ ~ carrier_consistent (attempt_steal 0 2 1 "blue" both_carry)
      /\ players (attempt_steal 0 2 1 "blue" both_carry)
         = [(1, Player.mk 1 948 299 "red" false false);
            (2, Player.mk 2 52 300 "blue" false true)]
      /\ flags (attempt_steal 0 2 1 "blue" both_carry)
         = [("red", Flag.mk "red" 50 300 52 300 (Some 2));
            ("blue", Flag.mk "blue" 950 300 52 300 (Some 2))]).
Proof.
  split;
    (split; [first [exact red_holds_own_flag_reachable | exact both_carry_reachable]|]);
    (split; [reflexivity|]);
    (split; [apply carrier_consistentb_spec; vm_compute; reflexivity|]);
    (split; [intros H; apply carrier_consistentb_spec in H; vm_compute in H;
             discriminate|]);
    split; vm_compute; reflexivity.
Qed.

(** In the state the pickup leaves, the red flag is out of play: every
    pickup is refused because both flags name a carrier, and every steal of
    the red flag is refused because no player has the red indicator. *)
Example red_flag_orphaned_is_stuck :
  red_flag_orphaned = attempt_pickup 1 red_holds_own_flag
  /\ (forall pid, attempt_pickup pid red_flag_orphaned = red_flag_orphaned)
  /\ (forall draw a d, attempt_steal draw a d "red" red_flag_orphaned = red_flag_orphaned).
Proof.
  split; [vm_compute; reflexivity|]. split.
  - intros pid. unfold attempt_pickup.
    destruct (Dict.get pid (players red_flag_orphaned)) as [p|] eqn:G; [|reflexivity].
    unfold red_flag_orphaned at 1. cbn [flags pickup_loop].
    unfold pickup_flag. cbn [Flag.team Flag.carrier].
    destruct (String.eqb "red" (Player.team p)), (String.eqb "blue" (Player.team p));
      rewrite (set_get_id _ _ _ G); reflexivity.
  - intros draw a d. unfold attempt_steal.
    assert (Dict.get "red" (flags red_flag_orphaned)
            = Some (Flag.mk "red" 50 300 948 299 (Some 1))) as -> by reflexivity.
    destruct (Dict.get a (players red_flag_orphaned)) as [pa|]; [|reflexivity].
    destruct (Dict.get d (players red_flag_orphaned)) as [pd|] eqn:G; [|reflexivity].
    apply get_In in G. simpl in G.
    destruct G as [[= _ <-]|[[= _ <-]|[]]]; reflexivity.
Qed.

(** Player 1 steals the red flag from player 2 across the map. *)
Lemma attempt_steal_succeeds_iff_witness :
  wf_flags blue_has_red_flag /\ wf_pids blue_has_red_flag
  /\ steal_conditions 0 1 2 "red" blue_has_red_flag
  /\ exists flag',
      Dict.get "red" (flags (attempt_steal 0 1 2 "red" blue_has_red_flag)) = Some flag'
      /\ Flag.carrier flag' = Some 1.
Proof.
  assert (wf_flags blue_has_red_flag) as WF.
  { exists (Flag.mk "red" 50 300 50 300 (Some 2)), (Flag.mk "blue" 950 300 950 300 None).
    repeat split; vm_compute; reflexivity. }
  assert (wf_pids blue_has_red_flag) as WP.
  { apply wf_pidsb_sound. vm_compute. reflexivity. }
  assert (steal_conditions 0 1 2 "red" blue_has_red_flag) as SC.
  { exists (Player.mk 1 120 137 "red" false false),
           (Player.mk 2 52 300 "blue" true false),
           (Flag.mk "red" 50 300 50 300 (Some 2)).
    repeat split; try (vm_compute; reflexivity). discriminate. }
  repeat split; try assumption.
  destruct (attempt_steal_succeeds_iff blue_has_red_flag 0 1 2 "red" WF WP) as [S _].
  destruct (S SC) as (_ & _ & _ & flag' & _ & _ & _ & G & _ & _ & C & _).
  exists flag'. split; assumption.
Defined.

(** The threshold itself.  A draw equal to the double [0.35] is not below
    it, and the steal is refused; the largest double [random.random()] can
    return below it, one step of 2^-53 less, lets the steal through.  Both
    draws are smaller than 35/100. *)
Example steal_at_the_threshold :
  (STEAL_CHANCE < 35 # 100)%Q
  /\ attempt_steal STEAL_CHANCE 1 2 "red" blue_has_red_flag = blue_has_red_flag
  /\ Dict.get "red" (flags (attempt_steal (3152519739159346 # 9007199254740992) 1 2 "red"
                                          blue_has_red_flag))
     = Some (Flag.mk "red" 50 300 120 137 (Some 1)).
Proof. repeat split; vm_compute; reflexivity. Qed.

(** ** Scoring *)

Lemma base_flag_cases player : base_flag player = "red" \/ base_flag player = "blue".
Proof. unfold base_flag. destruct (String.eqb _ _); auto. Qed.

Lemma subscript_base g player :
  wf_flags g ->
  exists base, Dict.get (base_flag player) (flags g) = Some base.
Proof.
  intros WF. destruct (wf_flags_get g _ WF (base_flag_cases player)) as (f & G & _). eauto.
Qed.

Lemma check_score_loop_skip s items rest :
  wf_flags (game s) ->
  (forall kp, In kp items -> eligible (game s) (snd kp) = false) ->
  check_score_loop (items ++ rest) s = check_score_loop rest s.
Proof.
  intros WF. induction items as [|[k p] items IH]; intros NE; simpl; [reflexivity|].
  pose proof (NE (k, p) (or_introl eq_refl)) as E. unfold eligible in E. simpl in E.
  assert (IH' := IH (fun kp I => NE kp (or_intror I))).
  destruct (carried_flags p); [exact IH'|].
  destruct (subscript_base (game s) p WF) as (base & G).
  unfold subscript. rewrite G in *. simpl. rewrite E. exact IH'.
Qed.

Lemma check_score_loop_hit s pid player rest :
  eligible (game s) player = true ->
  check_score_loop ((pid, player) :: rest) s = score_event player s.
Proof.
  unfold eligible. simpl. destruct (carried_flags player); [discriminate|].
  unfold subscript. destruct (Dict.get _ _); [|discriminate].
  simpl. now intros ->.
Qed.

Lemma score_event_game player s sc :
  Dict.get (Player.team player) (scores (game s)) = Some sc ->
  exists s', score_event player s = Ok s'
             /\ game s' = scored player sc (game s)
             /\ next_player_id s' = next_player_id s
             /\ input_queues s' = input_queues s
             /\ client_threads s' = client_threads s
             /\ client_sockets s' = client_sockets s.
Proof.
  intros G. unfold score_event, subscript. rewrite G. simpl.
  destruct (SCORE_TO_WIN <=? _); eexists; repeat split.
Qed.

Lemma scored_all_flags_home player sc g : all_flags_home (scored player sc g).
Proof.
  intros t f I. simpl in I. unfold reset_all_flags in I.
  apply in_map_iff in I as ([t0 f0] & [= <- <-] & _). simpl. auto.
Qed.

Lemma scored_nobody_carries player sc g : nobody_carries (scored player sc g).
Proof.
  intros k p I. simpl in I. unfold clear_all_players in I.
  apply in_map_iff in I as ([k0 p0] & [= <- <-] & _). simpl. auto.
Qed.

Lemma check_score_first s before pid player after :
  wf_flags (game s) ->
  players (game s) = (before ++ (pid, player) :: after)%list ->
  (forall kp, In kp before -> eligible (game s) (snd kp) = false) ->
  eligible (game s) player = true ->
  check_score s = score_event player s.
Proof.
  intros WF P NE E. unfold check_score. rewrite P.
  rewrite check_score_loop_skip by assumption.
  now apply check_score_loop_hit.
Qed.

Lemma check_score_nobody s :
  wf_flags (game s) ->
  (forall kp, In kp (players (game s)) -> eligible (game s) (snd kp) = false) ->
  check_score s = Ok s.
Proof.
  intros WF NE. unfold check_score.
  rewrite <- (app_nil_r (players (game s))).
  now rewrite check_score_loop_skip.
Qed.

(** C5, as stated, fails.  Player 2 carries one opposing flag and stands
    inside its own base, yet the evaluation leaves the blue score at 0:
    player 1, earlier in iteration order, meets the conditions as well and
    is the one that scores. *)
Lemma second_carrier_in_base_does_not_score :
  reachable loads_frames both_head_home
  /\ tick both_head_home
     = bind (check_score both_in_base) (fun s => Ok (broadcast (serialize s) s))
  /\ Dict.get 2 (players (game both_in_base)) = Some (Player.mk 2 952 300 "blue" true false)
  /\ carried_flags (Player.mk 2 952 300 "blue" true false) = ["red"]
  /\ Dict.get "blue" (flags (game both_in_base))
     = Some (Flag.mk "blue" 950 300 48 299 (Some 1))
  /\ dist2 952 300 950 300 <= BASE_RADIUS * BASE_RADIUS
  /\ Dict.get "blue" (scores (game both_in_base)) = Some 0
  /\ exists s', check_score both_in_base = Ok s'
                /\ scores (game s') = [("red", 1); ("blue", 0)].
Proof.
  split; [exact both_head_home_reachable|].
  repeat split; try (vm_compute; reflexivity).
  - vm_compute. discriminate.
  - eexists. split; vm_compute; reflexivity.
Qed.

(** C5, amended.  The first player in iteration order that carries N
    opposing flags (N = 1 or N = 2) and stands within the base radius of its
    own spawn point raises its team's score by exactly N in one evaluation;
    afterwards every flag has no carrier and lies at its spawn position, and
    no player has an indicator set.  That is the whole effect on the scores:
    they are the scores before with this one entry replaced, so a player
    later in iteration order does not score in this evaluation, whether or
    not it meets the conditions too, and no other team's score changes. *)
Theorem check_score_first_carrier_scores (s : Server) (before after : list (Z * Player.t))
        (pid : Z) (player : Player.t) (base : Flag.t) (sc : Z) :
  wf_flags (game s) ->
  players (game s) = (before ++ (pid, player) :: after)%list ->
  (forall kp, In kp before -> eligible (game s) (snd kp) = false) ->
  carried_flags player <> [] ->
  Dict.get (base_flag player) (flags (game s)) = Some base ->
  dist2 (Player.x player) (Player.y player) (Flag.spawn_x base) (Flag.spawn_y base)
  <= BASE_RADIUS * BASE_RADIUS ->
  Dict.get (Player.team player) (scores (game s)) = Some sc ->
  let N := Z.of_nat (List.length (carried_flags player)) in
  (N = 1 \/ N = 2)
  /\ exists s',
      check_score s = Ok s'
      /\ Dict.get (Player.team player) (scores (game s')) = Some (sc + N)
      /\ all_flags_home (game s')
      /\ nobody_carries (game s')
      /\ scores (game s') = Dict.set (Player.team player) (sc + N) (scores (game s))
      /\ (forall t, t <> Player.team player ->
             Dict.get t (scores (game s')) = Dict.get t (scores (game s)))
      /\ (forall k later,
             In (k, later) after ->
             (Player.team later <> Player.team player ->
              Dict.get (Player.team later) (scores (game s'))
              = Dict.get (Player.team later) (scores (game s)))
             /\ (Player.team later = Player.team player ->
                 Dict.get (Player.team later) (scores (game s')) = Some (sc + N))).
Proof.
  intros WF P NE CF GB D GS N. split.
  - subst N. unfold carried_flags in *.
    destruct (Player.red player && _), (Player.blue player && _); simpl in *;
      auto; congruence.
  - assert (eligible (game s) player = true) as E.
    { unfold eligible. destruct (carried_flags player); [congruence|].
      rewrite GB. unfold in_base. now apply Z.leb_le. }
    rewrite (check_score_first s before pid player after WF P NE E).
    destruct (score_event_game player s sc GS) as (s' & -> & G' & _).
    exists s'. split; [reflexivity|]. rewrite G'.
    assert (forall t, t <> Player.team player ->
              Dict.get t (scores (scored player sc (game s)))
              = Dict.get t (scores (game s))) as Other
      by (intros t Nt; simpl; apply get_set_neq; congruence).
    split; [simpl; apply get_set_eq|].
    split; [apply scored_all_flags_home|].
    split; [apply scored_nobody_carries|].
    split; [reflexivity|]. split; [exact Other|].
    intros k later _. split.
    + intros Nt. now apply Other.
    + intros ->. simpl. apply get_set_eq.
Qed.

Lemma wf_flags_both_in_base : wf_flags (game both_in_base).
Proof.
  exists (Flag.mk "red" 50 300 952 300 (Some 2)), (Flag.mk "blue" 950 300 48 299 (Some 1)).
  repeat split; vm_compute; reflexivity.
Qed.

(** Player 1 is first in iteration order and scores one point; player 2,
    later in iteration order and in its own base with the red flag, does
    not: the blue score stays what it was. *)
Lemma check_score_first_carrier_scores_witness :
  exists s',
    check_score both_in_base = Ok s'
    /\ Dict.get "red" (scores (game s')) = Some (0 + 1)
    /\ all_flags_home (game s')
    /\ nobody_carries (game s')
    /\ eligible (game both_in_base) (Player.mk 2 952 300 "blue" true false) = true
    /\ Dict.get "blue" (scores (game s')) = Dict.get "blue" (scores (game both_in_base)).
Proof.
  destruct (check_score_first_carrier_scores both_in_base []
           [(2, Player.mk 2 952 300 "blue" true false)] 1
           (Player.mk 1 48 299 "red" false true)
           (Flag.mk "red" 50 300 952 300 (Some 2)) 0) as (_ & s' & E & Sc & Home & No & _ & _ & Later).
  - exact wf_flags_both_in_base.
  - vm_compute; reflexivity.
  - intros kp [].
  - vm_compute; discriminate.
  - vm_compute; reflexivity.
  - vm_compute; discriminate.
  - vm_compute; reflexivity.
  - exists s'. split; [exact E|]. split; [exact Sc|]. split; [exact Home|].
    split; [exact No|]. split; [vm_compute; reflexivity|].
    apply (Later 2 (Player.mk 2 952 300 "blue" true false)); [now left|].
    discriminate.
Defined.

Example two_carried_flags_score_two :
  carried_flags (Player.mk 3 940 300 "green" true true) = ["red"; "blue"]
  /\ exists s', check_score third_team_two_flags = Ok s'
                /\ scores (game s') = [("red", 0); ("blue", 0); ("green", 2)]
                /\ players (game s') = [(3, Player.mk 3 940 300 "green" false false)]
                /\ flags (game s')
                   = [("red", Flag.mk "red" 50 300 50 300 None);
                      ("blue", Flag.mk "blue" 950 300 950 300 None)].
Proof.
  split; [reflexivity|]. eexists. repeat split; vm_compute; reflexivity.
Qed.

(** C10. One evaluation applies at most one scoring event.  When no
    player meets the conditions nothing changes.  Otherwise the first
    player in iteration order that meets them scores and the evaluation
    ends there, whatever the players after it carry: that player's team
    gains its count of carried flags, no other team's score changes, and
    the reset leaves no player with an indicator and every flag at home. *)
Theorem check_score_at_most_one_event (s : Server) :
  wf_flags (game s) ->
  ((forall kp, In kp (players (game s)) -> eligible (game s) (snd kp) = false) ->
   check_score s = Ok s)
  /\ (forall before pid player after sc,
         players (game s) = (before ++ (pid, player) :: after)%list ->
         (forall kp, In kp before -> eligible (game s) (snd kp) = false) ->
         eligible (game s) player = true ->
         Dict.get (Player.team player) (scores (game s)) = Some sc ->
         exists s',
           check_score s = Ok s'
           /\ scores (game s')
              = Dict.set (Player.team player)
                         (sc + Z.of_nat (List.length (carried_flags player)))
                         (scores (game s))
           /\ (forall t, t <> Player.team player ->
                  Dict.get t (scores (game s')) = Dict.get t (scores (game s)))
           /\ nobody_carries (game s')
           /\ all_flags_home (game s')).
Proof.
  intros WF. split.
  - now apply check_score_nobody.
  - intros before pid player after sc P NE E GS.
    rewrite (check_score_first s before pid player after WF P NE E).
    destruct (score_event_game player s sc GS) as (s' & -> & G' & _).
    exists s'. split; [reflexivity|]. rewrite G'. split; [reflexivity|].
    split; [|split].
    + intros t N. simpl. apply get_set_neq. congruence.
    + apply scored_nobody_carries.
    + apply scored_all_flags_home.
Qed.

(** Two eligible players of different teams, one scoring event. *)
Lemma check_score_at_most_one_event_witness :
  wf_flags (game both_in_base)
  /\ eligible (game both_in_base) (Player.mk 1 48 299 "red" false true) = true
  /\ eligible (game both_in_base) (Player.mk 2 952 300 "blue" true false) = true
  /\ exists s',
      check_score both_in_base = Ok s'
      /\ scores (game s') = Dict.set "red" (0 + 1) (scores (game both_in_base))
      /\ Dict.get "blue" (scores (game s')) = Dict.get "blue" (scores (game both_in_base))
      /\ nobody_carries (game s').
Proof.
  split; [exact wf_flags_both_in_base|].
  split; [vm_compute; reflexivity|].
  split; [vm_compute; reflexivity|].
  destruct (check_score_at_most_one_event both_in_base wf_flags_both_in_base) as [_ H].
  destruct (H [] 1 (Player.mk 1 48 299 "red" false true)
              [(2, Player.mk 2 952 300 "blue" true false)] 0)
    as (s' & C & S & O & NC & _).
  - vm_compute; reflexivity.
  - intros kp [].
  - vm_compute; reflexivity.
  - vm_compute; reflexivity.
  - exists s'. split; [exact C|]. split; [exact S|]. split; [|exact NC].
    apply O. discriminate.
Defined.

(** Up and down cancel, left moves player 1 from 120 to 114; thirty
    steps to the left end at the wall. *)
Lemma handle_inputs_moves_and_clamps_witness :
  (exists g' p',
      handle_inputs 1 (input_msg true true true false) (game two_players) = Ok g'
      /\ Dict.get 1 (players g') = Some p'
      /\ Player.x p' = 114 /\ Player.y p' = 137)
  /\ (exists p',
         Dict.get 1 (players (walk 1 30 go_left (game two_players))) = Some p'
         /\ in_bounds (game two_players) p').
Proof.
  assert (0 <= map_width (game two_players)) as W by (vm_compute; discriminate).
  assert (0 <= map_height (game two_players)) as H by (vm_compute; discriminate).
  destruct (handle_inputs_moves_and_clamps (game two_players) 1
              (Player.mk 1 120 137 "red" false false) W H eq_refl) as (One & _ & Many).
  split.
  - destruct (One (input_msg true true true false)
                  [("up", JBool true); ("down", JBool true);
                   ("left", JBool true); ("right", JBool false)] eq_refl eq_refl)
      as (g' & p' & E & G & X & Y & _).
    exists g', p'. repeat split; assumption.
  - apply Many. vm_compute. repeat split; discriminate.
Defined.

Example walk_stops_at_the_wall :
  Dict.get 1 (players (walk 1 30 go_left (game two_players)))
  = Some (Player.mk 1 0 137 "red" false false).
Proof. vm_compute; reflexivity. Qed.

(** ** The receive path *)

Section ListenerFacts.
Variable json_loads : string -> result Json.

Lemma handle_lines_app draws pid l1 l2 : forall s,
  handle_lines json_loads draws pid (l1 ++ l2) s
  = match handle_lines json_loads draws pid l1 s with
    | (s1, None) =>
        handle_lines json_loads (fun n => draws (List.length l1 + n)%nat) pid l2 s1
    | (s1, Some e) => (s1, Some e)
    end.
Proof.
  revert draws. induction l1 as [|l l1 IH]; intros draws s; simpl; [reflexivity|].
  destruct (handle_line json_loads (draws O) pid l s) as [s'|e]; [|reflexivity].
  rewrite IH. reflexivity.
Qed.

Lemma handle_line_undecodable draw pid line s e :
  json_loads line = Raise e ->
  handle_line json_loads draw pid line s = Raise e.
Proof. intros E. unfold handle_line. now rewrite E. Qed.

Lemma client_listener_stopped pid reads th s :
  alive th = false ->
  client_listener json_loads pid reads th s = (th, s).
Proof.
  intros A. destruct reads as [|[r d] reads]; simpl; [reflexivity|].
  rewrite A, andb_false_r. unfold stopped. destruct th; simpl in *; now subst.
Qed.

(** C9, amended.  A line that does not decode ends the receive path of
    its connection, exactly as a failed read does: the lines before it in
    the same read stay applied, a disconnect message is put on the
    connection's queue, the thread stops, and neither the lines after it
    nor any later read is handled.  Nothing is logged. *)
Theorem undecodable_line_ends_listener
        (draws : nat -> Q) (pid : Z) (th : Thread) (s s1 : Server)
        (data rem line : string) (before after : list string) (e : exn) :
  data <> EmptyString ->
  split_lines (buffer th ++ data)%string = ((before ++ line :: after)%list, rem) ->
  handle_lines json_loads draws pid before s = (s1, None) ->
  json_loads line = Raise e ->
  listener_recv json_loads draws pid (RecvData data) th s
  = (stopped th, put pid disconnect_msg s1)
  /\ listener_recv json_loads draws pid (RecvData data) th s
     = listener_recv json_loads draws pid RecvError th s1
  /\ forall reads,
      client_listener json_loads pid reads (stopped th) (put pid disconnect_msg s1)
      = (stopped th, put pid disconnect_msg s1).
Proof.
  intros NE SP HB HL.
  assert (listener_recv json_loads draws pid (RecvData data) th s
          = (stopped th, put pid disconnect_msg s1)) as R.
  { unfold listener_recv.
    apply String.eqb_neq in NE. rewrite NE, SP.
    rewrite handle_lines_app, HB. simpl.
    rewrite (handle_line_undecodable _ _ _ _ e HL). reflexivity. }
  split; [exact R|]. split; [exact R|].
  intros reads. now apply client_listener_stopped.
Qed.
End ListenerFacts.

(** C9, as stated, fails.  The listener of player 1 reads the undecodable
    line [oops] and then the line of an empty object.  The first read
    stops the thread and queues a disconnect message; the second read is
    never handled, so the empty object a surviving loop would have queued
    is missing. *)
Lemma undecodable_line_is_not_discarded :
  loads_frames "oops" = Raise JSONDecodeError
  /\ client_listener loads_frames 1
       [(RecvData (with_newline "oops"), no_draws);
        (RecvData (with_newline "{}"), no_draws)]
       (mkThread "" true) two_players
     = (mkThread "" false, put 1 disconnect_msg two_players)
  /\ input_queues (put 1 disconnect_msg two_players)
     = [(1, [disconnect_msg]); (2, [])]
  /\ client_listener loads_frames 1
       [(RecvData (with_newline "{}"), no_draws)]
       (mkThread "" true) two_players
     = (mkThread "" true, put 1 [] two_players).
Proof. repeat split; vm_compute; reflexivity. Qed.

(** One read with an empty object, the line [oops] and another empty
    object: the first is queued, the second never is. *)
Lemma undecodable_line_ends_listener_witness :
  listener_recv loads_frames no_draws 1
    (RecvData (with_newline "{}" ++ with_newline "oops" ++ with_newline "{}")%string)
    (mkThread "" true) two_players
  = (mkThread "" false, put 1 disconnect_msg (put 1 [] two_players)).
Proof.
  refine (proj1 (undecodable_line_ends_listener loads_frames no_draws 1
                   (mkThread "" true) two_players (put 1 [] two_players)
                   (with_newline "{}" ++ with_newline "oops" ++ with_newline "{}")%string
                   "" "oops" ["{}"] ["{}"] JSONDecodeError _ _ _ _)).
  - discriminate.
  - vm_compute; reflexivity.
  - vm_compute; reflexivity.
  - reflexivity.
Defined.

(** ** Well-formed games *)

Section MoreDictLemmas.
Context {K V : Type} `{KeyEqb K}.
Implicit Types (k : K) (v : V) (d : list (K * V)).

Lemma in_set x k v d : In x (Dict.set k v d) -> x = (k, v) \/ In x d.
Proof.
  induction d as [|[k' v'] r IH]; simpl.
  - intros [<-|[]]. now left.
  - destruct (keqb k k') eqn:E; simpl.
    + apply keqb_eq in E. subst k'. intros [<-|I]; auto.
    + intros [<-|I]; auto. destruct (IH I); auto.
Qed.

Lemma in_pop x k d : In x (Dict.pop k d) -> In x d.
Proof. unfold Dict.pop. intros I. now apply filter_In in I. Qed.

Lemma get_set_None k k' v d :
  Dict.get k d <> None -> Dict.get k' d = None -> Dict.get k' (Dict.set k v d) = None.
Proof.
  intros P N. destruct (keqb k k') eqn:E.
  - apply keqb_eq in E. subst. contradiction.
  - apply keqb_neq in E. now rewrite get_set_neq.
Qed.

Lemma get_pop_None k k' d : Dict.get k' d = None -> Dict.get k' (Dict.pop k d) = None.
Proof.
  intros N. destruct (keqb k k') eqn:E.
  - apply keqb_eq in E. subst. apply get_pop_eq.
  - apply keqb_neq in E. now rewrite get_pop_neq.
Qed.
End MoreDictLemmas.

Lemma wf_flags_shape g :
  wf_flags g <-> flag_shape (flags g) = [("red", "red"); ("blue", "blue")].
Proof.
  unfold wf_flags, flag_shape. split.
  - intros (fr & fb & -> & Tr & Tb). simpl. now rewrite Tr, Tb.
  - destruct (flags g) as [|[k1 f1] [|[k2 f2] [|? ?]]]; simpl; try discriminate.
    intros [= -> T1 -> T2]. eauto.
Qed.

Lemma flag_shape_set t f f' fs :
  Dict.get t fs = Some f -> Flag.team f' = Flag.team f ->
  flag_shape (Dict.set t f' fs) = flag_shape fs.
Proof.
  intros G T. induction fs as [|[k f0] r IH]; simpl in *; [discriminate|].
  revert G. destruct (String.eqb t k) eqn:E; simpl; intros G.
  - injection G as ->. now rewrite T.
  - now rewrite IH.
Qed.

Lemma flag_shape_map (h : Flag.t -> Flag.t) fs :
  (forall f, Flag.team (h f) = Flag.team f) ->
  flag_shape (map (fun kf => (fst kf, h (snd kf))) fs) = flag_shape fs.
Proof.
  intros T. unfold flag_shape. rewrite map_map. apply map_ext.
  intros [k f]. simpl. now rewrite T.
Qed.

Lemma pickup_flag_teams pid player flag :
  Player.team (fst (pickup_flag pid player flag)) = Player.team player
  /\ Flag.team (snd (pickup_flag pid player flag)) = Flag.team flag.
Proof.
  unfold pickup_flag.
  destruct (String.eqb _ _); [auto|].
  destruct (Flag.carrier flag); [auto|].
  destruct (_ <=? _); [|auto]. simpl.
  destruct (String.eqb (Flag.team flag) "red"); auto.
Qed.

Lemma pickup_loop_teams pid fs : forall player,
  Player.team (fst (pickup_loop pid player fs)) = Player.team player
  /\ flag_shape (snd (pickup_loop pid player fs)) = flag_shape fs.
Proof.
  induction fs as [|[k f] r IH]; intros player; simpl; [auto|].
  destruct (pickup_flag_teams pid player f) as [T1 T2].
  destruct (pickup_flag pid player f) as [p1 f1]. simpl in *.
  destruct (IH p1) as [T3 T4].
  destruct (pickup_loop pid p1 r) as [p2 r2]. simpl in *.
  split; [congruence|]. now rewrite T2, T4.
Qed.

Lemma wf_teams_set g k p :
  wf_teams g -> wf_team p -> Forall (fun kp => wf_team (snd kp)) (Dict.set k p (players g)).
Proof.
  unfold wf_teams. rewrite !Forall_forall. intros W T x I.
  destruct (in_set _ _ _ _ I) as [-> | I']; auto.
Qed.

Lemma wf_teams_get g k p : wf_teams g -> Dict.get k (players g) = Some p -> wf_team p.
Proof.
  unfold wf_teams. rewrite Forall_forall. intros W G.
  apply get_In in G. exact (W _ G).
Qed.

Lemma wf_game_attempt_pickup pid g : wf_game g -> wf_game (attempt_pickup pid g).
Proof.
  intros (WF & WS & WT). unfold attempt_pickup.
  destruct (Dict.get pid (players g)) as [player|] eqn:G; [|now repeat split].
  destruct (pickup_loop_teams pid (flags g) player) as [T S].
  destruct (pickup_loop pid player (flags g)) as [p' fs']. simpl in *.
  repeat split.
  - apply wf_flags_shape. simpl. rewrite S. now apply wf_flags_shape.
  - exact WS.
  - apply wf_teams_set; [assumption|]. unfold wf_team. rewrite T.
    exact (wf_teams_get g pid player WT G).
Qed.

Lemma wf_game_attempt_steal draw a d t g : wf_game g -> wf_game (attempt_steal draw a d t g).
Proof.
  intros (WF & WS & WT). unfold attempt_steal.
  destruct (Dict.get t (flags g)) as [flag|] eqn:GF; [|now repeat split].
  destruct (Dict.get a (players g)) as [attacker|] eqn:GA; [|now repeat split].
  destruct (Dict.get d (players g)) as [defender|] eqn:GD; [|now repeat split].
  destruct (_ || _); [now repeat split|].
  destruct (String.eqb _ _); [now repeat split|].
  destruct (Qle_bool _ _); [now repeat split|].
  repeat split.
  - apply wf_flags_shape. simpl. rewrite (flag_shape_set t flag) by auto.
    now apply wf_flags_shape.
  - exact WS.
  - unfold wf_teams. simpl.
    pose proof (wf_teams_get g a attacker WT GA) as Ta.
    pose proof (wf_teams_get g d defender WT GD) as Td.
    set (g1 := set_players (Dict.set d
                 (Player.set_blue false (Player.set_red false defender)) (players g)) g).
    apply (wf_teams_set g1); [|exact Ta].
    apply (wf_teams_set g); assumption.
Qed.

Lemma wf_game_run_ops ops : forall g, wf_game g -> wf_game (run_ops ops g).
Proof.
  unfold run_ops. induction ops as [|op ops IH]; intros g W; simpl; [assumption|].
  apply IH. destruct op; simpl;
    [now apply wf_game_attempt_pickup | now apply wf_game_attempt_steal].
Qed.

Lemma wf_game_handle_inputs pid m g g' :
  wf_game g -> handle_inputs pid m g = Ok g' -> wf_game g'.
Proof.
  intros (WF & WS & WT) E.
  pose proof (handle_inputs_cases pid m g) as C.
  destruct (Dict.get pid (players g)) as [p|] eqn:G.
  - destruct C as [C|[[e C]|(u & d & l & r & C)]]; rewrite C in E;
      try discriminate; injection E as <-; [now repeat split|].
    repeat split; try assumption.
    apply wf_teams_set; [assumption|].
    destruct (move_player_spec g u d l r p) as (_ & _ & _ & T & _).
    unfold wf_team. rewrite T. exact (wf_teams_get g pid p WT G).
  - rewrite C in E. injection E as <-. now repeat split.
Qed.

Lemma drain_preserves (P : Game_State -> Prop) :
  (forall pid m g g', P g -> handle_inputs pid m g = Ok g' -> P g') ->
  forall pid q g, P g -> P (drain pid q g).
Proof.
  intros Hstep pid q. unfold drain.
  induction q as [|m q IH]; intros g Pg; simpl; [assumption|].
  apply IH. destruct (handle_inputs pid m g) eqn:E; eauto.
Qed.

Lemma process_queue_preserves (P : Game_State -> Prop) s pid :
  (forall pid m g g', P g -> handle_inputs pid m g = Ok g' -> P g') ->
  P (game s) ->
  P (game (process_queue s pid))
  /\ next_player_id (process_queue s pid) = next_player_id s
  /\ client_sockets (process_queue s pid) = client_sockets s
  /\ client_threads (process_queue s pid) = client_threads s
  /\ running (process_queue s pid) = running s
  /\ broadcasts (process_queue s pid) = broadcasts s.
Proof.
  intros Hstep Pg. unfold process_queue.
  destruct (Dict.get pid (input_queues s)) as [q|]; [|now repeat split].
  simpl. repeat split. now apply drain_preserves.
Qed.

Lemma process_inputs_fold (P : Game_State -> Prop) :
  (forall pid m g g', P g -> handle_inputs pid m g = Ok g' -> P g') ->
  forall pids s, P (game s) ->
    let s' := fold_left process_queue pids s in
    P (game s') /\ next_player_id s' = next_player_id s
    /\ client_sockets s' = client_sockets s /\ client_threads s' = client_threads s
    /\ running s' = running s /\ broadcasts s' = broadcasts s.
Proof.
  intros Hstep pids. induction pids as [|pid pids IH]; intros s Pg; simpl.
  - repeat split; assumption.
  - destruct (process_queue_preserves P s pid Hstep Pg) as (A & B & C & D & E & F).
    destruct (IH (process_queue s pid) A) as (A' & B' & C' & D' & E' & F').
    repeat split; congruence.
Qed.

Lemma process_inputs_preserves (P : Game_State -> Prop) s :
  (forall pid m g g', P g -> handle_inputs pid m g = Ok g' -> P g') ->
  P (game s) ->
  P (game (process_inputs s))
  /\ next_player_id (process_inputs s) = next_player_id s
  /\ client_sockets (process_inputs s) = client_sockets s
  /\ client_threads (process_inputs s) = client_threads s
  /\ running (process_inputs s) = running s
  /\ broadcasts (process_inputs s) = broadcasts s.
Proof. intros Hstep Pg. now apply process_inputs_fold. Qed.

Lemma wf_game_update_flags g : wf_game g -> wf_game (update_flags g).
Proof.
  intros (WF & WS & WT). repeat split; try assumption.
  apply wf_flags_shape. unfold update_flags. simpl.
  rewrite flag_shape_map; [now apply wf_flags_shape|].
  intros f. unfold update_flag.
  destruct (Flag.carrier f); [|reflexivity].
  destruct (Dict.get _ _); reflexivity.
Qed.

Lemma wf_scores_get g p :
  wf_scores g -> wf_team p -> exists sc, Dict.get (Player.team p) (scores g) = Some sc.
Proof.
  unfold wf_scores, Dict.keys. intros WS WT.
  destruct (scores g) as [|[k1 v1] [|[k2 v2] [|? ?]]]; simpl in WS; try discriminate.
  injection WS as -> ->. destruct WT as [-> | ->]; simpl; eauto.
Qed.

(** On a well-formed game [check_score] never raises: it leaves the state
    alone or runs the scoring event of one connected player. *)
Lemma check_score_loop_cases s items :
  wf_game (game s) ->
  (forall kp, In kp items -> In kp (players (game s))) ->
  check_score_loop items s = Ok s
  \/ exists k player sc,
      In (k, player) (players (game s))
      /\ carried_flags player <> []
      /\ Dict.get (Player.team player) (scores (game s)) = Some sc
      /\ check_score_loop items s = score_event player s.
Proof.
  intros (WF & WS & WT). induction items as [|[k p] items IH]; intros Sub; simpl.
  - now left.
  - assert (IH' := IH (fun kp I => Sub kp (or_intror I))).
    destruct (carried_flags p) eqn:CF; [exact IH'|].
    destruct (subscript_base (game s) p WF) as (base & G).
    unfold subscript. rewrite G. simpl.
    destruct (in_base p base); [|exact IH'].
    right. pose proof (Sub (k, p) (or_introl eq_refl)) as I.
    assert (wf_team p) as T.
    { unfold wf_teams in WT. rewrite Forall_forall in WT. exact (WT _ I). }
    destruct (wf_scores_get (game s) p WS T) as (sc & GS).
    exists k, p, sc. repeat split; try assumption. congruence.
Qed.

Lemma check_score_cases s :
  wf_game (game s) ->
  check_score s = Ok s
  \/ exists k player sc,
      In (k, player) (players (game s))
      /\ carried_flags player <> []
      /\ Dict.get (Player.team player) (scores (game s)) = Some sc
      /\ check_score s = score_event player s.
Proof. intros W. apply check_score_loop_cases; auto. Qed.

Lemma update_flag_carrier ps f c :
  Flag.carrier (update_flag ps f) = Some c -> Dict.get c ps <> None.
Proof.
  unfold update_flag. destruct (Flag.carrier f) as [c0|] eqn:C; [|congruence].
  destruct (Dict.get c0 ps) eqn:G; simpl; [|discriminate].
  rewrite C. intros [= <-]. congruence.
Qed.

Lemma handle_inputs_keeps_absent k pid m g g' :
  Dict.get k (players g) = None -> handle_inputs pid m g = Ok g' ->
  Dict.get k (players g') = None.
Proof.
  intros N E. pose proof (handle_inputs_cases pid m g) as C.
  destruct (Dict.get pid (players g)) as [p|] eqn:G.
  - destruct C as [C|[[e C]|(u & d & l & r & C)]]; rewrite C in E;
      try discriminate; injection E as <-; [assumption|].
    simpl. apply get_set_None; congruence.
  - rewrite C in E. now injection E as <-.
Qed.

Lemma attempt_pickup_keeps_absent k pid g :
  Dict.get k (players g) = None -> Dict.get k (players (attempt_pickup pid g)) = None.
Proof.
  intros N. unfold attempt_pickup.
  destruct (Dict.get pid (players g)) eqn:G; [|assumption].
  destruct (pickup_loop _ _ _). simpl. apply get_set_None; congruence.
Qed.

Lemma attempt_steal_keeps_absent k draw a d t g :
  Dict.get k (players g) = None ->
  Dict.get k (players (attempt_steal draw a d t g)) = None.
Proof.
  intros N. unfold attempt_steal.
  destruct (Dict.get t (flags g)); [|assumption].
  destruct (Dict.get a (players g)) eqn:GA; [|assumption].
  destruct (Dict.get d (players g)) eqn:GD; [|assumption].
  destruct (_ || _); [assumption|].
  destruct (String.eqb _ _); [assumption|].
  destruct (Qle_bool _ _); [assumption|].
  simpl. apply get_set_None.
  - destruct (Z.eq_dec d a) as [->|NE].
    + rewrite get_set_eq. discriminate.
    + rewrite get_set_neq by assumption. congruence.
  - apply get_set_None; congruence.
Qed.

Lemma run_ops_keeps_absent k ops : forall g,
  Dict.get k (players g) = None -> Dict.get k (players (run_ops ops g)) = None.
Proof.
  unfold run_ops. induction ops as [|op ops IH]; intros g N; simpl; [assumption|].
  apply IH. destruct op; simpl;
    [now apply attempt_pickup_keeps_absent | now apply attempt_steal_keeps_absent].
Qed.

(** A tick on a well-formed game returns, and the snapshot it broadcasts
    names as carriers only players that are connected when it is taken. *)
Lemma tick_snapshot_carriers s :
  wf_game (game s) ->
  exists mid,
    tick s = Ok (broadcast (serialize mid) mid)
    /\ (forall c, In (Some c) (snapshot_carriers (serialize mid)) ->
                  Dict.get c (players (game mid)) <> None)
    /\ (forall k, Dict.get k (players (game s)) = None ->
                  Dict.get k (players (game mid)) = None).
Proof.
  intros W. unfold tick.
  destruct (process_inputs_preserves wf_game s wf_game_handle_inputs W) as (W1 & _).
  set (s1 := process_inputs s) in *.
  set (s2 := set_game (update_flags (game s1)) s1).
  assert (wf_game (game s2)) as W2 by (apply wf_game_update_flags; exact W1).
  assert (forall c, In (Some c) (map (fun kf => Flag.carrier (snd kf)) (flags (game s2))) ->
                    Dict.get c (players (game s2)) <> None) as Conn.
  { intros c I. apply in_map_iff in I as ([t f] & C & I). simpl in *.
    unfold update_flags in I. simpl in I.
    apply in_map_iff in I as ([t0 f0] & [= <- <-] & _).
    now apply update_flag_carrier in C. }
  assert (forall k, Dict.get k (players (game s)) = None ->
                    Dict.get k (players (game s2)) = None) as Abs.
  { intros k N. simpl.
    exact (proj1 (process_inputs_preserves
                    (fun g => Dict.get k (players g) = None) s
                    (handle_inputs_keeps_absent k) N)). }
  destruct (check_score_cases s2 W2) as [E|(k & player & sc & _ & _ & GS & E)];
    rewrite E.
  - exists s2. simpl. split; [reflexivity|]. split; [|exact Abs].
    intros c I. apply Conn. unfold serialize in I. simpl in I.
    now rewrite map_map in I.
  - destruct (score_event_game player s2 sc GS) as (s3 & -> & G3 & _).
    exists s3. simpl. split; [reflexivity|]. split.
    + intros c I. exfalso. unfold serialize in I. simpl in I. rewrite map_map in I.
      apply in_map_iff in I as ([t f] & C & I). rewrite G3 in I.
      destruct (scored_all_flags_home player sc (game s2) t f I) as (C0 & _).
      simpl in C. congruence.
    + intros k0 N. rewrite G3. pose proof (Abs k0 N) as A.
      unfold scored, clear_all_players. cbn [players].
      rewrite get_map_values, A. reflexivity.
Qed.

(** ** Removal *)

Lemma flag_shape_release t fs : flag_shape (release t fs) = flag_shape fs.
Proof.
  unfold release. destruct (Dict.get t fs) eqn:G; [|reflexivity].
  now apply (flag_shape_set t t0).
Qed.

Lemma remove_player_game pid s :
  game (remove_player pid s)
  = match Dict.get pid (players (game s)) with
    | None => set_players (Dict.pop pid (players (game s))) (game s)
    | Some player =>
        let fs := flags (game s) in
        let fs := if Player.red player then release "red" fs else fs in
        let fs := if Player.blue player then release "blue" fs else fs in
        set_flags fs (set_players (Dict.pop pid (players (game s))) (game s))
    end.
Proof. unfold remove_player. destruct (Dict.get pid _); reflexivity. Qed.

Lemma wf_game_remove_player pid s :
  wf_game (game s) -> wf_game (game (remove_player pid s)).
Proof.
  intros (WF & WS & WT). rewrite remove_player_game.
  assert (Forall (fun kp => wf_team (snd kp)) (Dict.pop pid (players (game s)))) as WT'.
  { unfold wf_teams in WT. rewrite Forall_forall in *. intros x I.
    apply WT. now apply in_pop in I. }
  destruct (Dict.get pid (players (game s))) as [player|].
  - repeat split; try assumption.
    apply wf_flags_shape. simpl.
    destruct (Player.red player), (Player.blue player);
      rewrite ?flag_shape_release; now apply wf_flags_shape.
  - repeat split; assumption.
Qed.

Lemma remove_player_releases_carried pid s player t flag :
  wf_flags (game s) ->
  Dict.get pid (players (game s)) = Some player ->
  carries player t = true ->
  Dict.get t (flags (game s)) = Some flag ->
  Dict.get t (flags (game (remove_player pid s))) = Some (Flag.reset flag).
Proof.
  intros (fr & fb & Fs & Tr & Tb) G C GF.
  rewrite remove_player_game, G. simpl. rewrite Fs in *.
  unfold carries in C.
  destruct (String.eqb t "red") eqn:R.
  - apply String.eqb_eq in R. subst t. rewrite C.
    simpl in GF. injection GF as <-.
    destruct (Player.blue player); reflexivity.
  - destruct (String.eqb t "blue") eqn:B; [|discriminate].
    apply String.eqb_eq in B. subst t. rewrite C.
    simpl in GF. injection GF as <-.
    destruct (Player.red player); reflexivity.
Qed.

Lemma remove_player_leaves_no_reference pid s player :
  wf_flags (game s) -> carrier_consistent (game s) ->
  Dict.get pid (players (game s)) = Some player ->
  forall t f, In (t, f) (flags (game (remove_player pid s))) -> Flag.carrier f <> Some pid.
Proof.
  intros (fr & fb & Fs & Tr & Tb) CC G t f I C.
  assert (forall t0 f0, In (t0, f0) (flags (game s)) -> Flag.carrier f0 = Some pid ->
                        carries player (Flag.team f0) = true) as Ind.
  { intros t0 f0 I0 C0. destruct (proj1 (CC t0 f0 I0 pid) C0) as (p & Gp & Cp).
    congruence. }
  rewrite remove_player_game, G in I. simpl in I. rewrite Fs in *.
  assert (Flag.carrier fr = Some pid -> Player.red player = true) as Rd.
  { intros C0. specialize (Ind "red" fr (or_introl eq_refl) C0). now rewrite Tr in Ind. }
  assert (Flag.carrier fb = Some pid -> Player.blue player = true) as Bl.
  { intros C0. specialize (Ind "blue" fb (or_intror (or_introl eq_refl)) C0).
    now rewrite Tb in Ind. }
  destruct (Player.red player), (Player.blue player); simpl in I;
    destruct I as [[= <- <-]|[[= <- <-]|[]]]; simpl in C;
    try discriminate; auto; try (specialize (Rd C)); try (specialize (Bl C));
    discriminate.
Qed.

(** Removing a connected player deletes it from the world and, in
    the same call, resets every flag whose indicator the player had set:
    such a flag has no carrier and lies at its spawn position.  In a
    carrier-consistent state no flag names the player once the call is
    over.  In any state, whatever pickups and steals follow, the next tick
    returns and the snapshot it broadcasts names the removed player as
    carrier of no flag. *)
Lemma remove_player_releases_flags (s : Server) (pid : Z) (player : Player.t) :
  wf_game (game s) ->
  Dict.get pid (players (game s)) = Some player ->
  let s1 := remove_player pid s in
  Dict.get pid (players (game s1)) = None
  /\ (forall t flag,
         carries player t = true ->
         Dict.get t (flags (game s)) = Some flag ->
         exists flag',
           Dict.get t (flags (game s1)) = Some flag'
           /\ Flag.carrier flag' = None
           /\ Flag.x flag' = Flag.spawn_x flag /\ Flag.y flag' = Flag.spawn_y flag)
  /\ (carrier_consistent (game s) ->
      forall t f, In (t, f) (flags (game s1)) -> Flag.carrier f <> Some pid)
  /\ (forall ops,
         exists mid,
           tick (set_game (run_ops ops (game s1)) s1) = Ok (broadcast (serialize mid) mid)
           /\ ~ In (Some pid) (snapshot_carriers (serialize mid))).
Proof.
  intros W G s1.
  assert (Dict.get pid (players (game s1)) = None) as Gone.
  { subst s1. rewrite remove_player_game, G. simpl. apply get_pop_eq. }
  split; [exact Gone|]. split; [|split].
  - intros t flag C GF. exists (Flag.reset flag).
    split; [|now repeat split].
    destruct W as (WF & _). now apply remove_player_releases_carried with (player := player).
  - intros CC. destruct W as (WF & _).
    now apply remove_player_leaves_no_reference with (player := player).
  - intros ops.
    set (s2 := set_game (run_ops ops (game s1)) s1).
    assert (wf_game (game s2)) as W2.
    { simpl. apply wf_game_run_ops. subst s1. now apply wf_game_remove_player. }
    destruct (tick_snapshot_carriers s2 W2) as (mid & T & Conn & Abs).
    exists mid. split; [exact T|]. intros I.
    apply (Conn pid I). apply Abs. simpl. now apply run_ops_keeps_absent.
Qed.

Lemma wf_game_both_carry : wf_game (game both_carry_server).
Proof.
  repeat split.
  - exists (Flag.mk "red" 50 300 52 300 (Some 2)), (Flag.mk "blue" 950 300 950 300 (Some 1)).
    repeat split; vm_compute; reflexivity.
  - constructor; [left; reflexivity|].
    constructor; [right; reflexivity|]. constructor.
Qed.

(** Player 1 leaves while it carries the blue flag. *)
Lemma remove_player_releases_flags_witness :
  carries (Player.mk 1 948 299 "red" false true) "blue" = true
  /\ Dict.get 1 (players (game (remove_player 1 (both_carry_server)))) = None
  /\ (exists flag',
         Dict.get "blue" (flags (game (remove_player 1 (both_carry_server))))
         = Some flag'
         /\ Flag.carrier flag' = None /\ Flag.x flag' = 950 /\ Flag.y flag' = 300)
  /\ exists mid,
      tick (set_game (run_ops [] (game (remove_player 1 (both_carry_server))))
                     (remove_player 1 (both_carry_server)))
      = Ok (broadcast (serialize mid) mid)
      /\ ~ In (Some 1) (snapshot_carriers (serialize mid)).
Proof.
  destruct (remove_player_releases_flags (both_carry_server) 1
              (Player.mk 1 948 299 "red" false true) wf_game_both_carry)
    as (Gone & Rel & _ & Snap).
  - vm_compute; reflexivity.
  - split; [reflexivity|]. split; [exact Gone|]. split.
    + apply (Rel "blue" (Flag.mk "blue" 950 300 950 300 (Some 1))).
      * reflexivity.
      * vm_compute; reflexivity.
    + exact (Snap []).
Defined.

(** ** Steps of the server *)

Ltac split_quiet := split; [|split; [|split]].

Lemma quiet_refl s : quiet s s.
Proof. split_quiet; auto. Qed.

Lemma quiet_trans s1 s2 s3 : quiet s1 s2 -> quiet s2 s3 -> quiet s1 s3.
Proof.
  intros (A & B & C & D) (A' & B' & C' & D'). split_quiet; try congruence. auto.
Qed.

Lemma attempt_pickup_scores pid g : scores (attempt_pickup pid g) = scores g.
Proof.
  unfold attempt_pickup. destruct (Dict.get pid (players g)); [|reflexivity].
  destruct (pickup_loop _ _ _). reflexivity.
Qed.

Lemma attempt_steal_scores draw a d t g : scores (attempt_steal draw a d t g) = scores g.
Proof.
  unfold attempt_steal.
  destruct (Dict.get t (flags g)); [|reflexivity].
  destruct (Dict.get a (players g)); [|reflexivity].
  destruct (Dict.get d (players g)); [|reflexivity].
  destruct (_ || _); [reflexivity|].
  destruct (String.eqb _ _); [reflexivity|].
  destruct (Qle_bool _ _); reflexivity.
Qed.

Lemma steal_request_cases draw pid target flag g g' :
  steal_request draw pid target flag g = Ok g' ->
  g' = g \/ exists d t, g' = attempt_steal draw pid d t g.
Proof.
  unfold steal_request. destruct (team_key flag) as [[t|]|]; simpl; try discriminate.
  - destruct (Dict.get t (flags g)).
    + destruct (pid_key target) as [[d|]|]; simpl; try discriminate.
      * intros [= <-]. right. eauto.
      * intros [= <-]. now left.
    + intros [= <-]. now left.
  - intros [= <-]. now left.
Qed.

Lemma quiet_set_game s g :
  scores g = scores (game s) -> (wf_game (game s) -> wf_game g) -> quiet s (set_game g s).
Proof. intros E W. split_quiet; auto. Qed.

Lemma quiet_put pid msg s : quiet s (put pid msg s).
Proof.
  unfold put. destruct (Dict.get pid (input_queues s)); [|apply quiet_refl].
  split_quiet; auto.
Qed.

Section StepFacts.
Variable json_loads : string -> result Json.

Lemma handle_line_quiet draw pid line s s' :
  handle_line json_loads draw pid line s = Ok s' -> quiet s s'.
Proof.
  unfold handle_line. destruct (json_loads line) as [[| | | | |o]|]; simpl; try discriminate.
  destruct (is_str "pickup" _).
  - intros [= <-]. apply quiet_set_game;
      [apply attempt_pickup_scores | apply wf_game_attempt_pickup].
  - destruct (is_str "steal" _).
    + destruct (steal_request _ _ _ _ _) as [g'|] eqn:E; simpl; [|discriminate].
      intros [= <-]. apply steal_request_cases in E as [-> | (d & t & ->)].
      * apply quiet_set_game; auto.
      * apply quiet_set_game;
          [apply attempt_steal_scores | apply wf_game_attempt_steal].
    + intros [= <-]. apply quiet_put.
Qed.

Lemma handle_lines_quiet pid lines : forall draws s,
  quiet s (fst (handle_lines json_loads draws pid lines s)).
Proof.
  induction lines as [|l lines IH]; intros draws s; simpl; [apply quiet_refl|].
  destruct (handle_line json_loads (draws O) pid l s) as [s'|e] eqn:E; simpl;
    [|apply quiet_refl].
  eapply quiet_trans; [exact (handle_line_quiet _ _ _ _ _ E) | apply IH].
Qed.

Lemma listener_recv_quiet draws pid r th s th' s' :
  listener_recv json_loads draws pid r th s = (th', s') -> quiet s s'.
Proof.
  unfold listener_recv. destruct r as [| |data].
  - intros [= _ <-]. apply quiet_put.
  - intros [= _ <-]. apply quiet_put.
  - destruct (String.eqb data ""); [intros [= _ <-]; apply quiet_put|].
    destruct (split_lines _) as [lines rem].
    pose proof (handle_lines_quiet pid lines draws s) as Q.
    destruct (handle_lines json_loads draws pid lines s) as [s1 [e|]]; simpl in Q;
      intros [= _ <-]; [|exact Q].
    eapply quiet_trans; [exact Q | apply quiet_put].
Qed.
End StepFacts.

Lemma accept_quiet s : quiet s (accept s).
Proof.
  unfold accept. destruct (map_height (game s) - 200 =? 0); [split_quiet; auto|].
  split_quiet; simpl; auto.
  intros (WF & WS & WT). split; [exact WF|]. split; [exact WS|].
  apply wf_teams_set; [assumption|].
  unfold wf_team; simpl. destruct (_ =? 1); auto.
Qed.

Lemma remove_player_quiet pid s : quiet s (remove_player pid s).
Proof.
  split; [|split; [|split]].
  - rewrite remove_player_game. destruct (Dict.get pid _); reflexivity.
  - unfold remove_player. destruct (Dict.get pid _); reflexivity.
  - unfold remove_player. destruct (Dict.get pid _); reflexivity.
  - apply wf_game_remove_player.
Qed.

Lemma handle_inputs_scores pid m g g' :
  handle_inputs pid m g = Ok g' -> scores g' = scores g.
Proof.
  intros E. pose proof (handle_inputs_cases pid m g) as C.
  destruct (Dict.get pid (players g)) as [p|].
  - destruct C as [C|[[e C]|(u & d & l & r & C)]]; rewrite C in E;
      try discriminate; now injection E as <-.
  - rewrite C in E. now injection E as <-.
Qed.

Lemma process_inputs_quiet s : quiet s (process_inputs s).
Proof.
  split; [|split; [|split]].
  - refine (proj1 (process_inputs_preserves
                     (fun g => scores g = scores (game s)) s _ eq_refl)).
    intros pid m g g' P E. rewrite <- P. eapply handle_inputs_scores; eassumption.
  - exact (proj1 (proj2 (proj2 (proj2 (proj2
             (process_inputs_preserves (fun _ => True) s (fun _ _ _ _ _ _ => I) I)))))).
  - f_equal.
    exact (proj2 (proj2 (proj2 (proj2 (proj2
             (process_inputs_preserves (fun _ => True) s (fun _ _ _ _ _ _ => I) I)))))).
  - intros W. exact (proj1 (process_inputs_preserves wf_game s wf_game_handle_inputs W)).
Qed.

Lemma over_winners_app l1 l2 :
  over_winners (l1 ++ l2) = (over_winners l1 ++ over_winners l2)%list.
Proof. unfold over_winners. apply flat_map_app. Qed.

Lemma broadcast_update_quiet s : quiet s (broadcast (serialize s) s).
Proof.
  split_quiet; auto. simpl. rewrite over_winners_app. simpl. apply app_nil_r.
Qed.

Lemma update_flags_quiet s : quiet s (set_game (update_flags (game s)) s).
Proof. apply quiet_set_game; [reflexivity | apply wf_game_update_flags]. Qed.

Lemma wf_game_scored player sc g :
  wf_game g -> Dict.get (Player.team player) (scores g) = Some sc ->
  wf_game (scored player sc g).
Proof.
  intros (WF & WS & WT) GS. repeat split.
  - apply wf_flags_shape. simpl. unfold reset_all_flags.
    rewrite flag_shape_map by reflexivity. now apply wf_flags_shape.
  - unfold wf_scores. simpl. rewrite keys_set_present by congruence. exact WS.
  - unfold wf_teams in *. simpl. unfold clear_all_players.
    rewrite Forall_forall in *. intros x I.
    apply in_map_iff in I as ([k p] & <- & I). simpl. exact (WT _ I).
Qed.

(** What a scoring event does to the server, in full. *)
Lemma score_event_eq player s sc :
  Dict.get (Player.team player) (scores (game s)) = Some sc ->
  let total := sc + Z.of_nat (List.length (carried_flags player)) in
  let s1 := set_game (scored player sc (game s)) s in
  score_event player s
  = Ok (if SCORE_TO_WIN <=? total
        then set_running false (broadcast (MsgOver (Player.team player)) s1)
        else s1).
Proof.
  intros G. unfold score_event, subscript. rewrite G. simpl.
  destruct (SCORE_TO_WIN <=? _); reflexivity.
Qed.

(** The effect of one tick on a well-formed game: quiet, or one scoring
    event, which ends the round when the new total reaches the threshold. *)
Lemma tick_effect s s' :
  wf_game (game s) -> tick s = Ok s' ->
  wf_game (game s')
  /\ (quiet s s'
      \/ exists team sc n,
          Dict.get team (scores (game s)) = Some sc
          /\ 1 <= n
          /\ scores (game s') = Dict.set team (sc + n) (scores (game s))
          /\ if SCORE_TO_WIN <=? sc + n
             then running s' = false
                  /\ over_winners (broadcasts s')
                     = (over_winners (broadcasts s) ++ [team])%list
             else running s' = running s
                  /\ over_winners (broadcasts s') = over_winners (broadcasts s)).
Proof.
  intros W. unfold tick.
  pose proof (process_inputs_quiet s) as Q1.
  set (s1 := process_inputs s) in *.
  pose proof (update_flags_quiet s1) as Q2.
  set (s2 := set_game (update_flags (game s1)) s1) in *.
  pose proof (quiet_trans _ _ _ Q1 Q2) as Q.
  destruct Q as (QS & QR & QO & QW). specialize (QW W).
  clear Q1 Q2. clearbody s2. clear s1.
  destruct (check_score_cases s2 QW) as [E|(k & player & sc & _ & CF & GS & E)];
    rewrite E.
  - simpl. intros [= <-].
    pose proof (broadcast_update_quiet s2) as (A & B & C & D).
    split; [exact (D QW)|]. left. split_quiet; try congruence. auto.
  - rewrite (score_event_eq player s2 sc GS). simpl.
    set (n := Z.of_nat (List.length (carried_flags player))).
    assert (1 <= n) as N.
    { subst n. destruct (carried_flags player); [congruence|].
      cbn [List.length]. rewrite Nat2Z.inj_succ. lia. }
    pose proof (wf_game_scored player sc (game s2) QW GS) as WS.
    intros [= <-]. split.
    + destruct (SCORE_TO_WIN <=? sc + n); exact WS.
    + right. exists (Player.team player), sc, n.
      split; [congruence|]. split; [exact N|].
      split; [destruct (SCORE_TO_WIN <=? sc + n); simpl; now rewrite QS|].
      destruct (SCORE_TO_WIN <=? sc + n); simpl.
      * split; [reflexivity|].
        rewrite !over_winners_app. simpl. rewrite app_nil_r. now rewrite QO.
      * split; [exact QR|]. rewrite over_winners_app. simpl. rewrite app_nil_r. exact QO.
Qed.

Lemma in_scores_get g t v : wf_scores g -> In (t, v) (scores g) -> Dict.get t (scores g) = Some v.
Proof.
  unfold wf_scores. intros WS I. apply In_get_nodup; [|exact I].
  rewrite WS. repeat constructor; simpl; intuition discriminate.
Qed.

Section WinFacts.
Variable json_loads : string -> result Json.

Lemma step_effect s s' :
  step json_loads s s' -> wf_game (game s) ->
  wf_game (game s')
  /\ (quiet s s'
      \/ running s = true
         /\ exists team sc n,
             Dict.get team (scores (game s)) = Some sc
             /\ 1 <= n
             /\ scores (game s') = Dict.set team (sc + n) (scores (game s))
             /\ if SCORE_TO_WIN <=? sc + n
                then running s' = false
                     /\ over_winners (broadcasts s')
                        = (over_winners (broadcasts s) ++ [team])%list
                else running s' = running s
                     /\ over_winners (broadcasts s') = over_winners (broadcasts s)).
Proof.
  intros St W. destruct St as [s s' R T | s | s pid th draws r th' s' G A L | s pid].
  - destruct (tick_effect s s' W T) as (W' & [Q|Sc]); split; auto.
  - pose proof (accept_quiet s) as Q. split; [apply Q, W | now left].
  - pose proof (listener_recv_quiet json_loads _ _ _ _ _ _ _ L) as (Q1 & Q2 & Q3 & Q4).
    split; [exact (Q4 W)|]. left. split_quiet; auto.
  - pose proof (remove_player_quiet pid s) as Q. split; [apply Q, W | now left].
Qed.

Lemma win_inv_init : win_inv init_server.
Proof.
  split; [|split].
  - split; [|split].
    + exists (Flag.new "red" 50 300), (Flag.new "blue" 950 300). repeat split.
    + reflexivity.
    + constructor.
  - intros t v [[= <- <-]|[[= <- <-]|[]]]; lia.
  - simpl. split; [|reflexivity].
    intros t v [[= <- <-]|[[= <- <-]|[]]]; reflexivity.
Qed.

Lemma win_inv_step s s' : win_inv s -> step json_loads s s' -> win_inv s'.
Proof.
  intros (W & NN & Inv) St.
  destruct (step_effect s s' St W) as (W' & [Q | (R & team & sc & n & G & N & Sc & Fin)]).
  - destruct Q as (QS & QR & QO & _). split; [exact W'|]. split.
    + unfold scores_nonneg. rewrite QS. exact NN.
    + rewrite QR, QO. unfold scores_below_win. rewrite QS. exact Inv.
  - rewrite R in Inv. destruct Inv as (Below & NoOver).
    pose proof (Below team sc (get_In _ _ _ G)) as Lt.
    pose proof (NN team sc (get_In _ _ _ G)) as Ge.
    split; [exact W'|]. split.
    + intros t v I. rewrite Sc in I.
      destruct (in_set _ _ _ _ I) as [[= -> ->]|I']; [lia | eauto].
    + destruct (SCORE_TO_WIN <=? sc + n) eqn:Win; destruct Fin as (R' & O'); rewrite R'.
      * apply Z.leb_le in Win. exists team, (sc + n).
        split; [rewrite Sc; apply get_set_eq|]. split; [exact Win|].
        split; [rewrite O', NoOver; reflexivity|].
        intros t v I Big. rewrite Sc in I.
        destruct (in_set _ _ _ _ I) as [[= -> ->]|I']; [reflexivity|].
        specialize (Below t v I'). lia.
      * apply Z.leb_gt in Win. rewrite R. split; [|congruence].
        intros t v I. rewrite Sc in I.
        destruct (in_set _ _ _ _ I) as [[= -> ->]|I']; [lia | eauto].
Qed.

Lemma reachable_win_inv s : reachable json_loads s -> win_inv s.
Proof.
  induction 1 as [|s s' _ IH St]; [exact win_inv_init | exact (win_inv_step s s' IH St)].
Qed.

Lemma stopped_steps s s' :
  wf_game (game s) -> running s = false -> steps json_loads s s' ->
  wf_game (game s')
  /\ scores (game s') = scores (game s)
  /\ running s' = false
  /\ over_winners (broadcasts s') = over_winners (broadcasts s).
Proof.
  intros W R Sts. induction Sts as [s | s s' s'' _ IH St]; [auto|].
  destruct (IH W R) as (W' & S' & R' & O').
  destruct (step_effect s' s'' St W') as (W'' & [Q | (Run & _)]); [|congruence].
  destruct Q as (QS & QR & QO & _).
  split; [exact W''|]. split; [congruence|]. split; congruence.
Qed.

(** C6. In every state the server can reach the scores are not negative,
    and no step lowers a score.  While the loop runs every score is below
    the threshold and no game-over message was sent.  As soon as a score is
    at or above the threshold the loop has stopped and exactly one game-over
    message was broadcast, naming that team.  From then on the simulation
    loop makes no further iteration and no step changes a score, restarts
    the loop or sends another game-over message. *)
Theorem win_ends_the_round (s : Server) :
  reachable json_loads s ->
  scores_nonneg (game s)
  /\ (running s = true ->
      scores_below_win (game s) /\ over_winners (broadcasts s) = [])
  /\ (forall t v, In (t, v) (scores (game s)) -> SCORE_TO_WIN <= v ->
                  running s = false /\ over_winners (broadcasts s) = [t])
  /\ (forall s', step json_loads s s' ->
        forall t v, Dict.get t (scores (game s)) = Some v ->
                    exists v', Dict.get t (scores (game s')) = Some v' /\ v <= v')
  /\ (running s = false ->
      (forall fuel, game_loop fuel s = Ok s)
      /\ forall s', steps json_loads s s' ->
                    scores (game s') = scores (game s)
                    /\ running s' = false
                    /\ over_winners (broadcasts s') = over_winners (broadcasts s)).
Proof.
  intros Re. destruct (reachable_win_inv s Re) as (W & NN & Inv).
  split; [exact NN|]. split; [|split; [|split]].
  - intros R. now rewrite R in Inv.
  - intros t v I Big. destruct (running s).
    + destruct Inv as (Below & _). specialize (Below t v I). lia.
    + destruct Inv as (w & v0 & _ & _ & O & Uniq).
      split; [reflexivity|]. now rewrite (Uniq t v I Big).
  - intros s' St t v G.
    destruct (step_effect s s' St W) as (_ & [Q | (_ & team & sc & n & Gs & N & Sc & _)]).
    + destruct Q as (QS & _). rewrite QS. exists v. split; [exact G | lia].
    + rewrite Sc. destruct (String.eqb team t) eqn:E.
      * apply String.eqb_eq in E. subst t. rewrite get_set_eq.
        exists (sc + n). split; [reflexivity|]. rewrite Gs in G. injection G as <-. lia.
      * apply String.eqb_neq in E. rewrite get_set_neq by assumption.
        exists v. split; [exact G | lia].
  - intros R. split.
    + intros [|fuel]; simpl; [reflexivity | now rewrite R].
    + intros s' Sts.
      destruct (stopped_steps s s' W R Sts) as (_ & A & B & C). auto.
Qed.
End WinFacts.

(** ** Operations that keep carrier consistency *)

Lemma carries_clear_carry p t : carries (clear_carry p) t = false.
Proof.
  unfold carries, clear_carry. simpl.
  destruct (String.eqb t "red"); [reflexivity|]. now destruct (String.eqb t "blue").
Qed.

Lemma carrier_consistent_scored player sc g : carrier_consistent (scored player sc g).
Proof.
  intros t f I pid.
  destruct (scored_all_flags_home player sc g t f I) as (C & _). rewrite C. split.
  - discriminate.
  - intros (p & G & Cp). exfalso. simpl in G. unfold clear_all_players in G.
    rewrite get_map_values in G.
    destruct (Dict.get pid (players g)); simpl in G; [|discriminate].
    injection G as <-. rewrite carries_clear_carry in Cp. discriminate.
Qed.

(** X1. One evaluation of the scoring conditions keeps carrier
    consistency, and it does so in one of two ways only: it changes nothing,
    or it resets every flag (no carrier, at its spawn position) and clears
    every indicator of every player. *)
Theorem check_score_keeps_carrier_consistency (s s' : Server) :
  wf_game (game s) -> carrier_consistent (game s) ->
  check_score s = Ok s' ->
  carrier_consistent (game s')
  /\ (s' = s \/ all_flags_home (game s') /\ nobody_carries (game s')).
Proof.
  intros W CC E.
  destruct (check_score_cases s W) as [E0|(k & player & sc & _ & _ & GS & E0)];
    rewrite E0 in E.
  - injection E as <-. split; [exact CC | now left].
  - destruct (score_event_game player s sc GS) as (s1 & E1 & G1 & _).
    rewrite E1 in E. injection E as <-. rewrite G1. split.
    + apply carrier_consistent_scored.
    + right. split; [apply scored_all_flags_home | apply scored_nobody_carries].
Qed.

(** The evaluation in which player 1 scores. *)
Lemma check_score_keeps_carrier_consistency_witness :
  exists s', check_score both_in_base = Ok s'
             /\ carrier_consistent (game s')
             /\ (s' = both_in_base \/ all_flags_home (game s') /\ nobody_carries (game s')).
Proof.
  eexists. split; [vm_compute; reflexivity|].
  apply (check_score_keeps_carrier_consistency both_in_base).
  - split; [exact wf_flags_both_in_base|]. split; [reflexivity|].
    constructor; [left; reflexivity|]. constructor; [right; reflexivity|]. constructor.
  - apply carrier_consistentb_spec. vm_compute. reflexivity.
  - vm_compute. reflexivity.
Defined.

Lemma released_flag_consistent ps pid player f :
  Dict.get pid ps = Some player ->
  (forall q, Flag.carrier f = Some q
             <-> exists p, Dict.get q ps = Some p /\ carries p (Flag.team f) = true) ->
  let f' := if carries player (Flag.team f) then Flag.reset f else f in
  forall q, Flag.carrier f' = Some q
            <-> exists p, Dict.get q (Dict.pop pid ps) = Some p
                          /\ carries p (Flag.team f') = true.
Proof.
  intros G CC f' q.
  assert (Flag.team f' = Flag.team f) as T
      by (subst f'; destruct (carries player (Flag.team f)); reflexivity).
  rewrite T. destruct (Z.eq_dec pid q) as [<-|NE].
  - rewrite get_pop_eq. split.
    + subst f'. destruct (carries player (Flag.team f)) eqn:C; [discriminate|].
      intros Cq. apply CC in Cq as (p & Gp & Cp). congruence.
    + intros (p & Gp & _). discriminate.
  - rewrite get_pop_neq by assumption.
    subst f'. destruct (carries player (Flag.team f)) eqn:C; [|apply CC].
    split; [discriminate|].
    intros Ex. apply CC in Ex.
    assert (Flag.carrier f = Some pid) as Cp by (apply CC; eauto).
    congruence.
Qed.

Lemma remove_player_consistent (s : Server) (pid : Z) :
  wf_flags (game s) -> carrier_consistent (game s) ->
  carrier_consistent (game (remove_player pid s)).
Proof.
  intros (fr & fb & Fs & Tr & Tb) CC. rewrite remove_player_game.
  destruct (Dict.get pid (players (game s))) as [player|] eqn:G.
  - pose proof (released_flag_consistent _ pid player fr G
                  (CC "red" fr ltac:(rewrite Fs; simpl; auto))) as Rd.
    pose proof (released_flag_consistent _ pid player fb G
                  (CC "blue" fb ltac:(rewrite Fs; simpl; auto))) as Bl.
    rewrite Tr in Rd. rewrite Tb in Bl. unfold carries in Rd, Bl. simpl in Rd, Bl.
    intros t f I. simpl in I. rewrite Fs in I.
    destruct (Player.red player), (Player.blue player); simpl in I;
      destruct I as [[= <- <-]|[[= <- <-]|[]]]; simpl;
      first [exact Rd | exact Bl].
  - intros t f I q. simpl in I. rewrite (CC t f I q). simpl.
    destruct (Z.eq_dec pid q) as [<-|NE].
    + rewrite get_pop_eq, G. reflexivity.
    + rewrite get_pop_neq by assumption. reflexivity.
Qed.

Lemma remove_player_flag (s : Server) (pid : Z) (t : string) (f : Flag.t) :
  wf_flags (game s) -> carrier_consistent (game s) ->
  Dict.get t (flags (game s)) = Some f ->
  Dict.get t (flags (game (remove_player pid s)))
  = Some (match Flag.carrier f with
          | Some c => if c =? pid then Flag.reset f else f
          | None => f
          end).
Proof.
  intros WF CC G. pose proof WF as (fr & fb & Fs & Tr & Tb).
  assert (forall p, Dict.get pid (players (game s)) = Some p ->
            carries p (Flag.team f) = true <-> Flag.carrier f = Some pid) as Ind.
  { intros p Gp. specialize (CC t f (get_In _ _ _ G) pid). split.
    - intros C. apply CC. eauto.
    - intros C. apply CC in C as (p' & Gp' & C'). congruence. }
  assert (Dict.get pid (players (game s)) = None -> Flag.carrier f <> Some pid) as Abs.
  { intros N C. apply (CC t f (get_In _ _ _ G) pid) in C as (p & Gp & _). congruence. }
  assert (match Flag.carrier f with
          | Some c => if c =? pid then Flag.reset f else f
          | None => f
          end
          = match Dict.get pid (players (game s)) with
            | Some p => if carries p (Flag.team f) then Flag.reset f else f
            | None => f
            end) as ->.
  { destruct (Dict.get pid (players (game s))) as [p|] eqn:Gp.
    - specialize (Ind p eq_refl). destruct (carries p (Flag.team f)).
      + rewrite (proj1 Ind eq_refl), Z.eqb_refl. reflexivity.
      + destruct (Flag.carrier f) as [c|]; [|reflexivity].
        destruct (c =? pid) eqn:Ec; [|reflexivity].
        apply Z.eqb_eq in Ec. subst c. destruct Ind as [_ Ind].
        specialize (Ind eq_refl). discriminate.
    - specialize (Abs eq_refl). destruct (Flag.carrier f) as [c|]; [|reflexivity].
      destruct (c =? pid) eqn:Ec; [|reflexivity].
      apply Z.eqb_eq in Ec. subst c. congruence. }
  rewrite remove_player_game.
  destruct (Dict.get pid (players (game s))) as [p|]; [|exact G].
  cbv zeta. cbn [flags set_flags set_players]. rewrite Fs in *. unfold release.
  destruct (wf_flags_key (game s) t f WF ltac:(rewrite Fs; exact G)) as [-> | ->];
    cbn in G; injection G as <-; rewrite ?Tr, ?Tb; unfold carries; cbn;
    destruct (Player.red p), (Player.blue p); reflexivity.
Qed.

(** X2. Removing a player keeps carrier consistency, and this is how: in a
    carrier-consistent state every flag that names the removed player is
    reset (no carrier, back at its spawn position), every other flag is left
    as it was, the player is gone and every other player is untouched. *)
Theorem remove_player_keeps_carrier_consistency (s : Server) (pid : Z) :
  wf_flags (game s) -> carrier_consistent (game s) ->
  carrier_consistent (game (remove_player pid s))
  /\ (forall t f, Dict.get t (flags (game s)) = Some f ->
        Flag.carrier f = Some pid ->
        Dict.get t (flags (game (remove_player pid s))) = Some (Flag.reset f))
  /\ (forall t f, Dict.get t (flags (game s)) = Some f ->
        Flag.carrier f <> Some pid ->
        Dict.get t (flags (game (remove_player pid s))) = Some f)
  /\ Dict.keys (flags (game (remove_player pid s))) = Dict.keys (flags (game s))
  /\ Dict.get pid (players (game (remove_player pid s))) = None
  /\ (forall k, k <> pid ->
        Dict.get k (players (game (remove_player pid s)))
        = Dict.get k (players (game s)))
  /\ scores (game (remove_player pid s)) = scores (game s).
Proof.
  intros WF CC. split; [now apply remove_player_consistent|].
  assert (players (game (remove_player pid s)) = Dict.pop pid (players (game s))) as P
    by (rewrite remove_player_game; destruct (Dict.get pid (players (game s)));
        reflexivity).
  split; [|split; [|split; [|split; [|split]]]].
  - intros t f G C. rewrite (remove_player_flag s pid t f WF CC G), C, Z.eqb_refl.
    reflexivity.
  - intros t f G C. rewrite (remove_player_flag s pid t f WF CC G).
    destruct (Flag.carrier f) as [c|]; [|reflexivity].
    destruct (c =? pid) eqn:Ec; [|reflexivity].
    apply Z.eqb_eq in Ec. subst c. congruence.
  - rewrite remove_player_game.
    destruct (Dict.get pid (players (game s))) as [p|]; [|reflexivity].
    cbv zeta. cbn [flags set_flags set_players].
    destruct WF as (fr & fb & Fs & _). rewrite Fs. unfold release.
    destruct (Player.red p), (Player.blue p); reflexivity.
  - rewrite P. apply get_pop_eq.
  - intros k N. rewrite P. apply get_pop_neq. congruence.
  - rewrite remove_player_game.
    destruct (Dict.get pid (players (game s))); reflexivity.
Qed.

(** Player 1 leaves while both flags are carried: the blue flag, which it
    carries, goes home; the red flag stays with player 2. *)
Lemma remove_player_keeps_carrier_consistency_witness :
  carrier_consistent (game (remove_player 1 both_carry_server))
  /\ Dict.get "blue" (flags (game (remove_player 1 both_carry_server)))
     = Some (Flag.mk "blue" 950 300 950 300 None)
  /\ Dict.get "red" (flags (game (remove_player 1 both_carry_server)))
     = Some (Flag.mk "red" 50 300 52 300 (Some 2)).
Proof.
  destruct (remove_player_keeps_carrier_consistency both_carry_server 1)
    as (CC & Reset & Kept & _).
  - exact (proj1 wf_game_both_carry).
  - apply carrier_consistentb_spec. vm_compute. reflexivity.
  - split; [exact CC|]. split.
    + exact (Reset "blue" (Flag.mk "blue" 950 300 950 300 (Some 1)) eq_refl eq_refl).
    + apply (Kept "red" (Flag.mk "red" 50 300 52 300 (Some 2)) eq_refl). discriminate.
Defined.

(** ** Progress of the simulation loop *)

(** X3. On every state the server can reach, one more iteration of the
    loop returns: no lookup of the tick raises. *)
Theorem tick_returns_on_reachable (json_loads : string -> result Json) (s : Server) :
  reachable json_loads s -> exists s', tick s = Ok s'.
Proof.
  intros Re. destruct (reachable_win_inv json_loads s Re) as (W & _).
  destruct (tick_snapshot_carriers s W) as (mid & T & _). eauto.
Qed.

(** The tick in which both carriers reach their bases. *)
Lemma tick_returns_on_reachable_witness : exists s', tick both_head_home = Ok s'.
Proof.
  exact (tick_returns_on_reachable loads_frames both_head_home both_head_home_reachable).
Defined.

(** ** A round played to its end *)

Lemma won_reachable : reachable loads_frames won.
Proof. apply (played_reachable winning_script). vm_compute. reflexivity. Qed.

Example won_state :
  running won = false
  /\ scores (game won) = [("red", 5); ("blue", 0)]
  /\ over_winners (broadcasts won) = ["red"]
  /\ List.length (broadcasts won) = 11%nat.
Proof. repeat split; vm_compute; reflexivity. Qed.

(** The state after the fifth capture of player 1. *)
Lemma win_ends_the_round_witness :
  scores_nonneg (game won)
  /\ (running won = false /\ over_winners (broadcasts won) = ["red"])
  /\ (forall fuel, game_loop fuel won = Ok won)
  /\ forall s', steps loads_frames won s' ->
                scores (game s') = scores (game won)
                /\ running s' = false
                /\ over_winners (broadcasts s') = over_winners (broadcasts won).
Proof.
  destruct (win_ends_the_round loads_frames won won_reachable)
    as (NN & _ & Win & _ & Stop).
  split; [exact NN|]. split.
  - apply (Win "red" 5); [left; reflexivity | vm_compute; discriminate].
  - apply Stop. reflexivity.
Defined.

(** * Further properties *)

(** ** The roster *)

Section RosterDictLemmas.
Context {K V : Type} `{KeyEqb K}.
Implicit Types (k : K) (v : V) (d : list (K * V)).

Lemma get_None_keys k d : Dict.get k d = None <-> ~ In k (Dict.keys d).
Proof.
  induction d as [|[k' v'] r IH]; simpl; [tauto|].
  destruct (keqb k k') eqn:E.
  - apply keqb_eq in E. subst. split; [discriminate | intros N; exfalso; auto].
  - apply keqb_neq in E. rewrite IH. split; [intros N [C|C]; congruence | tauto].
Qed.

Lemma keys_set_absent k v d :
  Dict.get k d = None -> Dict.keys (Dict.set k v d) = (Dict.keys d ++ [k])%list.
Proof.
  induction d as [|[k' v'] r IH]; simpl; [reflexivity|].
  destruct (keqb k k') eqn:E; [discriminate|]. intros G. simpl. now rewrite IH.
Qed.

Lemma keys_pop k d :
  Dict.keys (Dict.pop k d) = filter (fun k' => negb (keqb k k')) (Dict.keys d).
Proof.
  induction d as [|[k' v'] r IH]; simpl; [reflexivity|].
  destruct (keqb k k'); simpl; now rewrite IH.
Qed.

Lemma pop_absent k d : Dict.get k d = None -> Dict.pop k d = d.
Proof.
  induction d as [|[k' v'] r IH]; simpl; [reflexivity|].
  destruct (keqb k k') eqn:E; [discriminate|]. intros G. simpl. now rewrite IH.
Qed.

Lemma pop_pop k d : Dict.pop k (Dict.pop k d) = Dict.pop k d.
Proof. apply pop_absent, get_pop_eq. Qed.
End RosterDictLemmas.

Lemma roster_keys ps : map (fun e => fst (fst e)) (roster ps) = Dict.keys ps.
Proof. unfold roster, Dict.keys. rewrite map_map. reflexivity. Qed.

Lemma roster_set k p p' ps :
  Dict.get k ps = Some p ->
  Player.pid p' = Player.pid p -> Player.team p' = Player.team p ->
  roster (Dict.set k p' ps) = roster ps.
Proof.
  intros G Pi Te. induction ps as [|[k0 p0] r IH]; simpl in *; [discriminate|].
  revert G. destruct (k =? k0) eqn:E; simpl; intros G.
  - injection G as ->. now rewrite Pi, Te.
  - now rewrite IH.
Qed.

Lemma roster_map (h : Player.t -> Player.t) ps :
  (forall p, Player.pid (h p) = Player.pid p /\ Player.team (h p) = Player.team p) ->
  roster (map (fun kp => (fst kp, h (snd kp))) ps) = roster ps.
Proof.
  intros Hh. unfold roster. rewrite map_map. apply map_ext.
  intros [k p]. simpl. destruct (Hh p) as [-> ->]. reflexivity.
Qed.

Lemma pickup_flag_pid pid player flag :
  Player.pid (fst (pickup_flag pid player flag)) = Player.pid player
  /\ Player.x (fst (pickup_flag pid player flag)) = Player.x player
  /\ Player.y (fst (pickup_flag pid player flag)) = Player.y player.
Proof.
  unfold pickup_flag.
  destruct (String.eqb _ _); [auto|].
  destruct (Flag.carrier flag); [auto|].
  destruct (_ <=? _); [|auto]. simpl.
  destruct (String.eqb (Flag.team flag) "red"); auto.
Qed.

Lemma pickup_loop_pid pid fs : forall player,
  Player.pid (fst (pickup_loop pid player fs)) = Player.pid player
  /\ Player.x (fst (pickup_loop pid player fs)) = Player.x player
  /\ Player.y (fst (pickup_loop pid player fs)) = Player.y player.
Proof.
  induction fs as [|[k f] r IH]; intros player; simpl; [auto|].
  destruct (pickup_flag_pid pid player f) as (A & B & C).
  destruct (pickup_flag pid player f) as [p1 f1]. simpl in *.
  destruct (IH p1) as (A' & B' & C').
  destruct (pickup_loop pid p1 r) as [p2 r2]. simpl in *.
  repeat split; congruence.
Qed.

Lemma attempt_pickup_roster pid g :
  roster (players (attempt_pickup pid g)) = roster (players g).
Proof.
  unfold attempt_pickup.
  destruct (Dict.get pid (players g)) as [player|] eqn:G; [|reflexivity].
  destruct (pickup_loop_pid pid (flags g) player) as (Pi & _).
  destruct (pickup_loop_teams pid (flags g) player) as (Te & _).
  destruct (pickup_loop pid player (flags g)) as [p' fs']. simpl in *.
  now apply roster_set with (p := player).
Qed.

Lemma attempt_steal_roster draw a d t g :
  roster (players (attempt_steal draw a d t g)) = roster (players g).
Proof.
  unfold attempt_steal.
  destruct (Dict.get t (flags g)); [|reflexivity].
  destruct (Dict.get a (players g)) as [attacker|] eqn:GA; [|reflexivity].
  destruct (Dict.get d (players g)) as [defender|] eqn:GD; [|reflexivity].
  destruct (_ || _); [reflexivity|].
  destruct (String.eqb _ _) eqn:T; [reflexivity|].
  destruct (Qle_bool _ _); [reflexivity|]. simpl.
  assert (d <> a) as NE.
  { intros ->. rewrite GA in GD. injection GD as ->. now rewrite String.eqb_refl in T. }
  rewrite (roster_set a attacker); try reflexivity.
  - now apply roster_set with (p := defender).
  - now rewrite get_set_neq.
Qed.

Lemma handle_inputs_roster pid m g g' :
  handle_inputs pid m g = Ok g' -> roster (players g') = roster (players g).
Proof.
  intros E. pose proof (handle_inputs_cases pid m g) as C.
  destruct (Dict.get pid (players g)) as [p|] eqn:G.
  - destruct C as [C|[[e C]|(u & d & l & r & C)]]; rewrite C in E;
      try discriminate; injection E as <-; [reflexivity|].
    destruct (move_player_spec g u d l r p) as (_ & _ & Pi & Te & _).
    simpl. now apply roster_set with (p := p).
  - rewrite C in E. now injection E as <-.
Qed.

Lemma same_tables_refl s : same_tables s s.
Proof. repeat split. Qed.

Lemma same_tables_trans s1 s2 s3 :
  same_tables s1 s2 -> same_tables s2 s3 -> same_tables s1 s3.
Proof.
  intros (A & B & C & D & E) (A' & B' & C' & D' & E'). repeat split; congruence.
Qed.

Lemma same_tables_set_game s g :
  roster (players g) = roster (players (game s)) -> same_tables s (set_game g s).
Proof. intros R. repeat split. exact R. Qed.

Lemma process_queue_keys s pid :
  Dict.keys (input_queues (process_queue s pid)) = Dict.keys (input_queues s).
Proof.
  unfold process_queue. destruct (Dict.get pid (input_queues s)) eqn:G; [|reflexivity].
  simpl. apply keys_set_present. congruence.
Qed.

Lemma process_inputs_keys s :
  Dict.keys (input_queues (process_inputs s)) = Dict.keys (input_queues s).
Proof.
  unfold process_inputs. generalize (Dict.keys (input_queues s)) at 1 as pids.
  intros pids. revert s. induction pids as [|pid pids IH]; intros s; simpl; [reflexivity|].
  rewrite IH. apply process_queue_keys.
Qed.

Lemma process_inputs_same_tables s : same_tables s (process_inputs s).
Proof.
  pose proof (process_inputs_preserves
                (fun g => roster (players g) = roster (players (game s))) s) as P.
  destruct P as (R & N & So & Th & _).
  - intros pid m g g' Pg E. rewrite <- Pg. eapply handle_inputs_roster; eassumption.
  - reflexivity.
  - split; [exact R|]. split; [now rewrite So|].
    split; [apply process_inputs_keys|]. split; [now rewrite Th | exact N].
Qed.

(** Without any assumption on the tables: an evaluation that returns left
    the state alone or ran the scoring event of some player. *)
Lemma check_score_loop_ok items s s' :
  check_score_loop items s = Ok s' ->
  s' = s \/ exists player, carried_flags player <> [] /\ score_event player s = Ok s'.
Proof.
  induction items as [|[k p] items IH]; simpl.
  - intros [= <-]. now left.
  - destruct (carried_flags p) eqn:CF; [exact IH|].
    destruct (subscript (base_flag p) (flags (game s))) as [base|]; simpl; [|discriminate].
    destruct (in_base p base); [|exact IH].
    intros E. right. exists p. split; [congruence | exact E].
Qed.

Lemma score_event_ok player s s' :
  score_event player s = Ok s' ->
  exists sc, Dict.get (Player.team player) (scores (game s)) = Some sc.
Proof.
  unfold score_event, subscript.
  destruct (Dict.get (Player.team player) (scores (game s))) as [sc|]; [eauto | discriminate].
Qed.

Lemma roster_scored player sc g : roster (players (scored player sc g)) = roster (players g).
Proof. simpl. unfold clear_all_players. now apply roster_map. Qed.

Lemma check_score_same_tables s s' : check_score s = Ok s' -> same_tables s s'.
Proof.
  intros E. apply check_score_loop_ok in E as [-> | (player & _ & E)];
    [apply same_tables_refl|].
  destruct (score_event_ok player s s' E) as (sc & GS).
  destruct (score_event_game player s sc GS) as (s1 & E1 & G1 & N & Q & T & So).
  rewrite E1 in E. injection E as <-.
  repeat split; try congruence. rewrite G1. apply roster_scored.
Qed.

Lemma tick_same_tables s s' : tick s = Ok s' -> same_tables s s'.
Proof.
  unfold tick.
  destruct (check_score (set_game (update_flags (game (process_inputs s)))
                                  (process_inputs s))) as [s1|] eqn:E; simpl; [|discriminate].
  intros [= <-].
  apply same_tables_trans with (s2 := process_inputs s); [apply process_inputs_same_tables|].
  apply same_tables_trans
    with (s2 := set_game (update_flags (game (process_inputs s))) (process_inputs s));
    [apply same_tables_set_game; reflexivity|].
  apply same_tables_trans with (s2 := s1); [now apply check_score_same_tables|].
  repeat split.
Qed.

Lemma put_same_tables pid msg s : same_tables s (put pid msg s).
Proof.
  unfold put. destruct (Dict.get pid (input_queues s)) eqn:G; [|apply same_tables_refl].
  repeat split. simpl. apply keys_set_present. congruence.
Qed.

Section RosterSteps.
Variable json_loads : string -> result Json.

Lemma handle_line_same_tables draw pid line s s' :
  handle_line json_loads draw pid line s = Ok s' -> same_tables s s'.
Proof.
  unfold handle_line. destruct (json_loads line) as [[| | | | |o]|]; simpl; try discriminate.
  destruct (is_str "pickup" _).
  - intros [= <-]. apply same_tables_set_game, attempt_pickup_roster.
  - destruct (is_str "steal" _).
    + destruct (steal_request _ _ _ _ _) as [g'|] eqn:E; simpl; [|discriminate].
      intros [= <-]. apply steal_request_cases in E as [-> | (d & t & ->)].
      * apply same_tables_set_game. reflexivity.
      * apply same_tables_set_game, attempt_steal_roster.
    + intros [= <-]. apply put_same_tables.
Qed.

Lemma handle_lines_same_tables pid lines : forall draws s,
  same_tables s (fst (handle_lines json_loads draws pid lines s)).
Proof.
  induction lines as [|l lines IH]; intros draws s; simpl; [apply same_tables_refl|].
  destruct (handle_line json_loads (draws O) pid l s) as [s'|e] eqn:E; simpl;
    [|apply same_tables_refl].
  eapply same_tables_trans; [exact (handle_line_same_tables _ _ _ _ _ E) | apply IH].
Qed.

Lemma listener_recv_same_tables draws pid r th s th' s' :
  listener_recv json_loads draws pid r th s = (th', s') -> same_tables s s'.
Proof.
  unfold listener_recv. destruct r as [| |data].
  - intros [= _ <-]. apply put_same_tables.
  - intros [= _ <-]. apply put_same_tables.
  - destruct (String.eqb data ""); [intros [= _ <-]; apply put_same_tables|].
    destruct (split_lines _) as [lines rem].
    pose proof (handle_lines_same_tables pid lines draws s) as Q.
    destruct (handle_lines json_loads draws pid lines s) as [s1 [e|]]; simpl in Q;
      intros [= _ <-]; [|exact Q].
    eapply same_tables_trans; [exact Q | apply put_same_tables].
Qed.

Lemma roster_inv_same_tables s s' : same_tables s s' -> roster_inv s -> roster_inv s'.
Proof.
  intros (R & So & Qu & Th & Nx) (ND & A & B & C & D & E & F).
  unfold roster_inv.
  assert (Dict.keys (players (game s')) = Dict.keys (players (game s))) as K
      by (rewrite <- !roster_keys; now rewrite R).
  rewrite K, R, So, Qu, Th, Nx. repeat split; auto; apply E; assumption.
Qed.

Lemma roster_inv_init : roster_inv init_server.
Proof.
  unfold roster_inv. simpl. repeat split; try constructor; try lia; contradiction.
Qed.

Lemma team_of_pid_cases pid : team_of_pid pid = "red" \/ team_of_pid pid = "blue".
Proof. unfold team_of_pid. destruct (_ =? 1); auto. Qed.

Lemma roster_inv_accept s : roster_inv s -> roster_inv (accept s).
Proof.
  intros (ND & A & B & C & D & E & F). unfold accept.
  destruct (map_height (game s) - 200 =? 0).
  - unfold roster_inv. simpl. repeat split; auto; try lia.
    + apply (E k H).
    + specialize (E k H). lia.
  - assert (~ In (next_player_id s) (Dict.keys (players (game s)))) as Fresh.
    { intros I. specialize (E _ I). lia. }
    unfold roster_inv.
    cbn [game next_player_id client_sockets input_queues client_threads
         players set_players].
    rewrite !keys_set_absent by (apply get_None_keys; congruence).
    split; [|split; [|split; [|split; [|split; [|split]]]]]; try congruence; try lia.
    + apply NoDup_app; [exact ND | repeat constructor; simpl; tauto |].
      intros k I [<-|[]]. contradiction.
    + intros k I. apply in_app_iff in I as [I|[<-|[]]]; [specialize (E k I); lia | lia].
    + unfold roster. rewrite Forall_forall. intros e I.
      apply in_map_iff in I as ([k p] & <- & I). cbn [fst snd].
      apply in_set in I as [[= -> ->]|I].
      * split; reflexivity.
      * rewrite Forall_forall in F.
        apply (F (k, Player.pid p, Player.team p)).
        unfold roster. apply in_map_iff. exists (k, p). auto.
Qed.
End RosterSteps.

Lemma remove_player_tables pid s :
  Dict.keys (players (game (remove_player pid s)))
  = filter (fun k => negb (pid =? k)) (Dict.keys (players (game s)))
  /\ Dict.keys (client_sockets (remove_player pid s))
     = filter (fun k => negb (pid =? k)) (Dict.keys (client_sockets s))
  /\ Dict.keys (input_queues (remove_player pid s))
     = filter (fun k => negb (pid =? k)) (Dict.keys (input_queues s))
  /\ Dict.keys (client_threads (remove_player pid s))
     = filter (fun k => negb (pid =? k)) (Dict.keys (client_threads s))
  /\ next_player_id (remove_player pid s) = next_player_id s
  /\ players (game (remove_player pid s)) = Dict.pop pid (players (game s)).
Proof.
  rewrite remove_player_game. unfold remove_player.
  destruct (Dict.get pid (players (game s)));
    cbn [game players set_players set_flags set_game client_sockets input_queues
         client_threads next_player_id];
    repeat split; exact (keys_pop pid _).
Qed.

Lemma roster_inv_remove_player pid s : roster_inv s -> roster_inv (remove_player pid s).
Proof.
  intros (ND & A & B & C & D & E & F).
  destruct (remove_player_tables pid s) as (KP & KS & KQ & KT & N & P).
  unfold roster_inv. rewrite KP, KS, KQ, KT, N, P, A, B, C.
  split; [now apply NoDup_filter|]. repeat split; auto.
  - apply filter_In in H as [I _]. apply (E k I).
  - apply filter_In in H as [I _]. apply (E k I).
  - rewrite Forall_forall in *. intros e I. apply F.
    unfold roster in *. apply in_map_iff in I as (kp & <- & I).
    apply in_map_iff. exists kp. split; [reflexivity|]. now apply in_pop in I.
Qed.

Section RosterReachable.
Variable json_loads : string -> result Json.

Lemma roster_inv_step s s' : roster_inv s -> step json_loads s s' -> roster_inv s'.
Proof.
  intros Inv St. destruct St as [s s' R T | s | s pid th draws r th' s' G A L | s pid].
  - exact (roster_inv_same_tables s s' (tick_same_tables s s' T) Inv).
  - now apply roster_inv_accept.
  - pose proof (listener_recv_same_tables json_loads _ _ _ _ _ _ _ L) as ST.
    apply (roster_inv_same_tables s); [|exact Inv].
    destruct ST as (R & So & Qu & Th & Nx). repeat split; try assumption.
    simpl. rewrite keys_set_present; [exact Th|].
    intros N. apply get_None_keys in N. apply N. rewrite Th. apply get_In in G.
    change pid with (fst (pid, th)). now apply in_map.
  - now apply roster_inv_remove_player.
Qed.

Lemma reachable_roster_inv s : reachable json_loads s -> roster_inv s.
Proof.
  induction 1 as [|s s' _ IH St]; [exact roster_inv_init | exact (roster_inv_step s s' IH St)].
Qed.

Lemma step_keys s s' :
  roster_inv s -> step json_loads s s' ->
  next_player_id s <= next_player_id s'
  /\ forall k, In k (Dict.keys (players (game s'))) ->
               In k (Dict.keys (players (game s))) \/ k = next_player_id s.
Proof.
  intros Inv St. destruct St as [s s' R T | s | s pid th draws r th' s' G A L | s pid].
  - destruct (tick_same_tables s s' T) as (Ro & _ & _ & _ & Nx).
    split; [lia|]. intros k I. left. rewrite <- !roster_keys in *. now rewrite <- Ro.
  - unfold accept. destruct (map_height (game s) - 200 =? 0);
      cbn [game next_player_id players set_players]; split; try lia; auto.
    intros k I. destruct Inv as (_ & _ & _ & _ & _ & E & _).
    rewrite keys_set_absent in I.
    + apply in_app_iff in I as [I|[<-|[]]]; auto.
    + apply get_None_keys. intros I'. specialize (E _ I'). lia.
  - destruct (listener_recv_same_tables json_loads _ _ _ _ _ _ _ L) as (Ro & _ & _ & _ & Nx).
    simpl. split; [lia|]. intros k I. left. rewrite <- !roster_keys in *. now rewrite <- Ro.
  - destruct (remove_player_tables pid s) as (KP & _ & _ & _ & N & _).
    split; [lia|]. intros k I. left. rewrite KP in I. now apply filter_In in I.
Qed.

(** X4. In every state the server can reach, the players, sockets,
    queues and threads tables list the same identifiers, each once; every
    player sits under its own identifier, which was handed out already and
    whose parity gives the team (odd red, even blue).  A step never lowers
    the next identifier, and the only identifier it can add is the next
    one: identifiers are not used twice. *)
Theorem identifiers_are_unique_and_fresh (s : Server) :
  reachable json_loads s ->
  NoDup (Dict.keys (players (game s)))
  /\ Dict.keys (client_sockets s) = Dict.keys (players (game s))
  /\ Dict.keys (input_queues s) = Dict.keys (players (game s))
  /\ Dict.keys (client_threads s) = Dict.keys (players (game s))
  /\ (forall k p, Dict.get k (players (game s)) = Some p ->
        Player.pid p = k
        /\ Player.team p = team_of_pid k
        /\ 1 <= k < next_player_id s)
  /\ (forall s', step json_loads s s' ->
        next_player_id s <= next_player_id s'
        /\ forall k, In k (Dict.keys (players (game s'))) ->
                     In k (Dict.keys (players (game s))) \/ k = next_player_id s).
Proof.
  intros Re. pose proof (reachable_roster_inv s Re) as Inv.
  destruct Inv as (ND & A & B & C & D & E & F).
  split; [exact ND|]. split; [exact A|]. split; [exact B|]. split; [exact C|]. split.
  - intros k p G. apply get_In in G.
    rewrite Forall_forall in F.
    destruct (F (k, Player.pid p, Player.team p)) as [Pi Te].
    { unfold roster. apply in_map_iff. exists (k, p). auto. }
    simpl in Pi, Te. split; [exact Pi|]. split; [exact Te|].
    apply E. change k with (fst (k, p)). now apply in_map.
  - intros s' St. apply step_keys; [|exact St]. now apply reachable_roster_inv.
Qed.
End RosterReachable.

(** In the state both carriers are in, and across the accept that
    follows it. *)
Lemma identifiers_are_unique_and_fresh_witness :
  Dict.keys (players (game both_carry_server)) = [1; 2]
  /\ next_player_id both_carry_server = 3
  /\ Dict.keys (players (game (accept both_carry_server))) = [1; 2; 3]
  /\ (forall k, In k (Dict.keys (players (game (accept both_carry_server)))) ->
                In k (Dict.keys (players (game both_carry_server)))
                \/ k = next_player_id both_carry_server).
Proof.
  split; [reflexivity|]. split; [reflexivity|]. split; [reflexivity|].
  destruct (identifiers_are_unique_and_fresh loads_frames both_carry_server
              both_carry_reachable) as (_ & _ & _ & _ & _ & Fresh).
  exact (proj2 (Fresh (accept both_carry_server) (step_accept _ _))).
Defined.

(** ** Draining the queues *)

Section AppDictLemmas.
Context {K V : Type} `{KeyEqb K}.
Implicit Types (k : K) (v : V) (d : list (K * V)).

Lemma get_app_absent k d1 d2 :
  ~ In k (Dict.keys d1) -> Dict.get k (d1 ++ d2) = Dict.get k d2.
Proof.
  induction d1 as [|[k' v'] r IH]; simpl; [reflexivity|].
  intros N. destruct (keqb k k') eqn:E.
  - apply keqb_eq in E. subst. exfalso. auto.
  - apply IH. tauto.
Qed.

Lemma set_app_absent k v d1 d2 :
  ~ In k (Dict.keys d1) -> Dict.set k v (d1 ++ d2) = (d1 ++ Dict.set k v d2)%list.
Proof.
  induction d1 as [|[k' v'] r IH]; simpl; [reflexivity|].
  intros N. destruct (keqb k k') eqn:E.
  - apply keqb_eq in E. subst. exfalso. auto.
  - rewrite IH; tauto.
Qed.
End AppDictLemmas.

Lemma server_eta s :
  mkServer (game s) (next_player_id s) (client_sockets s) (input_queues s)
           (client_threads s) (running s) (broadcasts s) = s.
Proof. now destruct s. Qed.

Lemma process_inputs_from todo : forall done s,
  input_queues s = (done ++ todo)%list ->
  NoDup (Dict.keys (done ++ todo)) ->
  fold_left process_queue (Dict.keys todo) s
  = set_input_queues (done ++ emptied todo) (set_game (drain_all todo (game s)) s).
Proof.
  induction todo as [|[k q] rest IH]; intros done s Q ND; simpl.
  - unfold set_input_queues, set_game. simpl. rewrite <- Q. symmetry. apply server_eta.
  - assert (~ In k (Dict.keys done)) as Fresh.
    { unfold Dict.keys in ND. rewrite map_app in ND. simpl in ND.
      apply NoDup_remove_2 in ND. intros I. apply ND. apply in_app_iff. now left. }
    assert (process_queue s k
            = set_input_queues ((done ++ [(k, [])]) ++ rest)
                               (set_game (drain k q (game s)) s)) as ->.
    { unfold process_queue. rewrite Q, get_app_absent by assumption. simpl.
      rewrite Z.eqb_refl. rewrite set_app_absent by assumption. simpl.
      rewrite Z.eqb_refl. now rewrite <- app_assoc. }
    rewrite (IH (done ++ [(k, [])])%list).
    + unfold set_input_queues, set_game. simpl. now rewrite <- app_assoc.
    + reflexivity.
    + unfold Dict.keys in *. rewrite !map_app in *. simpl in *.
      now rewrite <- app_assoc.
Qed.

Lemma process_inputs_eq s :
  NoDup (Dict.keys (input_queues s)) ->
  process_inputs s
  = set_input_queues (emptied (input_queues s))
                     (set_game (drain_all (input_queues s) (game s)) s).
Proof.
  intros ND. unfold process_inputs.
  exact (process_inputs_from (input_queues s) [] s eq_refl ND).
Qed.

Lemma drain_app pid q1 q2 g : drain pid (q1 ++ q2) g = drain pid q2 (drain pid q1 g).
Proof. unfold drain. apply fold_left_app. Qed.

Lemma drain_flags_scores pid q g :
  flags (drain pid q g) = flags g /\ scores (drain pid q g) = scores g.
Proof.
  apply (drain_preserves (fun g' => flags g' = flags g /\ scores g' = scores g));
    [|auto].
  intros pid' m g1 g2 [F S] E. pose proof (handle_inputs_cases pid' m g1) as C.
  destruct (Dict.get pid' (players g1)).
  - destruct C as [C|[[e C]|(u & d & l & r & C)]]; rewrite C in E;
      try discriminate; injection E as <-; auto.
  - rewrite C in E. injection E as <-. auto.
Qed.

Lemma drain_all_flags_scores qs : forall g,
  flags (drain_all qs g) = flags g /\ scores (drain_all qs g) = scores g.
Proof.
  unfold drain_all. induction qs as [|[k q] qs IH]; intros g; simpl; [auto|].
  destruct (IH (drain k q g)) as [F S].
  destruct (drain_flags_scores k q g) as [F' S']. split; congruence.
Qed.

Lemma drain_all_emptied qs g : drain_all (emptied qs) g = g.
Proof.
  unfold drain_all, emptied. induction qs as [|[k q] qs IH]; simpl; [reflexivity|].
  exact IH.
Qed.

(** X5. When no identifier has two queues, [process_inputs] handles
    the messages of every queue once, queue after queue in table order and
    each queue front to back, and leaves every queue empty; flags, scores
    and the rest of the server are not touched. *)
Theorem process_inputs_drains_every_queue (s : Server) :
  NoDup (Dict.keys (input_queues s)) ->
  game (process_inputs s) = drain_all (input_queues s) (game s)
  /\ input_queues (process_inputs s) = emptied (input_queues s)
  /\ flags (game (process_inputs s)) = flags (game s)
  /\ scores (game (process_inputs s)) = scores (game s)
  /\ next_player_id (process_inputs s) = next_player_id s
  /\ client_sockets (process_inputs s) = client_sockets s
  /\ client_threads (process_inputs s) = client_threads s
  /\ running (process_inputs s) = running s
  /\ broadcasts (process_inputs s) = broadcasts s
  /\ process_inputs (process_inputs s) = process_inputs s.
Proof.
  intros ND. rewrite (process_inputs_eq s ND).
  destruct (drain_all_flags_scores (input_queues s) (game s)) as [F S].
  repeat split; try assumption.
  rewrite process_inputs_eq.
  - unfold set_input_queues, set_game. simpl. rewrite drain_all_emptied.
    unfold emptied. rewrite map_map. reflexivity.
  - simpl. unfold emptied, Dict.keys. rewrite map_map. exact ND.
Qed.

(** The queues of both carriers hold 150 inputs each; the tick's first
    phase walks both players home and empties the queues. *)
Lemma process_inputs_drains_every_queue_witness :
  List.map (fun kq => List.length (snd kq)) (input_queues both_head_home)
  = [150%nat; 150%nat]
  /\ input_queues (process_inputs both_head_home) = [(1, []); (2, [])]
  /\ game (process_inputs both_head_home)
     = drain_all (input_queues both_head_home) (game both_head_home).
Proof.
  split; [vm_compute; reflexivity|].
  destruct (process_inputs_drains_every_queue both_head_home) as (G & Q & _).
  - vm_compute. repeat constructor; simpl; intuition discriminate.
  - split; [rewrite Q; vm_compute; reflexivity | exact G].
Defined.

(** ** Messages that are not inputs *)

Lemma handle_inputs_not_input pid m g :
  is_str "input" (Dict.get "type" m) = false -> handle_inputs pid m g = Ok g.
Proof.
  intros T. unfold handle_inputs. destruct (Dict.get pid (players g)); [|reflexivity].
  now rewrite T.
Qed.

Lemma drain_all_set_snoc pid (m : JDict) qs : forall q g,
  is_str "input" (Dict.get "type" m) = false ->
  Dict.get pid qs = Some q ->
  drain_all (Dict.set pid (q ++ [m])%list qs) g = drain_all qs g.
Proof.
  unfold drain_all. induction qs as [|[k q0] qs IH]; intros q g T G; simpl in *;
    [discriminate|].
  revert G. destruct (pid =? k) eqn:E; simpl; intros G.
  - injection G as ->. apply Z.eqb_eq in E. subst k.
    rewrite drain_app. unfold drain at 2. simpl.
    now rewrite (handle_inputs_not_input pid m _ T).
  - now apply IH.
Qed.

Lemma emptied_keys qs qs' : Dict.keys qs = Dict.keys qs' -> emptied qs = emptied qs'.
Proof.
  unfold emptied, Dict.keys. revert qs'.
  induction qs as [|[k q] qs IH]; intros [|[k' q'] qs']; simpl; try discriminate;
    [reflexivity|].
  intros [= -> K]. now rewrite (IH qs' K).
Qed.

Lemma process_inputs_put pid (m : JDict) s :
  NoDup (Dict.keys (input_queues s)) ->
  is_str "input" (Dict.get "type" m) = false ->
  process_inputs (put pid m s) = process_inputs s.
Proof.
  intros ND T. unfold put.
  destruct (Dict.get pid (input_queues s)) as [q|] eqn:G; [|reflexivity].
  assert (Dict.keys (Dict.set pid (q ++ [m])%list (input_queues s))
          = Dict.keys (input_queues s)) as K by (apply keys_set_present; congruence).
  rewrite process_inputs_eq
    by (unfold set_input_queues; cbn [input_queues]; exact (eq_ind_r (@NoDup Z) ND K)).
  rewrite (process_inputs_eq s ND).
  unfold set_input_queues, set_game. cbn [input_queues game].
  f_equal.
  - exact (drain_all_set_snoc pid m _ q _ T G).
  - exact (emptied_keys _ _ K).
Qed.

Section LostConnection.
Variable json_loads : string -> result Json.

(** X6. A failed read, bytes that do not decode and the end of the
    stream all stop the listener and put a disconnect message on the
    connection's queue.  That message, like every queued message whose type
    is not [input], has no effect: the tick that consumes it computes
    exactly what it would have computed without it, so the player of a
    broken connection stays in the game. *)
Theorem lost_connection_keeps_the_player
        (draws : nat -> Q) (pid : Z) (th : Thread) (s : Server) :
  NoDup (Dict.keys (input_queues s)) ->
  (forall r, r = RecvError \/ r = RecvUndecodable \/ r = RecvData EmptyString ->
             listener_recv json_loads draws pid r th s
             = (stopped th, put pid disconnect_msg s))
  /\ tick (put pid disconnect_msg s) = tick s
  /\ (forall m, is_str "input" (Dict.get "type" m) = false ->
                tick (put pid m s) = tick s).
Proof.
  intros ND. split; [|split].
  - intros r [-> | [-> | ->]]; reflexivity.
  - unfold tick. now rewrite process_inputs_put.
  - intros m T. unfold tick. now rewrite process_inputs_put.
Qed.
End LostConnection.

(** The connection of player 1 breaks while it carries the blue flag:
    after the next tick player 1 is still listed, still carrying. *)
Lemma lost_connection_keeps_the_player_witness :
  listener_recv loads_frames no_draws 1 RecvError (mkThread "" true) both_carry_server
  = (mkThread "" false, put 1 disconnect_msg both_carry_server)
  /\ tick (put 1 disconnect_msg both_carry_server) = tick both_carry_server
  /\ exists s', tick (put 1 disconnect_msg both_carry_server) = Ok s'
                /\ Dict.get 1 (players (game s'))
                   = Some (Player.mk 1 948 299 "red" false true).
Proof.
  destruct (lost_connection_keeps_the_player loads_frames no_draws 1 (mkThread "" true)
              both_carry_server) as (Stop & Same & _).
  - vm_compute. repeat constructor; simpl; intuition discriminate.
  - split; [apply Stop; now left|]. split; [exact Same|].
    rewrite Same. eexists. split; vm_compute; reflexivity.
Defined.

(** ** Flags follow their carriers *)

Lemma update_flag_idem ps f : update_flag ps (update_flag ps f) = update_flag ps f.
Proof.
  unfold update_flag. destruct (Flag.carrier f) as [c|] eqn:C.
  - destruct (Dict.get c ps) as [p|] eqn:G; simpl.
    + rewrite C, G. reflexivity.
    + reflexivity.
  - rewrite C. reflexivity.
Qed.

Lemma update_flag_follows ps f : flag_follows ps (update_flag ps f).
Proof.
  unfold flag_follows, update_flag. destruct (Flag.carrier f) as [c|] eqn:C.
  - destruct (Dict.get c ps) as [p|] eqn:G; simpl; [|exact I].
    rewrite C. exists p. auto.
  - now rewrite C.
Qed.

Lemma get_map_snd {V W : Type} (h : V -> W) (k : string) (l : list (string * V)) :
  Dict.get k (map (fun kv => (fst kv, h (snd kv))) l) = option_map h (Dict.get k l).
Proof.
  induction l as [|[k0 v] l IH]; simpl; [reflexivity|].
  destruct (String.eqb k k0); [reflexivity | exact IH].
Qed.

Lemma flags_follow_update_flags g : flags_follow (update_flags g).
Proof.
  intros t f I. unfold update_flags in I. cbn [flags set_flags players] in *.
  apply in_map_iff in I as ([t0 f0] & [= <- <-] & _).
  apply update_flag_follows.
Qed.

(** X7. [update_flags] touches the flags only.  Afterwards every flag that
    still has a carrier lies at the position of that carrier, who is a
    listed player; a free flag is left as it was; a flag whose carrier is
    no longer listed is back at its spawn point with no carrier; and a
    second pass changes nothing. *)
Theorem update_flags_settles_every_flag (g : Game_State) :
  players (update_flags g) = players g
  /\ scores (update_flags g) = scores g
  /\ Dict.keys (flags (update_flags g)) = Dict.keys (flags g)
  /\ flags_follow (update_flags g)
  /\ (forall t f, Dict.get t (flags g) = Some f -> Flag.carrier f = None ->
                  Dict.get t (flags (update_flags g)) = Some f)
  /\ (forall t f c, Dict.get t (flags g) = Some f -> Flag.carrier f = Some c ->
                    Dict.get c (players g) = None ->
                    exists f', Dict.get t (flags (update_flags g)) = Some f'
                               /\ Flag.carrier f' = None
                               /\ Flag.x f' = Flag.spawn_x f
                               /\ Flag.y f' = Flag.spawn_y f)
  /\ update_flags (update_flags g) = update_flags g.
Proof.
  split; [reflexivity|]. split; [reflexivity|]. split; [|split; [|split; [|split]]].
  - unfold update_flags, Dict.keys. cbn [flags set_flags].
    rewrite map_map. reflexivity.
  - apply flags_follow_update_flags.
  - intros t f G C. unfold update_flags. cbn [flags set_flags].
    rewrite get_map_snd, G. simpl. unfold update_flag. now rewrite C.
  - intros t f c G C N. unfold update_flags. cbn [flags set_flags].
    rewrite get_map_snd, G. simpl. unfold update_flag. rewrite C, N.
    eexists. split; [reflexivity|]. simpl. auto.
  - unfold update_flags. cbn [flags set_flags players]. unfold set_flags.
    cbn [players scores map_width map_height]. f_equal.
    rewrite map_map. apply map_ext. intros [t f]. simpl.
    now rewrite update_flag_idem.
Qed.


Lemma process_inputs_sockets s :
  client_sockets (process_inputs s) = client_sockets s
  /\ running (process_inputs s) = running s
  /\ broadcasts (process_inputs s) = broadcasts s.
Proof.
  destruct (process_inputs_preserves (fun _ => True) s) as (_ & _ & So & _ & R & B); auto.
Qed.


Lemma tick_log (s s' : Server) :
  tick s = Ok s' ->
  exists overs,
    broadcasts s'
    = (broadcasts s ++ overs ++ [(Dict.keys (client_sockets s), serialize s')])%list
    /\ (overs = [] /\ running s' = running s
        \/ exists team, overs = [(Dict.keys (client_sockets s), MsgOver team)]
                        /\ running s' = false).
Proof.
  unfold tick. destruct (process_inputs_sockets s) as (So & R & B).
  set (s1 := process_inputs s) in *.
  set (s2 := set_game (update_flags (game s1)) s1).
  destruct (check_score s2) as [s3|] eqn:E; simpl; [|discriminate].
  intros [= <-].
  unfold check_score in E. apply check_score_loop_ok in E as [-> | (player & _ & E)].
  - exists []. split; [|left; split; [reflexivity | exact R]].
    subst s2. unfold broadcast, serialize, set_game.
    cbn [broadcasts client_sockets game]. now rewrite B, So.
  - destruct (score_event_ok player s2 s3 E) as (sc & GS).
    rewrite (score_event_eq player s2 sc GS) in E. cbv zeta in E.
    destruct (SCORE_TO_WIN <=? _); injection E as <-.
    + exists [(Dict.keys (client_sockets s), MsgOver (Player.team player))].
      split; [|right; eexists; split; reflexivity].
      subst s2. unfold broadcast, serialize, set_running, set_game.
      cbn [broadcasts client_sockets game running]. rewrite B, So, <- app_assoc.
      reflexivity.
    + exists []. split; [|left; split; [reflexivity | exact R]].
      subst s2. unfold broadcast, serialize, set_game.
      cbn [broadcasts client_sockets game]. now rewrite B, So.
Qed.



(** ** Removing a player twice *)

Lemma remove_player_absent pid s :
  Dict.get pid (players (game s)) = None ->
  remove_player pid s
  = mkServer (game s) (next_player_id s)
             (Dict.pop pid (client_sockets s)) (Dict.pop pid (input_queues s))
             (Dict.pop pid (client_threads s)) (running s) (broadcasts s).
Proof.
  intros N. unfold remove_player. rewrite N.
  rewrite (pop_absent pid _ N). unfold set_players. now rewrite game_eta.
Qed.

(** X9. [remove_player] may be called again for the same player, or for an
    identifier that was never given out, without harm: the second call
    changes nothing, and a call for an identifier that is in none of the
    four tables returns the state as it was.  In particular no flag is
    reset by the second call. *)
Theorem remove_player_twice_is_once (pid : Z) (s : Server) :
  remove_player pid (remove_player pid s) = remove_player pid s
  /\ (Dict.get pid (players (game s)) = None ->
      Dict.get pid (client_sockets s) = None ->
      Dict.get pid (input_queues s) = None ->
      Dict.get pid (client_threads s) = None ->
      remove_player pid s = s).
Proof.
  split.
  - destruct (remove_player_tables pid s) as (_ & _ & _ & _ & _ & P).
    rewrite remove_player_absent by (rewrite P; apply get_pop_eq).
    assert (client_sockets (remove_player pid s) = Dict.pop pid (client_sockets s)
            /\ input_queues (remove_player pid s) = Dict.pop pid (input_queues s)
            /\ client_threads (remove_player pid s) = Dict.pop pid (client_threads s))
      as (So & Q & T)
      by (unfold remove_player; destruct (Dict.get pid (players (game s)));
          repeat split).
    set (s' := remove_player pid s) in *.
    rewrite <- (server_eta s') at 8.
    f_equal; [rewrite So | rewrite Q | rewrite T]; apply pop_pop.
  - intros P So Q T. rewrite (remove_player_absent pid s P).
    rewrite (pop_absent pid _ So), (pop_absent pid _ Q), (pop_absent pid _ T).
    apply server_eta.
Qed.

(** ** Framing *)

Lemma append_assoc (a b c : string) : ((a ++ b) ++ c = a ++ (b ++ c))%string.
Proof. induction a as [|x a IH]; simpl; [reflexivity | now rewrite IH]. Qed.

Lemma append_empty_r (a : string) : (a ++ "")%string = a.
Proof. induction a as [|x a IH]; simpl; [reflexivity | now rewrite IH]. Qed.

Lemma split_lines_app (a b : string) :
  split_lines (a ++ b)
  = let '(la, ra) := split_lines a in
    let '(lb, rb) := split_lines (ra ++ b) in
    ((la ++ lb)%list, rb).
Proof.
  induction a as [|c r IH]; simpl.
  - now destruct (split_lines b).
  - rewrite IH. destruct (split_lines r) as [lr rr].
    destruct (Ascii.eqb c newline) eqn:E.
    + destruct (split_lines (rr ++ b)) as [lb rb]. reflexivity.
    + destruct lr as [|l lr']; simpl.
      * rewrite E. destruct (split_lines (rr ++ b)) as [[|l lb] rb]; reflexivity.
      * destruct (split_lines (rr ++ b)) as [lb rb]. reflexivity.
Qed.

Lemma split_lines_join (b : string) :
  (join_lines (fst (split_lines b)) ++ snd (split_lines b))%string = b.
Proof.
  induction b as [|c r IH]; simpl; [reflexivity|].
  destruct (split_lines r) as [ls rem]. simpl in IH.
  destruct (Ascii.eqb c newline) eqn:E.
  - apply Ascii.eqb_eq in E. subst c. simpl. now rewrite IH.
  - destruct ls as [|l ls]; simpl in *; now rewrite IH.
Qed.

Lemma split_lines_no_newline (b : string) :
  Forall (fun l => has_newline l = false) (fst (split_lines b))
  /\ has_newline (snd (split_lines b)) = false.
Proof.
  induction b as [|c r (IHl & IHr)]; simpl; [split; [constructor | reflexivity]|].
  destruct (split_lines r) as [ls rem]. simpl in *.
  destruct (Ascii.eqb c newline) eqn:E; simpl.
  - split; [constructor; [reflexivity | exact IHl] | exact IHr].
  - destruct ls as [|l ls]; simpl.
    + split; [constructor | now rewrite E].
    + inversion IHl as [|? ? Hl Hls]; subst.
      split; [constructor; [simpl; now rewrite E | exact Hls] | exact IHr].
Qed.

Lemma split_lines_plain (b : string) :
  has_newline b = false -> split_lines b = ([], b).
Proof.
  induction b as [|c r IH]; simpl; [reflexivity|].
  destruct (Ascii.eqb c newline); simpl; [discriminate|].
  intros H. now rewrite (IH H).
Qed.

Lemma split_lines_line (l rest : string) :
  has_newline l = false ->
  split_lines (l ++ String newline rest)
  = (l :: fst (split_lines rest), snd (split_lines rest)).
Proof.
  induction l as [|c r IH]; simpl.
  - intros _. now destruct (split_lines rest).
  - destruct (Ascii.eqb c newline); simpl; [discriminate|].
    intros H. now rewrite (IH H).
Qed.

Lemma split_lines_of_join (ls : list string) (rem : string) :
  Forall (fun l => has_newline l = false) ls -> has_newline rem = false ->
  split_lines (join_lines ls ++ rem) = (ls, rem).
Proof.
  intros F R. induction F as [|l ls Hl F IH]; simpl.
  - now apply split_lines_plain.
  - rewrite append_assoc. simpl. rewrite (split_lines_line l _ Hl), IH. reflexivity.
Qed.

(** X10. The framing of the receive path.  Cutting the buffer gives the
    complete lines and the unfinished rest: put together again, each line
    followed by the delimiter, they are the buffer; no line and no rest
    contains the delimiter; and any text built from delimiter-free lines and
    a delimiter-free rest is cut into exactly these.  Where the stream is
    cut into reads does not matter: cutting [a ++ b] gives the lines of [a]
    followed by the lines of what [a] left over with [b] appended. *)
Theorem split_lines_frames_the_stream (a b : string) :
  (join_lines (fst (split_lines a)) ++ snd (split_lines a))%string = a
  /\ Forall (fun l => has_newline l = false) (fst (split_lines a))
  /\ has_newline (snd (split_lines a)) = false
  /\ (forall ls rem, Forall (fun l => has_newline l = false) ls ->
                     has_newline rem = false ->
                     split_lines (join_lines ls ++ rem) = (ls, rem))
  /\ split_lines (a ++ b)
     = ((fst (split_lines a) ++ fst (split_lines (snd (split_lines a) ++ b)))%list,
        snd (split_lines (snd (split_lines a) ++ b))).
Proof.
  split; [apply split_lines_join|].
  split; [apply split_lines_no_newline|].
  split; [apply split_lines_no_newline|].
  split; [intros ls rem; apply split_lines_of_join|].
  rewrite split_lines_app. destruct (split_lines a) as [la ra]. simpl.
  now destruct (split_lines (ra ++ b)).
Qed.

Section Reads.
Variable json_loads : string -> result Json.

Lemma handle_line_running draw pid line s s' :
  handle_line json_loads draw pid line s = Ok s' -> running s' = running s.
Proof.
  unfold handle_line. destruct (json_loads line) as [[| | | | |o]|]; simpl; try discriminate.
  destruct (is_str "pickup" _); [now intros [= <-]|].
  destruct (is_str "steal" _).
  - destruct (steal_request _ _ _ _ _); simpl; [now intros [= <-] | discriminate].
  - intros [= <-]. unfold put. now destruct (Dict.get pid (input_queues s)).
Qed.

Lemma handle_lines_running pid lines : forall draws s,
  running (fst (handle_lines json_loads draws pid lines s)) = running s.
Proof.
  induction lines as [|l lines IH]; intros draws s; simpl; [reflexivity|].
  destruct (handle_line json_loads (draws O) pid l s) as [s'|e] eqn:E; [|reflexivity].
  rewrite IH. exact (handle_line_running _ _ _ _ _ E).
Qed.

(** X11. For ASCII text the server handles the stream of a connection,
    not its reads.  Take a read of ASCII text, no longer than one [recv] can
    return, and cut it anywhere into two non-empty pieces [a] and [b]: the
    two reads leave the server in the state that the single read [a ++ b]
    leaves it in, the random draws being used up line by line, and the
    listener is alive after the one exactly when it is alive after the
    other, with the same unfinished rest in its buffer.  The restriction
    matters: the bytes of each read are decoded on their own, so a cut
    inside a character of several bytes gives a read that does not decode,
    and that ends the listener. *)
Theorem ascii_reads_can_be_cut_anywhere
        (draws : nat -> Q) (pid : Z) (a b : string) (th : Thread) (s : Server) :
  is_ascii_text a = true -> is_ascii_text b = true ->
  (String.length (a ++ b) <= BUFFER_SIZE)%nat ->
  a <> EmptyString -> b <> EmptyString ->
  let n := List.length (fst (split_lines (buffer th ++ a))) in
  let one := client_listener json_loads pid [(RecvData (a ++ b), draws)] th s in
  let two := client_listener json_loads pid
               [(RecvData a, draws); (RecvData b, fun i => draws (n + i)%nat)] th s in
  snd one = snd two
  /\ alive (fst one) = alive (fst two)
  /\ (alive (fst one) = true -> buffer (fst one) = buffer (fst two)).
Proof.
  intros _ _ _ Ha Hb n one two. subst one two. cbn [client_listener].
  destruct (running s && alive th) eqn:RA; [|simpl; auto].
  assert (forall d dr t0 s0, d <> EmptyString ->
            listener_recv json_loads dr pid (RecvData d) t0 s0
            = match handle_lines json_loads dr pid (fst (split_lines (buffer t0 ++ d))) s0 with
              | (s', None) => (mkThread (snd (split_lines (buffer t0 ++ d))) true, s')
              | (s', Some _) => (stopped t0, put pid disconnect_msg s')
              end) as L.
  { intros d dr t0 s0 Hd. unfold listener_recv.
    apply String.eqb_neq in Hd. rewrite Hd.
    now destruct (split_lines (buffer t0 ++ d)). }
  assert (a ++ b <> EmptyString)%string as Hab by (destruct a; [congruence | discriminate]).
  rewrite (L (a ++ b)%string draws th s Hab), (L a draws th s Ha).
  rewrite <- append_assoc, split_lines_app. subst n.
  destruct (split_lines (buffer th ++ a)) as [la ra]. cbn [fst snd].
  destruct (split_lines (ra ++ b)) as [lb rb] eqn:Sb. cbn [fst snd].
  rewrite handle_lines_app.
  pose proof (handle_lines_running pid la draws s) as R1.
  destruct (handle_lines json_loads draws pid la s) as [s1 [e|]]; cbn [fst] in R1.
  - assert (running (put pid disconnect_msg s1) && alive (stopped th) = false) as ->
      by (simpl; apply andb_false_r).
    simpl. auto.
  - apply andb_true_iff in RA as (Rs & _).
    assert (running s1 && alive (mkThread ra true) = true) as ->
      by (simpl; rewrite R1, Rs; reflexivity).
    rewrite (L b _ (mkThread ra true) s1 Hb). cbn [buffer]. rewrite Sb. cbn [fst snd].
    destruct (handle_lines json_loads _ pid lb s1) as [s2 [e|]]; simpl; auto.
    repeat split. discriminate.
Qed.
End Reads.


(** Player 2, next to the red flag, sends a pickup frame that arrives in
    two pieces. *)
Lemma ascii_reads_can_be_cut_anywhere_witness :
  snd (client_listener loads_frames 2 [(RecvData (cut_head ++ cut_tail), no_draws)]
                       (mkThread "" true) blue_at_red_flag)
  = snd (client_listener loads_frames 2
           [(RecvData cut_head, no_draws); (RecvData cut_tail, no_draws)]
           (mkThread "" true) blue_at_red_flag)
  /\ Dict.get "red" (flags (game (snd (client_listener loads_frames 2
           [(RecvData cut_head, no_draws); (RecvData cut_tail, no_draws)]
           (mkThread "" true) blue_at_red_flag))))
     = Some (Flag.mk "red" 50 300 50 300 (Some 2)).
Proof.
  split; [|vm_compute; reflexivity].
  exact (proj1 (ascii_reads_can_be_cut_anywhere loads_frames no_draws 2 cut_head cut_tail
                  (mkThread "" true) blue_at_red_flag
                  eq_refl eq_refl ltac:(vm_compute; lia)
                  ltac:(discriminate) ltac:(discriminate))).
Defined.

(** ** Everything stays on the map *)

Lemma on_the_map_handle_inputs pid m g g' :
  on_the_map g -> handle_inputs pid m g = Ok g' -> on_the_map g'.
Proof.
  intros M E. pose proof M as (W & Hh & P & F).
  pose proof (handle_inputs_cases pid m g) as C.
  destruct (Dict.get pid (players g)) as [p|] eqn:G.
  - destruct C as [C|[[e C]|(u & d & l & r & C)]]; rewrite C in E;
      try discriminate; injection E as <-; [exact M|].
    split; [exact W|]. split; [exact Hh|]. split; [|exact F].
    intros k q I. cbn [players set_players] in I.
    destruct (in_set _ _ _ _ I) as [[= -> ->]|I']; [|exact (P _ _ I')].
    destruct (move_player_spec g u d l r p) as (X & Y & _).
    unfold on_map. rewrite X, Y, W, Hh.
    split; apply clamp_bounds; unfold MAP_WIDTH, MAP_HEIGHT; lia.
  - rewrite C in E. injection E as <-. exact M.
Qed.

Lemma on_the_map_update_flags g : on_the_map g -> on_the_map (update_flags g).
Proof.
  intros (W & Hh & P & F). split; [exact W|]. split; [exact Hh|]. split; [exact P|].
  intros t f I. unfold update_flags in I. cbn [flags set_flags] in I.
  apply in_map_iff in I as ([t0 f0] & [= <- <-] & I). cbn [snd].
  destruct (F _ _ I) as (Pos & Sp). unfold update_flag.
  destruct (Flag.carrier f0) as [c|]; [|auto].
  destruct (Dict.get c (players g)) as [p|] eqn:G; cbn; [|auto].
  split; [exact (P _ _ (get_In _ _ _ G)) | exact Sp].
Qed.

Lemma on_the_map_scored player sc g : on_the_map g -> on_the_map (scored player sc g).
Proof.
  intros (W & Hh & P & F). split; [exact W|]. split; [exact Hh|]. split.
  - intros k p I. cbn [players scored] in I. unfold clear_all_players in I.
    apply in_map_iff in I as ([k0 p0] & [= <- <-] & I). exact (P _ _ I).
  - intros t f I. cbn [flags scored] in I. unfold reset_all_flags in I.
    apply in_map_iff in I as ([t0 f0] & [= <- <-] & I).
    destruct (F _ _ I) as (_ & Sp). cbn. auto.
Qed.

Lemma on_the_map_check_score s s' :
  on_the_map (game s) -> check_score s = Ok s' -> on_the_map (game s').
Proof.
  intros M E. apply check_score_loop_ok in E as [-> | (player & _ & E)]; [exact M|].
  destruct (score_event_ok player s s' E) as (sc & GS).
  destruct (score_event_game player s sc GS) as (s1 & E1 & G1 & _).
  rewrite E1 in E. injection E as <-. rewrite G1. now apply on_the_map_scored.
Qed.

Lemma pickup_flag_position pid player flag :
  Flag.x (snd (pickup_flag pid player flag)) = Flag.x flag
  /\ Flag.y (snd (pickup_flag pid player flag)) = Flag.y flag
  /\ Flag.spawn_x (snd (pickup_flag pid player flag)) = Flag.spawn_x flag
  /\ Flag.spawn_y (snd (pickup_flag pid player flag)) = Flag.spawn_y flag.
Proof.
  unfold pickup_flag.
  destruct (String.eqb _ _); [auto|].
  destruct (Flag.carrier flag); [auto|].
  destruct (_ <=? _); [|auto]. simpl.
  destruct (String.eqb (Flag.team flag) "red"); auto.
Qed.

Lemma pickup_loop_position pid fs : forall player t f',
  In (t, f') (snd (pickup_loop pid player fs)) ->
  exists f, In (t, f) fs
            /\ Flag.x f' = Flag.x f /\ Flag.y f' = Flag.y f
            /\ Flag.spawn_x f' = Flag.spawn_x f /\ Flag.spawn_y f' = Flag.spawn_y f.
Proof.
  induction fs as [|[k f] r IH]; intros player t f'; simpl; [tauto|].
  pose proof (pickup_flag_position pid player f) as Pos.
  destruct (pickup_flag pid player f) as [p1 f1]. cbn [snd] in Pos.
  specialize (IH p1 t f').
  destruct (pickup_loop pid p1 r) as [p2 r2]. cbn [snd] in *.
  intros [[= <- <-]|I].
  - exists f. split; [now left | exact Pos].
  - destruct (IH I) as (f0 & I0 & Q). exists f0. split; [now right | exact Q].
Qed.

Lemma on_the_map_attempt_pickup pid g : on_the_map g -> on_the_map (attempt_pickup pid g).
Proof.
  intros M. pose proof M as (W & Hh & P & F). unfold attempt_pickup.
  destruct (Dict.get pid (players g)) as [player|] eqn:G; [|exact M].
  destruct (pickup_loop_pid pid (flags g) player) as (_ & X & Y).
  pose proof (pickup_loop_position pid (flags g) player) as Pos.
  destruct (pickup_loop pid player (flags g)) as [p' fs']. cbn [fst snd] in *.
  split; [exact W|]. split; [exact Hh|]. split.
  - intros k q I. cbn [players set_flags set_players] in I.
    destruct (in_set _ _ _ _ I) as [[= -> ->]|I']; [|exact (P _ _ I')].
    rewrite X, Y. exact (P _ _ (get_In _ _ _ G)).
  - intros t f I. cbn [flags set_flags] in I.
    destruct (Pos t f I) as (f0 & I0 & -> & -> & -> & ->). exact (F _ _ I0).
Qed.

Lemma on_the_map_attempt_steal draw a d t g :
  on_the_map g -> on_the_map (attempt_steal draw a d t g).
Proof.
  intros M. pose proof M as (W & Hh & P & F). unfold attempt_steal.
  destruct (Dict.get t (flags g)) as [flag|] eqn:GF; [|exact M].
  destruct (Dict.get a (players g)) as [attacker|] eqn:GA; [|exact M].
  destruct (Dict.get d (players g)) as [defender|] eqn:GD; [|exact M].
  destruct (_ || _); [exact M|].
  destruct (String.eqb _ _); [exact M|].
  destruct (Qle_bool _ _); [exact M|].
  pose proof (P _ _ (get_In _ _ _ GA)) as Pa.
  pose proof (P _ _ (get_In _ _ _ GD)) as Pd.
  split; [exact W|]. split; [exact Hh|]. split.
  - intros k q I. cbn [players set_flags set_players] in I.
    destruct (in_set _ _ _ _ I) as [[= -> ->]|I']; [exact Pa|].
    destruct (in_set _ _ _ _ I') as [[= -> ->]|I'']; [exact Pd | exact (P _ _ I'')].
  - intros t0 f I. cbn [flags set_flags] in I.
    destruct (in_set _ _ _ _ I) as [[= -> ->]|I']; [|exact (F _ _ I')].
    cbn. split; [exact Pa | exact (proj2 (F _ _ (get_In _ _ _ GF)))].
Qed.

Lemma on_the_map_accept s : on_the_map (game s) -> on_the_map (game (accept s)).
Proof.
  intros M. pose proof M as (W & Hh & P & F). unfold accept.
  destruct (map_height (game s) - 200 =? 0); [exact M|].
  set (y0 := 100 + _). set (x0 := if String.eqb _ "red" then _ else _).
  assert (on_map x0 y0) as B.
  { subst x0 y0. rewrite W, Hh. unfold on_map, MAP_WIDTH, MAP_HEIGHT.
    pose proof (Z.mod_pos_bound (next_player_id s * 37) (600 - 200) ltac:(lia)).
    destruct (next_player_id s mod 2 =? 1);
      [replace (String.eqb "red" "red") with true by reflexivity
      |replace (String.eqb "blue" "red") with false by reflexivity]; lia. }
  clearbody x0 y0.
  cbn [game]. split; [exact W|]. split; [exact Hh|]. split; [|exact F].
  intros k q I. cbn [players set_players] in I.
  destruct (in_set _ _ _ _ I) as [[= -> ->]|I']; [exact B | exact (P _ _ I')].
Qed.

Lemma on_the_map_release t fs :
  (forall t f, In (t, f) fs ->
     on_map (Flag.x f) (Flag.y f) /\ on_map (Flag.spawn_x f) (Flag.spawn_y f)) ->
  forall t0 f, In (t0, f) (release t fs) ->
     on_map (Flag.x f) (Flag.y f) /\ on_map (Flag.spawn_x f) (Flag.spawn_y f).
Proof.
  intros F t0 f. unfold release.
  destruct (Dict.get t fs) as [f0|] eqn:G; [|apply F].
  intros I. destruct (in_set _ _ _ _ I) as [[= -> ->]|I']; [|exact (F _ _ I')].
  destruct (F _ _ (get_In _ _ _ G)) as (_ & Sp). cbn. auto.
Qed.

Lemma on_the_map_remove_player pid s :
  on_the_map (game s) -> on_the_map (game (remove_player pid s)).
Proof.
  intros (W & Hh & P & F). rewrite remove_player_game.
  assert (forall k p, In (k, p) (Dict.pop pid (players (game s))) ->
                      on_map (Player.x p) (Player.y p)) as P'
    by (intros k p I; apply in_pop in I; exact (P _ _ I)).
  destruct (Dict.get pid (players (game s))) as [player|].
  - split; [exact W|]. split; [exact Hh|]. split; [exact P'|].
    cbn [flags set_flags].
    destruct (Player.red player), (Player.blue player);
      repeat apply on_the_map_release; exact F.
  - split; [exact W|]. split; [exact Hh|]. split; [exact P' | exact F].
Qed.

Lemma game_put pid m s : game (put pid m s) = game s.
Proof. unfold put. now destruct (Dict.get pid (input_queues s)). Qed.

Section OnTheMap.
Variable json_loads : string -> result Json.

Lemma on_the_map_handle_line draw pid line s s' :
  on_the_map (game s) -> handle_line json_loads draw pid line s = Ok s' ->
  on_the_map (game s').
Proof.
  intros M. unfold handle_line.
  destruct (json_loads line) as [[| | | | |o]|]; simpl; try discriminate.
  destruct (is_str "pickup" _).
  - intros [= <-]. now apply on_the_map_attempt_pickup.
  - destruct (is_str "steal" _).
    + destruct (steal_request _ _ _ _ _) as [g'|] eqn:E; simpl; [|discriminate].
      intros [= <-]. apply steal_request_cases in E as [-> | (d & t & ->)];
        [exact M | now apply on_the_map_attempt_steal].
    + intros [= <-]. now rewrite game_put.
Qed.

Lemma on_the_map_handle_lines pid lines : forall draws s,
  on_the_map (game s) ->
  on_the_map (game (fst (handle_lines json_loads draws pid lines s))).
Proof.
  induction lines as [|l lines IH]; intros draws s M; simpl; [exact M|].
  destruct (handle_line json_loads (draws O) pid l s) as [s'|e] eqn:E; [|exact M].
  apply IH. exact (on_the_map_handle_line _ _ _ _ _ M E).
Qed.

Lemma on_the_map_listener_recv draws pid r th s th' s' :
  on_the_map (game s) -> listener_recv json_loads draws pid r th s = (th', s') ->
  on_the_map (game s').
Proof.
  intros M. unfold listener_recv. destruct r as [| |data].
  - intros [= _ <-]. now rewrite game_put.
  - intros [= _ <-]. now rewrite game_put.
  - destruct (String.eqb data ""); [intros [= _ <-]; now rewrite game_put|].
    destruct (split_lines _) as [lines rem].
    pose proof (on_the_map_handle_lines pid lines draws s M) as Q.
    destruct (handle_lines json_loads draws pid lines s) as [s1 [e|]]; cbn [fst] in Q;
      intros [= _ <-]; [now rewrite game_put | exact Q].
Qed.

Lemma on_the_map_tick s s' : on_the_map (game s) -> tick s = Ok s' -> on_the_map (game s').
Proof.
  intros M. unfold tick.
  destruct (process_inputs_preserves on_the_map s on_the_map_handle_inputs M) as (M1 & _).
  set (s1 := process_inputs s) in *.
  destruct (check_score (set_game (update_flags (game s1)) s1)) as [s2|] eqn:E; simpl;
    [|discriminate].
  intros [= <-]. cbn [game broadcast].
  exact (on_the_map_check_score (set_game (update_flags (game s1)) s1) s2
           (on_the_map_update_flags _ M1) E).
Qed.

Lemma on_the_map_step s s' : on_the_map (game s) -> step json_loads s s' -> on_the_map (game s').
Proof.
  intros M St. destruct St as [s s' R T | s | s pid th draws r th' s' G A L | s pid].
  - exact (on_the_map_tick s s' M T).
  - now apply on_the_map_accept.
  - exact (on_the_map_listener_recv _ _ _ _ _ _ _ M L).
  - now apply on_the_map_remove_player.
Qed.

Lemma reachable_on_the_map s : reachable json_loads s -> on_the_map (game s).
Proof.
  induction 1 as [|s s' _ IH St]; [|exact (on_the_map_step s s' IH St)].
  split; [reflexivity|]. split; [reflexivity|]. split; [intros k p []|].
  intros t f [[= <- <-]|[[= <- <-]|[]]]; cbn; unfold on_map, MAP_WIDTH, MAP_HEIGHT; lia.
Qed.

(** X12. In every state the server can reach the map is the 1000 by 600
    one it was created with, every player stands inside it and every flag
    lies inside it: neither the spawn position [accept] computes, nor a
    movement, a pickup, a steal, a capture or a removal puts anything
    outside.  So every position a snapshot reports is inside the map. *)
Theorem positions_stay_on_the_map (s : Server) :
  reachable json_loads s ->
  map_width (game s) = 1000 /\ map_height (game s) = 600
  /\ (forall k p, In (k, p) (players (game s)) ->
        0 <= Player.x p <= 1000 /\ 0 <= Player.y p <= 600)
  /\ (forall t f, In (t, f) (flags (game s)) ->
        0 <= Flag.x f <= 1000 /\ 0 <= Flag.y f <= 600).
Proof.
  intros R. destruct (reachable_on_the_map s R) as (W & Hh & P & F).
  split; [exact W|]. split; [exact Hh|]. split.
  - intros k p I. exact (P k p I).
  - intros t f I. exact (proj1 (F t f I)).
Qed.
End OnTheMap.

(** Both carriers after their walks: players and flags are inside. *)
Lemma positions_stay_on_the_map_witness :
  map_width (game both_carry_server) = 1000 /\ map_height (game both_carry_server) = 600
  /\ (forall k p, In (k, p) (players (game both_carry_server)) ->
        0 <= Player.x p <= 1000 /\ 0 <= Player.y p <= 600)
  /\ (forall t f, In (t, f) (flags (game both_carry_server)) ->
        0 <= Flag.x f <= 1000 /\ 0 <= Flag.y f <= 600).
Proof. exact (positions_stay_on_the_map loads_frames both_carry_server both_carry_reachable). Defined.

(** ** Queueing *)

Section SetSetLemma.
Context {K V : Type} `{KeyEqb K}.
Implicit Types (k : K) (v : V) (d : list (K * V)).

Lemma set_set k v1 v2 d : Dict.set k v2 (Dict.set k v1 d) = Dict.set k v2 d.
Proof.
  induction d as [|[k' v'] r IH]; simpl.
  - now rewrite keqb_refl.
  - destruct (keqb k k') eqn:E; simpl; rewrite E; [reflexivity | now rewrite IH].
Qed.
End SetSetLemma.

Section Queueing.
Variable json_loads : string -> result Json.

Lemma handle_lines_queued pid lines : forall msgs draws s q,
  Dict.get pid (input_queues s) = Some q ->
  Forall2 (queued_as json_loads) lines msgs ->
  handle_lines json_loads draws pid lines s
  = (set_input_queues (Dict.set pid (q ++ msgs)%list (input_queues s)) s, None).
Proof.
  induction lines as [|l lines IH]; intros msgs draws s q G F; inversion F as [|? o ? ms' Q F']; subst.
  - simpl. rewrite app_nil_r, (set_get_id _ _ _ G).
    unfold set_input_queues. now rewrite server_eta.
  - destruct Q as (D & NP & NS). cbn [handle_lines]. unfold handle_line.
    rewrite D. cbn [bind]. rewrite NP, NS. unfold put at 1. rewrite G.
    rewrite (IH ms' _ _ (q ++ [o])%list); [|cbn [input_queues set_input_queues]; apply get_set_eq|exact F'].
    unfold set_input_queues. cbn [game next_player_id client_sockets input_queues
      client_threads running broadcasts].
    rewrite set_set, <- app_assoc. reflexivity.
Qed.

(** X13. Messages that are neither pickup nor steal requests are queued in
    the order they arrive and nothing else happens: a read whose lines all
    decode to such messages leaves the game, the other queues and the rest
    of the server as they were and appends the decoded messages, in order,
    to the queue of the connection.  The tick that follows consumes the
    queue front to back, so these messages take effect in the order they
    were sent, after everything queued before them. *)
Theorem queued_messages_keep_their_order
        (draws : nat -> Q) (pid : Z) (lines : list string) (msgs q : list JDict)
        (s : Server) :
  Dict.get pid (input_queues s) = Some q ->
  Forall2 (queued_as json_loads) lines msgs ->
  let s' := fst (handle_lines json_loads draws pid lines s) in
  snd (handle_lines json_loads draws pid lines s) = None
  /\ game s' = game s
  /\ Dict.get pid (input_queues s') = Some (q ++ msgs)%list
  /\ (forall k, k <> pid -> Dict.get k (input_queues s') = Dict.get k (input_queues s))
  /\ Dict.keys (input_queues s') = Dict.keys (input_queues s)
  /\ broadcasts s' = broadcasts s /\ running s' = running s
  /\ drain pid (q ++ msgs) (game s) = drain pid msgs (drain pid q (game s)).
Proof.
  intros G F s'. subst s'. rewrite (handle_lines_queued pid lines msgs draws s q G F).
  cbn [fst snd]. unfold set_input_queues. cbn [game input_queues broadcasts running].
  split; [reflexivity|]. split; [reflexivity|]. split; [apply get_set_eq|].
  split; [intros k N; apply get_set_neq; congruence|].
  split; [apply keys_set_present; congruence|].
  split; [reflexivity|]. split; [reflexivity|]. apply drain_app.
Qed.
End Queueing.

(** Player 1 sends an upward input and an empty object in one read. *)
Lemma queued_messages_keep_their_order_witness :
  let lines := [frame_input true false false false; "{}"%string] in
  fst (handle_lines loads_frames no_draws 1 lines two_players)
  = set_input_queues [(1, [go_up; []]); (2, [])] two_players
  /\ Dict.get 1 (input_queues (fst (handle_lines loads_frames no_draws 1 lines two_players)))
     = Some [go_up; []].
Proof.
  split; [vm_compute; reflexivity|].
  assert (Forall2 (queued_as loads_frames)
            [frame_input true false false false; "{}"%string] [go_up; []]) as F
    by (repeat constructor).
  exact (proj1 (proj2 (proj2 (queued_messages_keep_their_order loads_frames no_draws 1
           [frame_input true false false false; "{}"%string] [go_up; []] [] two_players
           eq_refl F)))).
Defined.

(** ** What a snapshot says *)

Section Snapshots.
Variable json_loads : string -> result Json.

End Snapshots.


(** ** The simulation loop *)

Section GameLoop.
Variable json_loads : string -> result Json.

(** X15. Started in a state the server can reach, the simulation loop
    never raises, however many iterations it makes, and the state it is in
    afterwards is again one the server can reach.  A stopped loop makes no
    iteration.  As long as the loop is still running afterwards, it was
    running before, every iteration was made and each sent exactly one
    message, an [update]: no game-over message was among them. *)
Theorem game_loop_runs_until_stopped (fuel : nat) (s : Server) :
  reachable json_loads s ->
  exists s',
    game_loop fuel s = Ok s'
    /\ reachable json_loads s'
    /\ (running s = false -> s' = s)
    /\ (running s' = true ->
        running s = true
        /\ List.length (broadcasts s') = (List.length (broadcasts s) + fuel)%nat
        /\ over_winners (broadcasts s') = over_winners (broadcasts s)).
Proof.
  revert s. induction fuel as [|fuel IH]; intros s R.
  - exists s. cbn [game_loop]. split; [reflexivity|]. split; [exact R|].
    split; [reflexivity|]. intros Run. split; [exact Run|]. split; [lia | reflexivity].
  - cbn [game_loop]. destruct (running s) eqn:Run.
    + destruct (reachable_win_inv json_loads s R) as (W & _).
      destruct (tick_snapshot_carriers s W) as (mid & T & _).
      rewrite T. cbn [bind]. set (s1 := broadcast (serialize mid) mid) in *.
      assert (reachable json_loads s1) as R1
        by (apply (reach_step json_loads s s1 R); now apply step_tick).
      destruct (IH s1 R1) as (s' & L & R' & _ & Keep).
      exists s'. split; [exact L|]. split; [exact R'|]. split; [discriminate|].
      intros Run'. destruct (Keep Run') as (Run1 & Len & Ov).
      split; [reflexivity|].
      destruct (tick_log s s1 T) as (overs & B & [(-> & _) | (team & _ & Stop)]);
        [|congruence].
      rewrite Len, Ov, B. cbn [app]. rewrite length_app, over_winners_app.
      cbn [List.length over_winners flat_map snd serialize app].
      rewrite app_nil_r. split; [lia | reflexivity].
    + exists s. split; [reflexivity|]. split; [exact R|]. split; [reflexivity|].
      congruence.
Qed.
End GameLoop.

(** Three iterations from the state in which both carriers head home. *)
Lemma game_loop_runs_until_stopped_witness :
  exists s',
    game_loop 3 both_head_home = Ok s'
    /\ reachable loads_frames s'
    /\ (running both_head_home = false -> s' = both_head_home)
    /\ (running s' = true ->
        running both_head_home = true
        /\ List.length (broadcasts s') = (List.length (broadcasts both_head_home) + 3)%nat
        /\ over_winners (broadcasts s') = over_winners (broadcasts both_head_home)).
Proof.
  exact (game_loop_runs_until_stopped loads_frames 3 both_head_home
           both_head_home_reachable).
Defined.

(** ** Malformed inputs *)

Lemma drain_cons pid m q g :
  drain pid (m :: q) g
  = drain pid q (match handle_inputs pid m g with Ok g' => g' | Raise _ => g end).
Proof. reflexivity. Qed.

(** X16. An input message whose [move] field is present but is not an
    object makes [handle_inputs] raise for every listed player, before
    anything was written; [process_inputs] catches the exception and goes
    on with the next message.  So such a message, wherever it stands in a
    queue, has no effect: the messages before and after it are applied as if
    it had not been sent. *)
Theorem malformed_input_is_skipped
        (pid : Z) (m : JDict) (v : Json) (q1 q2 : list JDict) (g : Game_State) :
  is_str "input" (Dict.get "type" m) = true ->
  Dict.get "move" m = Some v ->
  (forall o, v <> JObj o) ->
  (forall g0, Dict.get pid (players g0) <> None ->
              handle_inputs pid m g0 = Raise AttributeError)
  /\ drain pid (q1 ++ m :: q2) g = drain pid (q1 ++ q2) g.
Proof.
  intros T Mv NO.
  assert (forall g0, handle_inputs pid m g0 = Raise AttributeError
                     \/ handle_inputs pid m g0 = Ok g0) as Cases.
  { intros g0. unfold handle_inputs, get_or_empty.
    destruct (Dict.get pid (players g0)); [|now right].
    rewrite T, Mv. destruct v as [| | | | |o]; try (now left). exfalso. now apply (NO o). }
  split.
  - intros g0 P. unfold handle_inputs, get_or_empty.
    destruct (Dict.get pid (players g0)); [|congruence].
    rewrite T, Mv. destruct v as [| | | | |o]; try reflexivity. exfalso. now apply (NO o).
  - rewrite !drain_app, drain_cons.
    destruct (Cases (drain pid q1 g)) as [-> | ->]; reflexivity.
Qed.

(** Player 1 sends an input whose [move] is a number between two steps to
    the right: it ends two steps to the right of its spawn point. *)
Lemma malformed_input_is_skipped_witness :
  let bad := [("type", JStr "input"); ("move", JInt 3)] in
  handle_inputs 1 bad (game two_players) = Raise AttributeError
  /\ drain 1 ([go_right] ++ bad :: [go_right]) (game two_players)
     = drain 1 ([go_right] ++ [go_right]) (game two_players)
  /\ Dict.get 1 (players (drain 1 ([go_right] ++ bad :: [go_right]) (game two_players)))
     = Some (Player.mk 1 132 137 "red" false false).
Proof.
  intros bad.
  destruct (malformed_input_is_skipped 1 bad (JInt 3) [go_right] [go_right]
              (game two_players) eq_refl eq_refl ltac:(discriminate)) as (Bad & Skip).
  split; [apply Bad; vm_compute; discriminate|]. split; [exact Skip|].
  vm_compute. reflexivity.
Defined.

(** ** Shutdown *)

(** X17. After the interrupt handler of [start] has run nothing goes on:
    the simulation loop makes no iteration, a listener handles no further
    read and ends, a message put on a queue is dropped, and a broadcast
    reaches nobody.  The game itself is kept as it was; in particular the
    players stay listed although their connections are gone. *)
Theorem interrupt_stops_the_server (s : Server) :
  game (interrupt s) = game s
  /\ (forall fuel, game_loop fuel (interrupt s) = Ok (interrupt s))
  /\ (forall json_loads pid r draws reads th,
        client_listener json_loads pid ((r, draws) :: reads) th (interrupt s)
        = (stopped th, interrupt s))
  /\ (forall pid m, put pid m (interrupt s) = interrupt s)
  /\ process_inputs (interrupt s) = interrupt s
  /\ (forall o, broadcasts (broadcast o (interrupt s)) = (broadcasts s ++ [([], o)])%list).
Proof.
  split; [reflexivity|]. split; [intros [|fuel]; reflexivity|].
  split; [reflexivity|]. split; [reflexivity|]. split; reflexivity.
Qed.

(** * The client and the server together *)

Lemma fold_set_fresh (l : list (Z * Player.t)) : forall acc : list (Z * Player.t),
  NoDup (Dict.keys acc ++ Dict.keys l) ->
  fold_left (fun d p => Dict.set (Player.pid p) p d)
            (map (fun kp : Z * Player.t =>
                    Player.mk (fst kp) (Player.x (snd kp)) (Player.y (snd kp))
                              (Player.team (snd kp)) (Player.red (snd kp))
                              (Player.blue (snd kp))) l) acc
  = (acc ++ map (fun kp : Z * Player.t =>
                   (fst kp, Player.mk (fst kp) (Player.x (snd kp)) (Player.y (snd kp))
                                      (Player.team (snd kp)) (Player.red (snd kp))
                                      (Player.blue (snd kp)))) l)%list.
Proof.
  induction l as [|[k p] l IH]; intros acc ND; cbn [map fold_left fst snd Player.pid].
  - now rewrite app_nil_r.
  - assert (~ In k (Dict.keys acc)) as Fresh.
    { intros I. apply NoDup_remove_2 in ND. apply ND. apply in_or_app. now left. }
    rewrite <- (app_nil_r acc) at 1. rewrite (set_app_absent k _ acc [] Fresh).
    cbn [Dict.set]. rewrite IH.
    + rewrite <- app_assoc. reflexivity.
    + unfold Dict.keys in *. rewrite map_app, <- app_assoc. exact ND.
Qed.

Section ClientServer.
Variable json_loads : string -> result Json.

Lemma roster_inv_player s k p :
  roster_inv s -> In (k, p) (players (game s)) ->
  Player.pid p = k /\ Player.team p = team_of_pid k.
Proof.
  intros (_ & _ & _ & _ & _ & _ & F) I. rewrite Forall_forall in F.
  apply (F (k, Player.pid p, Player.team p)).
  unfold roster. apply in_map_iff. exists (k, p). auto.
Qed.

Lemma snapshot_players s c :
  roster_inv s -> Client.players (handle (InOut (serialize s)) c) = players (game s).
Proof.
  intros Inv. pose proof Inv as (ND & _). unfold serialize. cbn [handle Client.players].
  rewrite fold_set_fresh by exact ND. cbn [app].
  rewrite <- (map_id (players (game s))) at 2. apply map_ext_in.
  intros [k p] I. destruct (roster_inv_player s k p Inv I) as (Pi & _).
  cbn [fst snd]. rewrite <- Pi. now destruct p.
Qed.

(** X18. The client mirrors the server.  Handling the snapshot of a state
    the server can reach leaves the client with the server's own player
    table, flag for flag what the server holds and the server's scores;
    who the client is and whether it thinks the round is over is not
    touched. *)
Theorem client_mirrors_the_server (s : Server) (c : Client.t) :
  reachable json_loads s ->
  let c' := handle (InOut (serialize s)) c in
  Client.players c' = players (game s)
  /\ map (fun f => (FlagView.team f, FlagView.x f, FlagView.y f, FlagView.carrier f))
         (Client.flags c')
     = map (fun kf => (Flag.team (snd kf), Flag.x (snd kf), Flag.y (snd kf),
                       Flag.carrier (snd kf))) (flags (game s))
  /\ Client.score c' = scores (game s)
  /\ Client.pid c' = Client.pid c /\ Client.team c' = Client.team c
  /\ Client.over c' = Client.over c /\ Client.winner c' = Client.winner c.
Proof.
  intros R c'. subst c'. split; [apply snapshot_players, (reachable_roster_inv json_loads), R|].
  unfold serialize. cbn [handle Client.flags Client.score Client.pid Client.team
                         Client.over Client.winner].
  rewrite map_map. repeat split.
Qed.
End ClientServer.

(** A client that handles the snapshot of the state in which both players
    carry a flag. *)
Lemma client_mirrors_the_server_witness :
  Client.players (handle (InOut (serialize both_carry_server)) Client.new)
  = [(1, Player.mk 1 948 299 "red" false true); (2, Player.mk 2 52 300 "blue" true false)].
Proof.
  exact (proj1 (client_mirrors_the_server loads_frames both_carry_server Client.new
                  both_carry_reachable)).
Defined.


(** ** Requests the client sends *)

Lemma steal_loop_sound pid team px py ps r :
  In r (steal_loop pid team px py ps) ->
  exists p, In p ps
            /\ Player.pid p <> pid
            /\ Player.team p <> team
            /\ carries p (if Player.red p then "red" else "blue") = true
            /\ dist2 px py (Player.x p) (Player.y p)
               <= AUTO_PICKUP_RADIUS * AUTO_PICKUP_RADIUS
            /\ r = ReqSteal (Player.pid p) (if Player.red p then "red" else "blue").
Proof.
  induction ps as [|p ps IH]; cbn [steal_loop]; [intros []|].
  assert (In r (steal_loop pid team px py ps) ->
          exists p0, In p0 (p :: ps)
            /\ Player.pid p0 <> pid
            /\ Player.team p0 <> team
            /\ carries p0 (if Player.red p0 then "red" else "blue") = true
            /\ dist2 px py (Player.x p0) (Player.y p0)
               <= AUTO_PICKUP_RADIUS * AUTO_PICKUP_RADIUS
            /\ r = ReqSteal (Player.pid p0) (if Player.red p0 then "red" else "blue")) as Next.
  { intros I. destruct (IH I) as (p0 & I0 & Q). exists p0. split; [now right | exact Q]. }
  destruct (Player.pid p =? pid) eqn:Ep; [exact Next|].
  destruct (String.eqb (Player.team p) team) eqn:Et; [exact Next|].
  destruct (Player.red p || Player.blue p) eqn:Ec; cbn [negb]; [|exact Next].
  destruct (_ <=? _) eqn:Ed; [|exact Next].
  intros [<-|[]]. exists p. split; [now left|].
  split; [now apply Z.eqb_neq|]. split; [now apply String.eqb_neq|].
  split; [|split; [now apply Z.leb_le | reflexivity]].
  unfold carries. destruct (Player.red p) eqn:Er; [reflexivity|].
  cbn in Ec |- *. exact Ec.
Qed.

Section Requests.
Variable json_loads : string -> result Json.

Lemma handle_line_steal draw a d t line s flag :
  json_loads line = Ok (JObj (steal_msg d t)) ->
  Dict.get t (flags (game s)) = Some flag ->
  handle_line json_loads draw a line s
  = Ok (set_game (attempt_steal draw a d t (game s)) s).
Proof.
  intros L G. unfold handle_line. rewrite L. cbn [bind].
  unfold steal_msg. 
  change (Dict.get "type" [("type", JStr "steal"); ("target", JInt d); ("flag", JStr t)])
    with (Some (JStr "steal")).
  change (is_str "pickup" (Some (JStr "steal"))) with false.
  change (is_str "steal" (Some (JStr "steal"))) with true. cbv iota.
  change (Dict.get "target" [("type", JStr "steal"); ("target", JInt d); ("flag", JStr t)])
    with (Some (JInt d)).
  change (Dict.get "flag" [("type", JStr "steal"); ("target", JInt d); ("flag", JStr t)])
    with (Some (JStr t)).
  unfold steal_request. cbn [team_key bind pid_key]. rewrite G. reflexivity.
Qed.

Lemma handle_line_pickup draw a line s :
  json_loads line = Ok (JObj [("type", JStr "pickup")]) ->
  handle_line json_loads draw a line s = Ok (set_game (attempt_pickup a (game s)) s).
Proof. intros L. unfold handle_line. rewrite L. reflexivity. Qed.

Lemma joined_fields a s c0 :
  roster_inv s ->
  Client.pid (joined a s c0) = Some a
  /\ Client.team (joined a s c0) = Some (team_of_pid a)
  /\ Client.players (joined a s c0) = players (game s)
  /\ Client.last_auto_pickup (joined a s c0) = Client.last_auto_pickup c0.
Proof.
  intros Inv. unfold joined. rewrite (snapshot_players s _ Inv). repeat split.
Qed.

(** X19. A steal request the client sends from an up-to-date snapshot of a
    state the server can reach names another player, of the other team,
    who carries the named flag and stands within the client's radius of 40.
    The server, which tests all of this but the distance, lets the random
    draw decide: the request leaves the state as it is when the draw is at
    or above the threshold, and otherwise the named flag goes to the
    requester, at the requester's position. *)
Theorem client_steal_request_passes_the_server_tests
        (s : Server) (a : Z) (c0 : Client.t) (r : Request) :
  reachable json_loads s ->
  In r (try_steal (joined a s c0)) ->
  exists d t attacker defender flag,
    r = ReqSteal d t
    /\ d <> a
    /\ Dict.get a (players (game s)) = Some attacker
    /\ Dict.get d (players (game s)) = Some defender
    /\ Dict.get t (flags (game s)) = Some flag
    /\ carries defender t = true
    /\ Player.team attacker <> Player.team defender
    /\ dist2 (Player.x attacker) (Player.y attacker) (Player.x defender) (Player.y defender)
       <= 1600
    /\ forall draw line,
        json_loads line = Ok (JObj (request_json r)) ->
        handle_line json_loads draw a line s
        = Ok (set_game (attempt_steal draw a d t (game s)) s)
        /\ (Qle_bool STEAL_CHANCE draw = true -> attempt_steal draw a d t (game s) = game s)
        /\ (Qle_bool STEAL_CHANCE draw = false ->
            Dict.get t (flags (attempt_steal draw a d t (game s)))
            = Some (Flag.mk (Flag.team flag) (Flag.spawn_x flag) (Flag.spawn_y flag)
                            (Player.x attacker) (Player.y attacker) (Some a))).
Proof.
  intros R I.
  pose proof (reachable_roster_inv json_loads s R) as Inv.
  destruct (reachable_win_inv json_loads s R) as ((WF & _ & _) & _).
  destruct (joined_fields a s c0 Inv) as (Pi & Te & Pl & _).
  unfold try_steal in I. rewrite Pi, Te, Pl in I.
  destruct (Dict.get a (players (game s))) as [attacker|] eqn:GA; [|destruct I].
  apply steal_loop_sound in I as (p & Ip & Np & Nt & Ca & Di & ->).
  unfold Dict.values in Ip. apply in_map_iff in Ip as ([d defender] & <- & Id).
  cbn [snd] in *.
  destruct (roster_inv_player s d defender Inv Id) as (Pd & Td).
  destruct (roster_inv_player s a attacker Inv (get_In _ _ _ GA)) as (Pa & Ta).
  pose proof (In_get_nodup d defender _ (proj1 Inv) Id) as GD.
  set (t := if Player.red defender then "red" else "blue") in *.
  destruct (wf_flags_get (game s) t WF) as (flag & GF & _);
    [subst t; destruct (Player.red defender); auto|].
  exists d, t, attacker, defender, flag. rewrite Pd.
  split; [reflexivity|]. split; [congruence|]. split; [reflexivity|].
  split; [exact GD|]. split; [exact GF|]. split; [exact Ca|].
  split; [rewrite Ta; congruence|]. split; [exact Di|].
  intros draw line L. cbn [request_json] in L.
  split; [exact (handle_line_steal draw a d t line s flag L GF)|].
  rewrite (attempt_steal_eq (game s) draw a d t attacker defender flag WF GF GA GD).
  rewrite Ca. cbn [negb].
  assert (String.eqb (Player.team attacker) (Player.team defender) = false) as ->
    by (apply String.eqb_neq; rewrite Ta; congruence).
  split; intros ->; [reflexivity|].
  cbv zeta. cbn [flags set_flags]. rewrite get_set_eq, Pa. reflexivity.
Qed.
End Requests.

(** Player 1 stands next to player 2, who carries the red flag: the
    client of player 1 asks for that flag, and with the draw 0 gets it. *)
Lemma client_steal_request_passes_the_server_tests_witness :
  try_steal (joined 1 red_meets_carrier Client.new) = [ReqSteal 2 "red"]
  /\ Dict.get "red" (flags (attempt_steal 0 1 2 "red" (game red_meets_carrier)))
     = Some (Flag.mk "red" 50 300 54 299 (Some 1)).
Proof.
  split; [reflexivity|].
  assert (reachable loads_frames red_meets_carrier) as R
    by (apply (played_reachable red_meets_carrier_script); vm_compute; reflexivity).
  destruct (client_steal_request_passes_the_server_tests loads_frames red_meets_carrier 1
              Client.new (ReqSteal 2 "red") R (or_introl eq_refl))
    as (d & t & attacker & defender & flag & E & _ & GA & _ & GF & _ & _ & _ & Srv).
  injection E as <- <-.
  assert (attacker = Player.mk 1 54 299 "red" false false) as ->
    by (vm_compute in GA; congruence).
  assert (flag = Flag.mk "red" 50 300 52 300 (Some 2)) as ->
    by (vm_compute in GF; congruence).
  exact (proj2 (proj2 (Srv 0%Q (frame_steal "2" "red") eq_refl)) eq_refl).
Defined.


Section PickupRequests.
Variable json_loads : string -> result Json.

(** X20. The client's pickup radius is wider than the server's.  With an
    up-to-date snapshot of a state the server can reach, the client sends a
    pickup request exactly when the opposing flag is free, lies within 40 of
    its player and the cooldown for that flag has passed; it then notes the
    time of the request.  The server grants the request only within 30: a
    request sent from further away leaves the state as it is, one sent from
    within 30 makes the requester the carrier.  So every pickup the server
    would grant is asked for once the cooldown has passed, and requests
    from between 30 and 40 are always refused. *)
Theorem client_pickup_request_and_server_radius
        (s : Server) (a : Z) (c0 : Client.t) (now : Q) (player : Player.t) (flag : Flag.t) :
  reachable json_loads s ->
  Dict.get a (players (game s)) = Some player ->
  Dict.get (opposing (Player.team player)) (flags (game s)) = Some flag ->
  let d2 := dist2 (Player.x player) (Player.y player) (Flag.x flag) (Flag.y flag) in
  let last := match Dict.get (opposing (Player.team player)) (Client.last_auto_pickup c0) with
              | Some v => v
              | None => 0%Q
              end in
  let sent := try_auto_pickup now (joined a s c0) in
  (snd sent = [ReqPickup]
   \/ snd sent = [] /\ fst sent = joined a s c0)
  /\ (snd sent = [ReqPickup]
      <-> Flag.carrier flag = None /\ d2 <= 1600
          /\ Qle_bool AUTO_PICKUP_COOLDOWN (now - last) = true)
  /\ (snd sent = [ReqPickup] ->
      Dict.get (opposing (Player.team player)) (Client.last_auto_pickup (fst sent))
      = Some now)
  /\ (forall draw line,
        json_loads line = Ok (JObj (request_json ReqPickup)) ->
        handle_line json_loads draw a line s
        = Ok (set_game (attempt_pickup a (game s)) s))
  /\ (Flag.carrier flag = None -> d2 <= 900 ->
      Dict.get (opposing (Player.team player)) (flags (attempt_pickup a (game s)))
      = Some (Flag.set_carrier (Some a) flag))
  /\ (900 < d2 -> attempt_pickup a (game s) = game s).
Proof.
  intros R GA GF d2 last sent.
  pose proof (reachable_roster_inv json_loads s R) as Inv.
  destruct (reachable_win_inv json_loads s R) as ((WF & _ & _) & _).
  destruct (joined_fields a s c0 Inv) as (Pi & Te & Pl & La).
  destruct (roster_inv_player s a player Inv (get_In _ _ _ GA)) as (Pa & Ta).
  assert (wf_team player) as WT by (unfold wf_team; rewrite Ta; apply team_of_pid_cases).
  assert (Sent : sent
          = match auto_pickup_loop now (Player.team player) (Player.x player)
                    (Player.y player) (Client.flags (joined a s c0))
                    (Client.last_auto_pickup c0) with
            | Some l => (Client.set_last_auto_pickup l (joined a s c0), [ReqPickup])
            | None => (joined a s c0, [])
            end).
  { subst sent. unfold try_auto_pickup. rewrite Pi, Te, Pl, GA, La, Ta. reflexivity. }
  assert (Loop : auto_pickup_loop now (Player.team player) (Player.x player)
                   (Player.y player) (Client.flags (joined a s c0))
                   (Client.last_auto_pickup c0)
          = match Flag.carrier flag with
            | Some _ => None
            | None =>
                if d2 <=? AUTO_PICKUP_RADIUS * AUTO_PICKUP_RADIUS
                then if Qle_bool AUTO_PICKUP_COOLDOWN (now - last)
                     then Some (Dict.set (opposing (Player.team player)) now
                                         (Client.last_auto_pickup c0))
                     else None
                else None
            end).
  { destruct WF as (fr & fb & Fs & Tr & Tb).
    unfold joined, serialize. cbn [handle Client.flags]. rewrite Fs in *.
    cbn [map snd auto_pickup_loop FlagView.team FlagView.carrier FlagView.x FlagView.y].
    rewrite Tr, Tb. subst d2 last.
    destruct (wf_team_cases player WT) as [[T O]|[T O]]; rewrite O in *; rewrite T;
      cbn in GF; injection GF as <-.
    - change (String.eqb "red" "red") with true. change (String.eqb "blue" "red") with false.
      cbv iota. destruct (Flag.carrier fb); [reflexivity|].
      destruct (_ <=? _); [|reflexivity]. destruct (Qle_bool _ _); reflexivity.
    - change (String.eqb "red" "blue") with false. change (String.eqb "blue" "blue") with true.
      cbv iota. destruct (Flag.carrier fr); [reflexivity|].
      destruct (_ <=? _); [|reflexivity]. destruct (Qle_bool _ _); reflexivity. }
  rewrite Loop in Sent. clear Loop.
  assert (Server_side : attempt_pickup a (game s)
          = if pickup_ok player flag
            then set_flags (Dict.set (opposing (Player.team player))
                                     (Flag.set_carrier (Some a) flag) (flags (game s)))
                   (set_players (Dict.set a (carry_only (opposing (Player.team player)) player)
                                          (players (game s))) (game s))
            else game s)
    by exact (attempt_pickup_eq (game s) a player flag WF WT GA GF).
  split; [|split; [|split; [|split; [|split]]]].
  - rewrite Sent. destruct (Flag.carrier flag); [right; split; reflexivity|].
    destruct (d2 <=? _); [|right; split; reflexivity].
    destruct (Qle_bool _ _); [left; reflexivity | right; split; reflexivity].
  - rewrite Sent. destruct (Flag.carrier flag) as [c|].
    + split; [discriminate | intros (C & _); discriminate].
    + destruct (d2 <=? AUTO_PICKUP_RADIUS * AUTO_PICKUP_RADIUS) eqn:Ed.
      * apply Z.leb_le in Ed. change (AUTO_PICKUP_RADIUS * AUTO_PICKUP_RADIUS) with 1600 in Ed.
        destruct (Qle_bool _ _); cbn [snd]; split; auto; try discriminate.
        intros (_ & _ & C). discriminate.
      * apply Z.leb_gt in Ed. change (AUTO_PICKUP_RADIUS * AUTO_PICKUP_RADIUS) with 1600 in Ed.
        cbn [snd]. split; [discriminate | intros (_ & C & _); lia].
  - rewrite Sent. destruct (Flag.carrier flag); [discriminate|].
    destruct (d2 <=? _); [|discriminate].
    destruct (Qle_bool _ _); [|discriminate].
    intros _. cbn [fst Client.set_last_auto_pickup Client.last_auto_pickup].
    apply get_set_eq.
  - intros draw line L. exact (handle_line_pickup json_loads draw a line s L).
  - intros Free Near. rewrite Server_side. unfold pickup_ok. rewrite Free.
    assert ((d2 <=? PICKUP_RADIUS * PICKUP_RADIUS) = true) as Ok
      by (apply Z.leb_le; exact Near).
    subst d2. rewrite Ok. cbn [flags set_flags]. apply get_set_eq.
  - intros Far. rewrite Server_side. unfold pickup_ok.
    destruct (Flag.carrier flag); [reflexivity|].
    assert ((d2 <=? PICKUP_RADIUS * PICKUP_RADIUS) = false) as No
      by (apply Z.leb_gt; exact Far).
    subst d2. now rewrite No.
Qed.
End PickupRequests.

(** Player 2 stands next to the free red flag: its client asks for the
    flag, and the server makes player 2 the carrier. *)
Lemma client_pickup_request_and_server_radius_witness :
  snd (try_auto_pickup 100 (joined 2 blue_at_red_flag Client.new)) = [ReqPickup]
  /\ Dict.get "red" (flags (attempt_pickup 2 (game blue_at_red_flag)))
     = Some (Flag.mk "red" 50 300 50 300 (Some 2)).
Proof.
  assert (reachable loads_frames blue_at_red_flag) as R.
  { apply (played_reachable
             (two_players_script
              ++ [ActRecv 2 (frames_left 138 ++ frames_down 21)%string; ActTick])).
    vm_compute. reflexivity. }
  destruct (client_pickup_request_and_server_radius loads_frames blue_at_red_flag 2
              Client.new 100%Q (Player.mk 2 52 300 "blue" false false)
              (Flag.mk "red" 50 300 50 300 None) R eq_refl eq_refl)
    as (_ & Asked & _ & _ & Granted & _).
  split.
  - apply Asked. split; [reflexivity|]. split; [vm_compute; discriminate | reflexivity].
  - apply Granted; [reflexivity | vm_compute; discriminate].
Defined.


(** ** The client's receive path *)

Section ListenFacts.
Variable loads_incoming : string -> result Incoming.
Variable is_blank : string -> bool.

Lemma listen_lines_app l1 l2 c :
  listen_lines loads_incoming is_blank (l1 ++ l2) c
  = match listen_lines loads_incoming is_blank l1 c with
    | (c1, None) => listen_lines loads_incoming is_blank l2 c1
    | (c1, Some e) => (c1, Some e)
    end.
Proof.
  revert c. induction l1 as [|l l1 IH]; intros c; simpl; [reflexivity|].
  destruct (listen_line loads_incoming is_blank l c) as [c'|e]; [apply IH | reflexivity].
Qed.

Lemma handle_keeps_over m c : Client.over c = true -> Client.over (handle m c) = true.
Proof. intros O. destruct m as [pid team| |[w|ps fs sc]|]; cbn; auto. Qed.

(** X21. Unlike the server, the client survives a line it cannot decode:
    a line that is not JSON, like a blank line, is dropped and the lines
    around it are handled as if it had not been sent.  Any other exception,
    a failed read and the end of the stream end the session.  Once the
    session is over no further read is handled, and no message clears the
    flag again. *)
Theorem client_drops_undecodable_lines
        (bad : string) (l1 l2 : list string) (c : Client.t) :
  is_blank bad = true \/ loads_incoming bad = Raise JSONDecodeError ->
  listen_lines loads_incoming is_blank (l1 ++ bad :: l2) c
  = listen_lines loads_incoming is_blank (l1 ++ l2) c
  /\ (forall e line rest c0,
        is_blank line = false -> loads_incoming line = Raise e -> e <> JSONDecodeError ->
        forall buffer data rem, data <> EmptyString ->
          split_lines (buffer ++ data) = (line :: rest, rem) ->
          Client.over (snd (listen_recv loads_incoming is_blank (RecvData data) buffer c0))
          = true)
  /\ (forall buffer c0,
        Client.over (snd (listen_recv loads_incoming is_blank RecvError buffer c0)) = true
        /\ Client.over (snd (listen_recv loads_incoming is_blank (RecvData "") buffer c0))
           = true)
  /\ (forall reads buffer c0,
        Client.over c0 = true ->
        listen loads_incoming is_blank reads buffer c0 = (buffer, c0))
  /\ (forall m c0, Client.over c0 = true -> Client.over (handle m c0) = true).
Proof.
  intros Bad. split; [|split; [|split; [|split]]].
  - rewrite !listen_lines_app.
    destruct (listen_lines loads_incoming is_blank l1 c) as [c1 [e|]]; [reflexivity|].
    cbn [listen_lines]. unfold listen_line.
    destruct Bad as [B | B]; [now rewrite B|].
    destruct (is_blank bad); [reflexivity | now rewrite B].
  - intros e line rest c0 NB L NE buffer data rem ND SL. unfold listen_recv.
    apply String.eqb_neq in ND. rewrite ND, SL. cbn [listen_lines]. unfold listen_line.
    rewrite NB, L. destruct e; try contradiction; reflexivity.
  - intros buffer c0. split; reflexivity.
  - intros [|r reads] buffer c0 O; cbn [listen]; [reflexivity | now rewrite O].
  - intros m c0. apply handle_keeps_over.
Qed.
End ListenFacts.

(** A line that is not JSON stands between the empty object and the
    [over] message: the client still learns that red has won. *)
Lemma client_drops_undecodable_lines_witness :
  listen_lines loads_incoming_frames is_empty_line
               (["{}"%string] ++ "oops"%string :: [frame_over_red]) Client.new
  = listen_lines loads_incoming_frames is_empty_line
                 (["{}"%string] ++ [frame_over_red]) Client.new
  /\ Client.winner (fst (listen_lines loads_incoming_frames is_empty_line
                           (["{}"%string] ++ "oops"%string :: [frame_over_red])
                           Client.new))
     = Some "red"%string.
Proof.
  split; [|vm_compute; reflexivity].
  exact (proj1 (client_drops_undecodable_lines loads_incoming_frames is_empty_line
                  "oops" ["{}"%string] [frame_over_red] Client.new
                  (or_intror eq_refl))).
Defined.


(** ** Accepting a connection *)

Section Accepting.
Variable json_loads : string -> result Json.

(** X22. In a state the server can reach, [accept] never fails and never
    overwrites: the new player is appended to the player table under the
    next identifier, with the team its parity gives, at the spawn column of
    that team and a spawn row between 100 and 499, carrying nothing; it
    gets an empty queue and a live listener; every player, flag and score
    that was there is left as it was; and the client that handles the
    [connect] message knows the identifier and the team the server has
    recorded. *)
Theorem accept_appends_a_fresh_player (s : Server) :
  reachable json_loads s ->
  let pid := next_player_id s in
  let newcomer := Player.mk pid (if pid mod 2 =? 1 then 120 else 880)
                            (100 + (pid * 37) mod 400) (team_of_pid pid) false false in
  players (game (accept s)) = (players (game s) ++ [(pid, newcomer)])%list
  /\ 100 <= Player.y newcomer < 500
  /\ flags (game (accept s)) = flags (game s)
  /\ scores (game (accept s)) = scores (game s)
  /\ input_queues (accept s) = (input_queues s ++ [(pid, [])])%list
  /\ client_threads (accept s) = (client_threads s ++ [(pid, mkThread "" true)])%list
  /\ next_player_id (accept s) = pid + 1
  /\ (forall c, Client.pid (handle (connect_msg pid) c) = Some (Player.pid newcomer)
                /\ Client.team (handle (connect_msg pid) c)
                   = Some (Player.team newcomer)).
Proof.
  intros R pid newcomer.
  destruct (reachable_roster_inv json_loads s R) as (ND & So & Qu & Th & _ & Below & _).
  destruct (reachable_on_the_map json_loads s R) as (W & Hh & _).
  assert (~ In pid (Dict.keys (players (game s)))) as Fresh
    by (intros I; specialize (Below _ I); subst pid; lia).
  assert (forall (V : Type) (v : V) (d : list (Z * V)),
            Dict.keys d = Dict.keys (players (game s)) ->
            Dict.set pid v d = (d ++ [(pid, v)])%list) as Append.
  { intros V v d K. rewrite <- (app_nil_r d) at 1.
    rewrite set_app_absent by (rewrite K; exact Fresh). reflexivity. }
  unfold accept. fold pid. rewrite W, Hh.
  change (MAP_HEIGHT - 200 =? 0) with false. cbv iota.
  change (MAP_HEIGHT - 200) with 400.
  cbn [game players flags scores set_players input_queues client_threads next_player_id].
  rewrite !Append by auto.
  assert ((if String.eqb (if pid mod 2 =? 1 then "red" else "blue") "red"
           then 120 else MAP_WIDTH - 120)
          = if pid mod 2 =? 1 then 120 else 880) as ->
    by (destruct (pid mod 2 =? 1); reflexivity).
  split; [reflexivity|].
  split; [pose proof (Z.mod_pos_bound (pid * 37) 400 ltac:(lia)); subst newcomer;
          cbn [Player.y]; lia|].
  repeat split.
Qed.
End Accepting.

(** The third connection, accepted while both players carry a flag. *)
Lemma accept_appends_a_fresh_player_witness :
  players (game (accept both_carry_server))
  = (players (game both_carry_server)
     ++ [(3, Player.mk 3 120 211 "red" false false)])%list.
Proof.
  exact (proj1 (accept_appends_a_fresh_player loads_frames both_carry_server
                  both_carry_reachable)).
Defined.

(** ** The requests of the client as the server reads them *)

Section Protocol.
Variable json_loads : string -> result Json.

(** X23. The server reads every request the way the client means it.  A
    pickup request calls [attempt_pickup] for the sender; a steal request
    calls [attempt_steal] with the target and the flag the client named,
    when that flag exists; an input request is queued, and when the tick
    handles it the sender moves by exactly the four directions the client
    sent; a disconnect request is queued too, and ignored: the server does
    not remove a player who says goodbye. *)
Theorem server_reads_requests_as_sent
        (draw : Q) (a : Z) (line : string) (r : Request) (s : Server) :
  json_loads line = Ok (JObj (request_json r)) ->
  handle_line json_loads draw a line s
  = Ok match r with
       | ReqPickup => set_game (attempt_pickup a (game s)) s
       | ReqSteal d t =>
           match Dict.get t (flags (game s)) with
           | Some _ => set_game (attempt_steal draw a d t (game s)) s
           | None => s
           end
       | ReqInput _ _ _ _ | ReqDisconnect _ => put a (request_json r) s
       end
  /\ (forall u d l r' g player,
        r = ReqInput u d l r' -> Dict.get a (players g) = Some player ->
        handle_inputs a (request_json r) g
        = Ok (set_players (Dict.set a (move_player g u d l r' player) (players g)) g))
  /\ (forall p g, r = ReqDisconnect p -> handle_inputs a (request_json r) g = Ok g).
Proof.
  intros L. split; [|split].
  - destruct r as [u d l r'| |d t|p].
    + unfold handle_line. rewrite L. reflexivity.
    + exact (handle_line_pickup json_loads draw a line s L).
    + destruct (Dict.get t (flags (game s))) as [flag|] eqn:G.
      * exact (handle_line_steal json_loads draw a d t line s flag L G).
      * unfold handle_line. rewrite L. cbn [bind request_json].
        unfold steal_msg.
        change (Dict.get "type" [("type", JStr "steal"); ("target", JInt d); ("flag", JStr t)])
          with (Some (JStr "steal")).
        change (is_str "pickup" (Some (JStr "steal"))) with false.
        change (is_str "steal" (Some (JStr "steal"))) with true. cbv iota.
        change (Dict.get "flag" [("type", JStr "steal"); ("target", JInt d); ("flag", JStr t)])
          with (Some (JStr t)).
        unfold steal_request. cbn [team_key bind]. rewrite G. cbn [bind].
        unfold set_game. now rewrite server_eta.
    + unfold handle_line. rewrite L. reflexivity.
  - intros u d l r' g player -> G. unfold handle_inputs. rewrite G.
    destruct u, d, l, r'; reflexivity.
  - intros p g ->. unfold handle_inputs. destruct (Dict.get a (players g)); reflexivity.
Qed.
End Protocol.

(** Player 1 presses up and left: the input frame is queued, and the tick
    moves player 1 from (120, 137) to (114, 131). *)
Lemma server_reads_requests_as_sent_witness :
  handle_inputs 1 (request_json (ReqInput true false true false)) (game two_players)
  = Ok (set_players
          (Dict.set 1 (Player.mk 1 114 131 "red" false false) (players (game two_players)))
          (game two_players)).
Proof.
  exact (proj1 (proj2 (server_reads_requests_as_sent
                         (fun _ => Ok (JObj (request_json (ReqInput true false true false))))
                         0%Q 1 "" (ReqInput true false true false) two_players eq_refl))
               true false true false (game two_players)
               (Player.mk 1 120 137 "red" false false) eq_refl eq_refl).
Defined.


(** * One opposing flag for each player *)



Section OpposingFlag.
Variable json_loads : string -> result Json.


End OpposingFlag.



(** * Removal in a state that is not carrier consistent *)

(** C7, at the failing input.  In the state reached when player 1, holding
    the red flag it stole, picks the blue flag up, the red flag names
    player 1 and follows it, while the red indicator of player 1 is clear.
    Removing player 1 there resets the blue flag only: the player is gone
    and the red flag still names it, at the place where the player stood.
    Not before the next tick does [update_flags] send that flag home. *)
Theorem remove_player_leaves_flag_of_cleared_indicator :
  reachable loads_frames red_flag_orphaned_server
  /\ game red_flag_orphaned_server = red_flag_orphaned
  /\ players red_flag_orphaned
     = [(1, Player.mk 1 948 299 "red" false true);
        (2, Player.mk 2 52 300 "blue" false false)]
  /\ flags red_flag_orphaned
     = [("red", Flag.mk "red" 50 300 948 299 (Some 1));
        ("blue", Flag.mk "blue" 950 300 950 300 (Some 1))]
  /\ players (game (remove_player 1 red_flag_orphaned_server))
     = [(2, Player.mk 2 52 300 "blue" false false)]
  /\ flags (game (remove_player 1 red_flag_orphaned_server))
     = [("red", Flag.mk "red" 50 300 948 299 (Some 1));
        ("blue", Flag.mk "blue" 950 300 950 300 None)]
  /\ exists s',
      tick (remove_player 1 red_flag_orphaned_server) = Ok s'
      /\ flags (game s')
         = [("red", Flag.mk "red" 50 300 50 300 None);
            ("blue", Flag.mk "blue" 950 300 950 300 None)].
Proof.
  split; [apply (played_reachable red_flag_orphaned_script); vm_compute; reflexivity|].
  repeat split; try (vm_compute; reflexivity).
  eexists. split; vm_compute; reflexivity.
Qed.
